(** * 1040 Paydays: the projection core of [src/App.jsx]

    A shallow embedding of the numeric core of the savings calculator:
    [computeProjection], the tick generators [niceStep], [niceCeil],
    [pickTicks] and [makeLogTicks], the windfall scheduler
    [windfallPeriodFromChoice] with [clampInt], and the update step of the
    chart's [yMaxDisplay] state.

    A JavaScript number is an IEEE 754 binary64 value: it is embedded as a
    primitive [float], whose operations [+ - * /] and comparisons are the
    ones the program runs.  Loop counters ([i], [p]) only ever hold integers
    below 2^53, which binary64 represents exactly; they are embedded as [Z],
    and a test between a counter and a number ([===], [%]) is decided on the
    exact value of the number.  [Math.pow] and [Math.log10] are host
    functions whose results the language leaves implementation-approximated;
    they are parameters of the embedding.

    A function whose loop may have no end returns an [option]: [None] stands
    for a call that does not return.  The loops counted by an integer
    ([computeProjection], [makeLogTicks]) are decided by [forCount]; the loop
    of [pickTicks], which steps by a number, takes fuel. *)

From Stdlib Require Import ZArith List Bool Lia String Sorted.
From Stdlib Require Import Uint63 Floats.
Import ListNotations.

Set Warnings "-inexact-float".

Local Open Scope Z_scope.

(** ** JavaScript numbers *)

Module JS.

(** [Number.isNaN], [Number.isFinite], truthiness of a number ([!x] is its
    negation) and the sign bit, read off the IEEE view of the value. *)
Definition isNaN (x : float) : bool :=
  match Prim2SF x with
  | S754_nan => true
  | _ => false
  end.

Definition Number_isFinite (x : float) : bool :=
  match Prim2SF x with
  | S754_nan | S754_infinity _ => false
  | _ => true
  end.

Definition truthy (x : float) : bool :=
  match Prim2SF x with
  | S754_nan | S754_zero _ => false
  | _ => true
  end.

Definition signbit (x : float) : bool :=
  match Prim2SF x with
  | S754_zero s | S754_infinity s | S754_finite s _ _ => s
  | S754_nan => false
  end.

(** [a || b] on numbers. *)
Definition orElse (a b : float) : float := if truthy a then a else b.

(** [Math.max] and [Math.min] of two numbers: NaN if either is NaN, and
    [+0] counts as larger than [-0]. *)
Definition Math_max (a b : float) : float :=
  if isNaN a || isNaN b then nan
  else if (a <? b)%float then b
  else if (b <? a)%float then a
  else if signbit a then b else a.

Definition Math_min (a b : float) : float :=
  if isNaN a || isNaN b then nan
  else if (a <? b)%float then a
  else if (b <? a)%float then b
  else if signbit a then a else b.

(** The number that holds the integer [z], for [|z| < 2^63]; exact for
    [|z| <= 2^53]. *)
Definition Z2F (z : Z) : float :=
  if z <? 0 then (- of_uint63 (Uint63.of_Z (- z)))%float
  else of_uint63 (Uint63.of_Z z).

(** Exact integer readings of a finite number [(-1)^s * m * 2^e]. *)
Definition floorZ (x : float) : option Z :=
  match Prim2SF x with
  | S754_zero _ => Some 0
  | S754_finite s m e => Some (Z.shiftl (cond_Zopp s (Zpos m)) e)
  | _ => None
  end.

Definition toZ (x : float) : option Z :=
  match Prim2SF x with
  | S754_zero _ => Some 0
  | S754_finite s m e =>
      if (0 <=? e) || (Zpos m mod 2 ^ (- e) =? 0)
      then Some (Z.shiftl (cond_Zopp s (Zpos m)) e)
      else None
  | _ => None
  end.

(** [x === i] for a counter [i]. *)
Definition strictEqZ (x : float) (i : Z) : bool :=
  match toZ x with
  | Some z => z =? i
  | None => false
  end.

(** [i % d === 0] for a counter [i]: the remainder is NaN when [d] is NaN or
    zero, [i] itself when [d] is infinite, and otherwise zero exactly when
    [i / d] is an integer. *)
Definition remIsZero (i : Z) (d : float) : bool :=
  match Prim2SF d with
  | S754_finite _ m e =>
      if 0 <=? e then i mod (Zpos m * 2 ^ e) =? 0
      else (i * 2 ^ (- e)) mod Zpos m =? 0
  | S754_infinity _ => i =? 0
  | _ => false
  end.

(** [Math.floor], [Math.ceil] and [Math.round] (which rounds halves up).
    A number with a non-negative exponent is already an integer; the others
    are below 2^53 in magnitude, so the result is exact. *)
Definition Math_floor (x : float) : float :=
  match Prim2SF x with
  | S754_finite s m e =>
      if 0 <=? e then x else Z2F (Z.shiftl (cond_Zopp s (Zpos m)) e)
  | _ => x
  end.

Definition Math_ceil (x : float) : float :=
  match Prim2SF x with
  | S754_finite s m e =>
      if 0 <=? e then x
      else
        let z := - Z.shiftl (cond_Zopp (negb s) (Zpos m)) e in
        if (z =? 0) && s then neg_zero else Z2F z
  | _ => x
  end.

Definition Math_round (x : float) : float :=
  match Prim2SF x with
  | S754_finite s m e =>
      if 0 <=? e then x
      else
        let z := Z.shiftl (2 * cond_Zopp s (Zpos m) + 2 ^ (- e)) (e - 1) in
        if (z =? 0) && s then neg_zero else Z2F z
  | _ => x
  end.

(** The number of turns of [for (let i = start; i <= hi; i++)] for a small
    integer [start]: none when [hi] is NaN, and no end ([None]) when [hi] is
    [+Infinity] or reaches 2^53, where [i++] no longer changes [i]. *)
Definition forCount (start : Z) (hi : float) : option nat :=
  match Prim2SF hi with
  | S754_nan | S754_infinity true => Some 0%nat
  | S754_infinity false => None
  | S754_zero _ => Some (Z.to_nat (0 - start + 1))
  | S754_finite s m e =>
      let n := Z.shiftl (cond_Zopp s (Zpos m)) e in
      if 2 ^ 53 <=? n then None else Some (Z.to_nat (n - start + 1))
  end.

(** The same loop with its counter as the double it is: the values of [i]
    that the body sees, in order; [None] when [fuel] turns do not end the
    loop. *)
Fixpoint counterLoop (fuel : nat) (i hi : float) : option (list float) :=
  match fuel with
  | O => None
  | S fuel' =>
      if (i <=? hi)%float
      then option_map (cons i) (counterLoop fuel' (i + 1)%float hi)
      else Some []
  end.

End JS.

Import JS.

(** [clamp(n, min, max)]. *)
Definition clamp (n min max : float) : float := Math_min max (Math_max min n).

(** ** The projection simulator ([computeProjection], lines 42-115) *)

(** The argument of [computeProjection], after the defaults of its
    parameters have been applied. *)
Record ProjectionInput := {
  currentAge : float;
  retirementAge : float;
  startingAmount : float;
  contributionPerPayday : float;
  annualRatePct : float;
  payPeriodsPerYear : float;
  windfallAmount : float;
  windfallAtPeriod : option float;   (* [null] or a number *)
  maxPoints : float
}.

Record ProjectionPoint := {
  periodIndex : Z;
  yearIndex : float;
  balance : float;
  totalContrib : float;
  interestEarned : float;
  interestThisPeriod : option float  (* absent at period 0 *)
}.

Record ProjectionResult := {
  years : float;
  totalPeriods : float;
  finalBalance : float;
  finalContrib : float;
  finalInterest : float;
  points : list ProjectionPoint
}.

(** The variables the loop of [computeProjection] updates. *)
Record LoopVars := {
  var_balance : float;
  var_totalContrib : float;
  var_points : list ProjectionPoint
}.

Section Host.

(** [Math.pow] and [Math.log10] of the host. *)
Variable Math_pow : float -> float -> float.
Variable Math_log10 : float -> float.

Section Projection.

Variable inp : ProjectionInput.

Definition yearsOf : float :=
  Math_max 0 (retirementAge inp - currentAge inp).

Definition totalPeriodsOf : float :=
  Math_max 0 (Math_round (yearsOf * payPeriodsPerYear inp)).

Definition rAnnual : float := (annualRatePct inp / 100)%float.

Definition rPerPeriod : float :=
  if (0 <? payPeriodsPerYear inp)%float
  then (Math_pow (1 + rAnnual) (1 / payPeriodsPerYear inp) - 1)%float
  else 0%float.

Definition keepAll : bool :=
  negb (Number_isFinite (maxPoints inp)) || (maxPoints inp <=? 0)%float.

Definition sampleStep : float :=
  if keepAll then 1%float
  else Math_max 1 (Math_ceil (totalPeriodsOf / maxPoints inp)).

(** The windfall test of the loop at period [i]. *)
Definition windfallHits (i : Z) : bool :=
  Number_isFinite (windfallAmount inp)
  && (0 <? windfallAmount inp)%float
  && match windfallAtPeriod inp with
     | Some p => strictEqZ p i
     | None => false
     end.

(** The sampling test of the loop at period [i]. *)
Definition keepsPoint (i : Z) : bool :=
  keepAll || remIsZero i sampleStep || strictEqZ totalPeriodsOf i.

Definition initialPoint : ProjectionPoint :=
  {| periodIndex := 0;
     yearIndex := 0;
     balance := startingAmount inp;
     totalContrib := 0;
     interestEarned := (startingAmount inp - startingAmount inp - 0)%float;
     interestThisPeriod := None |}.

(** One turn of the loop, at period [i]. *)
Definition period (i : Z) (v : LoopVars) : LoopVars :=
  let balance1 :=
    if windfallHits i then (var_balance v + windfallAmount inp)%float
    else var_balance v in
  let totalContrib1 :=
    if windfallHits i then (var_totalContrib v + windfallAmount inp)%float
    else var_totalContrib v in
  let balance2 := (balance1 + contributionPerPayday inp)%float in
  let totalContrib2 := (totalContrib1 + contributionPerPayday inp)%float in
  let beforeInterest := balance2 in
  let balance3 := (balance2 * (1 + rPerPeriod))%float in
  let interest := (balance3 - beforeInterest)%float in
  let point :=
    {| periodIndex := i;
       yearIndex := (Z2F i / payPeriodsPerYear inp)%float;
       balance := balance3;
       totalContrib := totalContrib2;
       interestEarned := (balance3 - startingAmount inp - totalContrib2)%float;
       interestThisPeriod := Some interest |} in
  {| var_balance := balance3;
     var_totalContrib := totalContrib2;
     var_points :=
       if keepsPoint i then var_points v ++ [point] else var_points v |}.

(** [n] turns of the loop from period [i] on. *)
Fixpoint periods (n : nat) (i : Z) (v : LoopVars) : LoopVars :=
  match n with
  | O => v
  | S n' => periods n' (i + 1) (period i v)
  end.

Definition initialVars : LoopVars :=
  {| var_balance := startingAmount inp;
     var_totalContrib := 0;
     var_points := [initialPoint] |}.

Definition resultOf (v : LoopVars) : ProjectionResult :=
  {| years := yearsOf;
     totalPeriods := totalPeriodsOf;
     finalBalance := var_balance v;
     finalContrib := var_totalContrib v;
     finalInterest :=
       (var_balance v - startingAmount inp - var_totalContrib v)%float;
     points := var_points v |}.

(** [computeProjection]; [None] when the loop has no end. *)
Definition computeProjection : option ProjectionResult :=
  match forCount 1 totalPeriodsOf with
  | Some n => Some (resultOf (periods n 1 initialVars))
  | None => None
  end.

End Projection.

(** The same input with another windfall amount. *)
Definition withWindfallAmount (inp : ProjectionInput) (a : float)
  : ProjectionInput :=
  {| currentAge := currentAge inp;
     retirementAge := retirementAge inp;
     startingAmount := startingAmount inp;
     contributionPerPayday := contributionPerPayday inp;
     annualRatePct := annualRatePct inp;
     payPeriodsPerYear := payPeriodsPerYear inp;
     windfallAmount := a;
     windfallAtPeriod := windfallAtPeriod inp;
     maxPoints := maxPoints inp |}.

(** ** Ticks ([niceStep], [niceCeil], [pickTicks], [makeLogTicks],
       lines 117-173) *)

(** The mantissa snap shared by [niceStep], [niceCeil] and [niceRoundUp]:
    [scaled <= 1 ? 1 : scaled <= 2 ? 2 : scaled <= 5 ? 5 : 10]. *)
Definition nice (scaled : float) : float :=
  if (scaled <=? 1)%float then 1%float
  else if (scaled <=? 2)%float then 2%float
  else if (scaled <=? 5)%float then 5%float
  else 10%float.

Definition niceStep (span targetTicks : float) : float :=
  if negb (Number_isFinite span) || (span <=? 0)%float then 1%float
  else
    let raw := (span / Math_max 1 targetTicks)%float in
    let pow := Math_pow 10 (Math_floor (Math_log10 raw)) in
    let scaled := (raw / pow)%float in
    (nice scaled * pow)%float.

Definition niceCeil (n : float) : float :=
  if negb (Number_isFinite n) || (n <=? 0)%float then 1%float
  else
    let pow := Math_pow 10 (Math_floor (Math_log10 n)) in
    let scaled := (n / pow)%float in
    (nice scaled * pow)%float.

(** [for (let v = 0; v <= bound; v += step) ticks.push(v)], with [fuel]
    bounding the number of turns; [None] when the fuel runs out. *)
Fixpoint tickLoop (fuel : nat) (v bound step : float) (ticks : list float)
  : option (list float) :=
  match fuel with
  | O => None
  | S fuel' =>
      if (v <=? bound)%float
      then tickLoop fuel' (v + step)%float bound step (ticks ++ [v])
      else Some ticks
  end.

Definition pickTicks (fuel : nat) (min max targetTicks : float)
  : option (list float) :=
  if negb (Number_isFinite min) || negb (Number_isFinite max)
     || (max <=? min)%float
  then Some []
  else
    let span := (max - min)%float in
    let step := niceStep span targetTicks in
    let niceMax := Math_max step (niceCeil max) in
    tickLoop fuel 0%float (niceMax + step / 2)%float step [].

(** The ticks pushed at power [p]: [b * 10^p] for [b] in [1, 2, 5], when not
    above [m]. *)
Definition ticksAtPower (m : float) (p : Z) : list float :=
  let pow := Math_pow 10 (Z2F p) in
  filter (fun v => (v <=? m)%float)
         (map (fun b => (b * pow)%float) [1; 2; 5]%float).

Fixpoint powerLoop (n : nat) (p : Z) (m : float) (ticks : list float)
  : list float :=
  match n with
  | O => ticks
  | S n' => powerLoop n' (p + 1) m (ticks ++ ticksAtPower m p)
  end.

(** [Array.from(new Set(ticks))]: first occurrences, in insertion order, up
    to SameValueZero. *)
Definition sameValueZero (a b : float) : bool :=
  (a =? b)%float || (isNaN a && isNaN b).

Fixpoint dedupe (seen l : list float) : list float :=
  match l with
  | [] => []
  | x :: t =>
      if existsb (sameValueZero x) seen then dedupe seen t
      else x :: dedupe (x :: seen) t
  end.

(** [.sort((a, b) => a - b)], as a stable insertion sort. *)
Fixpoint insertTick (x : float) (l : list float) : list float :=
  match l with
  | [] => [x]
  | y :: t => if (x - y <? 0)%float then x :: y :: t else y :: insertTick x t
  end.

Definition sortTicks (l : list float) : list float :=
  fold_left (fun sorted x => insertTick x sorted) l [].

(** The thinning of [makeLogTicks]: [0], the entries at the odd indices
    [1 .. length - 2], and the last entry. *)
Definition thinTicks (uniq : list float) : list float :=
  [0%float]
  ++ flat_map (fun i => if Nat.odd i then [nth i uniq 0%float] else [])
              (seq 1 (List.length uniq - 2))
  ++ [last uniq 0%float].

Definition makeLogTicks (max : float) : option (list float) :=
  let m := Math_max 1 (orElse max 1) in
  let maxPow := Math_floor (Math_log10 m) in
  match forCount 0 maxPow with
  | None => None
  | Some n =>
      let ticks := powerLoop n 0 m [0%float] in
      let ticks :=
        if negb (last ticks 0 =? m)%float then ticks ++ [m] else ticks in
      let uniq := sortTicks (dedupe [] ticks) in
      if (List.length uniq <=? 7)%nat then Some uniq else Some (thinTicks uniq)
  end.

End Host.

(** ** The windfall scheduler ([clampInt], [windfallPeriodFromChoice],
       lines 776-807) *)

Definition clampInt (n min max : float) : float :=
  let v := Math_round n in
  if negb (Number_isFinite v) then min else Math_min max (Math_max min v).

(** The argument of [windfallPeriodFromChoice]; the three [at...] fields
    hold the numbers that [Number(...)] reads from the form's fields. *)
Record WindfallChoice := {
  when : string;
  atYear : float;
  atAge : float;
  atPayday : float;
  wf_currentAge : float;
  wf_payPeriodsPerYear : float;
  wf_totalPeriods : float
}.

Definition windfallPeriodFromChoice (c : WindfallChoice) : option float :=
  if String.eqb (when c) EmptyString then None
  else if String.eqb (when c) "none" then None
  else if String.eqb (when c) "now" then Some 1%float
  else if String.eqb (when c) "year" then
    let y := clampInt (atYear c) 1 80 in
    Some (clampInt (y * wf_payPeriodsPerYear c) 1 (wf_totalPeriods c))
  else if String.eqb (when c) "age" then
    let targetAge :=
      clampInt (atAge c) (wf_currentAge c) (wf_currentAge c + 80) in
    let yearsFromNow := Math_max 0 (targetAge - wf_currentAge c) in
    Some (clampInt (yearsFromNow * wf_payPeriodsPerYear c) 1
                   (wf_totalPeriods c))
  else if String.eqb (when c) "payday" then
    Some (clampInt (atPayday c) 1 (wf_totalPeriods c))
  else None.

(** ** The easing of the chart's vertical extent (lines 1237-1257) *)

(** The state the effect reads and writes: [yMaxDisplay] and the ref
    [lastScaleResetToken]. *)
Record ScaleState := {
  yMaxDisplay : float;
  lastScaleResetToken : Z
}.

Definition initialScale : ScaleState :=
  {| yMaxDisplay := 0; lastScaleResetToken := 0 |}.

(** The updater passed to [setYMaxDisplay], with the write to the ref. *)
Definition easeYMax (st : ScaleState) (computedYMax : float)
  (scaleResetToken : Z) : ScaleState :=
  let prev := yMaxDisplay st in
  if negb (lastScaleResetToken st =? scaleResetToken) then
    {| yMaxDisplay := computedYMax; lastScaleResetToken := scaleResetToken |}
  else
    {| yMaxDisplay :=
         if negb (truthy prev) then computedYMax
         else if (prev <=? computedYMax)%float then computedYMax
         else if (computedYMax <? prev * 0.75)%float
              then Math_max computedYMax (prev * 0.96)
         else if (computedYMax <? prev)%float
              then Math_max computedYMax (prev * 0.985)
         else prev;
       lastScaleResetToken := lastScaleResetToken st |}.

(** ** The pay frequencies (lines 4-9) and the memos of [App] that call the
       simulator (lines 1130-1190) *)

Record PayFrequency := {
  key : string;
  label : string;
  pf_periods : float   (* the field [periods] *)
}.

Definition PAY_FREQUENCIES : list PayFrequency :=
  [ {| key := "daily"; label := "Daily (365)"; pf_periods := 365 |};
    {| key := "weekly"; label := "Weekly (52)"; pf_periods := 52 |};
    {| key := "biweekly"; label := "Biweekly (26)"; pf_periods := 26 |};
    {| key := "monthly"; label := "Monthly (12)"; pf_periods := 12 |} ].

(** The memo [payPeriodsPerYear]:
    [PAY_FREQUENCIES.find((f) => f.key === frequencyKey)?.periods ?? 12]. *)
Definition payPeriodsPerYearOf (frequencyKey : string) : float :=
  match find (fun f => String.eqb (key f) frequencyKey) PAY_FREQUENCIES with
  | Some f => pf_periods f
  | None => 12%float
  end.

(** What the memos read from the state of the form.  The fields that the
    code passes through [parseNum] hold the parsed number; the three
    [windfallAt...] fields, which [clampInt] passes through [Number], hold
    that number. *)
Record Form := {
  form_currentAge : float;
  form_retirementAge : float;
  form_startingAmount : float;
  form_contributionPerPayday : float;
  form_annualRatePct : float;
  form_frequencyKey : string;
  form_windfallAmount : float;
  form_windfallWhen : string;
  form_windfallAtYear : float;
  form_windfallAtAge : float;
  form_windfallAtPayday : float
}.

(** The period that both memos compute for the windfall, from a horizon
    of their own. *)
Definition scheduledPeriod (f : Form) : option float :=
  let payPeriodsPerYear := payPeriodsPerYearOf (form_frequencyKey f) in
  let years := Math_max 0 (form_retirementAge f - form_currentAge f) in
  let totalPeriods := Math_max 0 (Math_round (years * payPeriodsPerYear)) in
  windfallPeriodFromChoice
    {| when := form_windfallWhen f;
       atYear := form_windfallAtYear f;
       atAge := form_windfallAtAge f;
       atPayday := form_windfallAtPayday f;
       wf_currentAge := clampInt (form_currentAge f) 0 120;
       wf_payPeriodsPerYear := payPeriodsPerYear;
       wf_totalPeriods := totalPeriods |}.

(** The argument both memos pass to [computeProjection], at the rate [r]. *)
Definition projectionInputAt (f : Form) (r : float) : ProjectionInput :=
  {| currentAge := form_currentAge f;
     retirementAge := form_retirementAge f;
     startingAmount := form_startingAmount f;
     contributionPerPayday := form_contributionPerPayday f;
     annualRatePct := r;
     payPeriodsPerYear := payPeriodsPerYearOf (form_frequencyKey f);
     windfallAmount := form_windfallAmount f;
     windfallAtPeriod := scheduledPeriod f;
     maxPoints := 240 |}.

(** The rates of the memo [projectionCompare] (lines 1174-1176). *)
Definition compareRates (f : Form) : list float :=
  let base := clamp (form_annualRatePct f) 1 15 in
  [clamp (base - 2) 1 15; base; clamp (base + 2) 1 15].

(** ** The geometry of [LineChart] (lines 245-352) *)

(** A point [{x, y}] of a series. *)
Record SeriesPoint := { point_x : float; point_y : float }.

(** The constants of the drawing (lines 263-268 and 279). *)
Module Chart.

Definition W : float := 920.
Definition H : float := 360.
Definition padL : float := 56.
Definition padR : float := 20.
Definition padT : float := 18.
Definition padB : float := 42.
Definition yMin : float := 0.

End Chart.

(** [series.filter((p) => Number.isFinite(p?.x) && Number.isFinite(p?.y))]
    on an array of points. *)
Definition safeSeries (series : list SeriesPoint) : list SeriesPoint :=
  filter (fun p => Number_isFinite (point_x p) && Number_isFinite (point_y p))
         series.

(** [Math.max(...l)]: [-Infinity] for no argument, NaN if any is NaN. *)
Definition Math_max_of (l : list float) : float :=
  fold_left Math_max l neg_infinity.

(** [yMaxMoney]: the override when it is finite, else the largest of 1 and
    the values of the two filtered series. *)
Definition yMaxMoneyOf (yMaxOverride : float)
  (series contribSeries : list SeriesPoint) : float :=
  let ys := map point_y (safeSeries series) in
  let contribYs := map point_y (safeSeries contribSeries) in
  let computedMax := Math_max_of (1%float :: ys ++ contribYs) in
  if Number_isFinite yMaxOverride then Math_max 1 yMaxOverride
  else computedMax.

Definition xToPx (xMin xMax x : float) : float :=
  let t := if (xMax =? xMin)%float then 0%float
           else ((x - xMin) / (xMax - xMin))%float in
  (Chart.padL + t * (Chart.W - Chart.padL - Chart.padR))%float.

Section HostChart.

Variable Math_log10 : float -> float.

(** [logT], lines 175-179. *)
Definition logT (y : float) : float :=
  let v := Math_max 0 (orElse y 0) in
  Math_log10 (v + 1)%float.

Definition yToPx (useLog : bool) (yMaxMoney y : float) : float :=
  if useLog then
    let denom := orElse (logT yMaxMoney) 1 in
    let t := if (denom =? 0)%float then 0%float
             else (logT y / denom)%float in
    (Chart.H - Chart.padB - t * (Chart.H - Chart.padT - Chart.padB))%float
  else
    let t := if (yMaxMoney =? Chart.yMin)%float then 0%float
             else ((y - Chart.yMin) / (yMaxMoney - Chart.yMin))%float in
    (Chart.H - Chart.padB - t * (Chart.H - Chart.padT - Chart.padB))%float.

End HostChart.

(** The index of the point under the pointer (handler [onMouseMove],
    lines 330-339), for a pointer at [x] in an element [width] wide over a
    series of [len] points. *)
Definition hoverIndex (x width : float) (len : Z) : float :=
  let innerX := Math_max 56 (Math_min (920 - 20) (x / width * 920)) in
  let t := ((innerX - 56) / (920 - 56 - 20))%float in
  let idx := Math_round (t * (Z2F len - 1)) in
  Math_max 0 (Math_min (Z2F len - 1) idx).

(** ** The bars of [Breakdown] (lines 715-736) *)

Definition breakdownTotal (finalContrib finalInterest : float) : float :=
  Math_max 0 (orElse finalContrib 0 + orElse finalInterest 0).

(** The percentage behind a bar and the width given to it. *)
Definition breakdownPct (part total : float) : float :=
  if truthy total then (part / total * 100)%float else 0%float.

Definition barWidth (pct : float) : float :=
  Math_max 0 (Math_min 100 pct).

Definition contribBarWidth (finalContrib finalInterest : float) : float :=
  barWidth (breakdownPct finalContrib
              (breakdownTotal finalContrib finalInterest)).

Definition growthBarWidth (finalContrib finalInterest : float) : float :=
  barWidth (breakdownPct finalInterest
              (breakdownTotal finalContrib finalInterest)).

(** ** Predicates of the statements and the proofs *)

(** *** On views of numbers *)

(** [signed s x]: the view [x] is not NaN and has sign [s]. *)
Definition signed (s : bool) (x : spec_float) : Prop :=
  match x with
  | S754_nan => False
  | S754_zero s' | S754_infinity s' | S754_finite s' _ _ => s' = s
  end.

(** Non-negative views: zeros of either sign, positive numbers and
    [+Infinity]. *)
Definition nonneg (x : spec_float) : bool :=
  match x with
  | S754_nan => false
  | S754_zero _ => true
  | S754_infinity s | S754_finite s _ _ => negb s
  end.

(** The value of a finite view times 2^1074: an integer for every valid
    view. *)
Definition scaled (x : spec_float) : option Z :=
  match x with
  | S754_zero _ => Some 0
  | S754_finite s m e => Some (cond_Zopp s (Zpos m * 2 ^ (e + 1074)))
  | _ => None
  end.

(** The sign of a view ([false] for NaN). *)
Definition SFsign (x : spec_float) : bool :=
  match x with
  | S754_zero s | S754_infinity s | S754_finite s _ _ => s
  | S754_nan => false
  end.

(** Views that are NaN, a zero or negative. *)
Definition notPositive (x : spec_float) : bool :=
  match x with
  | S754_nan | S754_zero _ => true
  | S754_infinity s | S754_finite s _ _ => s
  end.

(** *** On rounding *)

(** The outcome of rounding the magnitude [m1 * 2^e1] with sign [s]: a zero,
    a finite number of that value, or an infinity when the value reaches
    2^1024. *)
Definition roundsTo (r : spec_float) (s : bool) (m1 e1 : Z) : Prop :=
  (m1 = 0 /\ r = S754_zero s)
  \/ (exists m e2,
        r = S754_finite s m e2 /\ e1 <= e2 /\ Zpos m * 2 ^ (e2 - e1) = m1)
  \/ (r = S754_infinity s /\ 2 ^ 2098 <= m1 * 2 ^ (e1 + 1074)).

(** A rounded result is at most, or at least, the scaled value [k]. *)
Definition atMost (r : spec_float) (k : Z) : Prop :=
  r = S754_infinity true \/ exists z, scaled r = Some z /\ z <= k.

Definition atLeast (r : spec_float) (k : Z) : Prop :=
  r = S754_infinity false \/ exists z, scaled r = Some z /\ k <= z.

(** *** On the simulator *)

(** The periods [i, i+1, ..., i+n-1], in the order the loop visits them. *)
Fixpoint zrange (i : Z) (n : nat) : list Z :=
  match n with
  | O => []
  | S n' => i :: zrange (i + 1) n'
  end.

(** Every recorded point carries the difference computed in the order
    balance, starting amount, contributions. *)
Definition pointBalanced (inp : ProjectionInput) (p : ProjectionPoint)
  : Prop :=
  interestEarned p
  = (balance p - startingAmount inp - totalContrib p)%float.

(** The four ways in which the windfall branch is dead. *)
Definition windfallIsDead (inp : ProjectionInput) : Prop :=
  windfallAtPeriod inp = None
  \/ (exists w, windfallAtPeriod inp = Some w
              /\ (Number_isFinite w = false
                  \/ (w <? 1)%float = true
                  \/ (totalPeriodsOf inp <? w)%float = true))
  \/ (windfallAmount inp <=? 0)%float = true
  \/ Number_isFinite (windfallAmount inp) = false.

(** [p] comes no later than [q] in contributed money. *)
Definition contribLe (p q : ProjectionPoint) : Prop :=
  (totalContrib p <=? totalContrib q)%float = true.

(** What the loop maintains: the running total is non-negative, bounds the
    total of every point recorded so far, and the points are in order. *)
Definition contribInvariant (v : LoopVars) : Prop :=
  nonneg (Prim2SF (var_totalContrib v)) = true
  /\ Forall (fun p => (totalContrib p <=? var_totalContrib v)%float = true)
            (var_points v)
  /\ StronglySorted contribLe (var_points v).

(** [p] comes no later than [q] in balance. *)
Definition balanceLe (p q : ProjectionPoint) : Prop :=
  (balance p <=? balance q)%float = true.

(** What the loop maintains when nothing is withdrawn and the rate is not
    negative: the balance is non-negative, at least the starting amount and
    the balance of every point recorded so far, and the points are in
    order. *)
Definition balanceInvariant (inp : ProjectionInput) (v : LoopVars) : Prop :=
  nonneg (Prim2SF (var_balance v)) = true
  /\ (startingAmount inp <=? var_balance v)%float = true
  /\ Forall (fun p => (balance p <=? var_balance v)%float = true)
            (var_points v)
  /\ StronglySorted balanceLe (var_points v).

(** The periods recorded in the result. *)
Definition recorded (inp : ProjectionInput) (N : Z) : list Z :=
  0 :: filter (keepsPoint inp) (zrange 1 (Z.to_nat N)).

(** The stride of a chart of 240 points over a horizon of [N] periods is an
    integer [s >= 1] with [N / s <= 240]. *)
Definition strideOK (N : Z) : bool :=
  match toZ (Math_max 1 (Math_ceil (Z2F N / 240))) with
  | Some s => (1 <=? s) && (N / s <=? 240)
  | None => false
  end.

(** *** On ticks *)

(** The bound [m] that [makeLogTicks] computes from its argument. *)
Definition logBound (max : float) : float := Math_max 1 (orElse max 1).

(** The counter of the loop of [pickTicks] is finite, or NaN, or an infinity
    that the step does not move. *)
Definition counterOK (v step : float) : Prop :=
  Number_isFinite v = true \/ isNaN v = true \/ (v + step)%float = v.

(** ** A sample of a host

    The values that [Math.pow] and [Math.log10] take at the arguments the
    worked examples below reach.  The language fixes [pow(x, NaN) = NaN],
    [pow(x, 0) = 1], [log10(1) = 0] and [log10(+Infinity) = +Infinity]; the
    sample takes [pow(1, y) = 1] for finite [y], [pow(10, k) = 10^k] for
    the integers [0 <= k <= 18] (which [Z2F] holds exactly), the doubles
    nearest to 10^307 and 10^308 for [pow(10, 307)] and [pow(10, 308)],
    [log10(1000000) = 6], and for [log10] at 5000, at 1.5e308 and at
    1.5e308 / 3 the doubles nearest to the logarithm, of which the examples
    use the integer parts 3, 308 and 307 only.  Outside the sample the
    functions answer NaN. *)

Definition sample_pow (x y : float) : float :=
  if isNaN y then nan
  else if negb (truthy y) then 1%float
  else if (x =? 1)%float then (if Number_isFinite y then 1%float else nan)
  else if (x =? 10)%float then
    match toZ y with
    | Some k =>
        if (0 <=? k) && (k <=? 18) then Z2F (10 ^ k)
        else if k =? 307 then 0x1.c7b1f3cac7433p+1019%float
        else if k =? 308 then 0x1.1ccf385ebc8a0p+1023%float
        else nan
    | None => nan
    end
  else nan.

Definition sample_log10 (x : float) : float :=
  if (x =? infinity)%float then infinity
  else if (x =? 1)%float then 0%float
  else if (x =? 5000)%float then 0x1.d977d95ec10c0p+1%float
  else if (x =? 1000000)%float then 6%float
  else if (x =? 0x1.ab36d48e1acf0p+1023)%float
       then 0x1.342d145116c17p+8%float
  else if (x =? 0x1.1ccf385ebc8a0p+1022)%float
       then 0x1.33b2efb2bd822p+8%float
  else nan.

(** ** Worked inputs *)

(** One year of monthly paydays at no growth: 1000 to start, 100 a payday,
    every point kept. *)
Definition oneYearMonthly : ProjectionInput :=
  {| currentAge := 60;
     retirementAge := 61;
     startingAmount := 1000;
     contributionPerPayday := 100;
     annualRatePct := 0;
     payPeriodsPerYear := 12;
     windfallAmount := 0;
     windfallAtPeriod := None;
     maxPoints := 0 |}.

(** The same year with ten cents a payday. *)
Definition oneYearOfDimes : ProjectionInput :=
  {| currentAge := 60;
     retirementAge := 61;
     startingAmount := 1000;
     contributionPerPayday := 0.1;
     annualRatePct := 0;
     payPeriodsPerYear := 12;
     windfallAmount := 0;
     windfallAtPeriod := None;
     maxPoints := 0 |}.

(** The same year with 50 withdrawn each payday. *)
Definition oneYearOfWithdrawals : ProjectionInput :=
  {| currentAge := 60;
     retirementAge := 61;
     startingAmount := 1000;
     contributionPerPayday := -50;
     annualRatePct := 0;
     payPeriodsPerYear := 12;
     windfallAmount := 0;
     windfallAtPeriod := None;
     maxPoints := 0 |}.

(** Thirty years of biweekly paydays, sampled for a chart of 240 points. *)
Definition thirtyYearsBiweekly : ProjectionInput :=
  {| currentAge := 35;
     retirementAge := 65;
     startingAmount := 1000;
     contributionPerPayday := 100;
     annualRatePct := 0;
     payPeriodsPerYear := 26;
     windfallAmount := 0;
     windfallAtPeriod := None;
     maxPoints := 240 |}.

(** A year of monthly paydays with a windfall of 500 scheduled at payday 40,
    past the end of the year. *)
Definition lateWindfall : ProjectionInput :=
  {| currentAge := 60;
     retirementAge := 61;
     startingAmount := 1000;
     contributionPerPayday := 100;
     annualRatePct := 0;
     payPeriodsPerYear := 12;
     windfallAmount := 500;
     windfallAtPeriod := Some 40%float;
     maxPoints := 0 |}.

(** Thirty-five years at a pay frequency of zero. *)
Definition noPaydays : ProjectionInput :=
  {| currentAge := 30;
     retirementAge := 65;
     startingAmount := 1000;
     contributionPerPayday := 50;
     annualRatePct := 7;
     payPeriodsPerYear := 0;
     windfallAmount := 0;
     windfallAtPeriod := None;
     maxPoints := 240 |}.

(** The scheduler asked for the next payday when no payday is left. *)
Definition nowWithNoPeriods : WindfallChoice :=
  {| when := "now";
     atYear := 1;
     atAge := 45;
     atPayday := 1;
     wf_currentAge := 65;
     wf_payPeriodsPerYear := 26;
     wf_totalPeriods := 0 |}.

(** The scheduler asked for year 3 of 35 years of biweekly paydays. *)
Definition yearThreeOfThirtyFive : WindfallChoice :=
  {| when := "year";
     atYear := 3;
     atAge := 45;
     atPayday := 1;
     wf_currentAge := 30;
     wf_payPeriodsPerYear := 26;
     wf_totalPeriods := 910 |}.

(** The form of a 30-year-old saving every other week to 65, with a bonus
    of 500 asked for in year 3. *)
Definition bonusInYearThree : Form :=
  {| form_currentAge := 30;
     form_retirementAge := 65;
     form_startingAmount := 1000;
     form_contributionPerPayday := 50;
     form_annualRatePct := 7;
     form_frequencyKey := "biweekly";
     form_windfallAmount := 500;
     form_windfallWhen := "year";
     form_windfallAtYear := 3;
     form_windfallAtAge := 45;
     form_windfallAtPayday := 1 |}.

(** * Facts about binary64 arithmetic

    Every lemma below is about the IEEE view [Prim2SF] of a number and the
    specification of the operation on views. *)

(** ** Comparisons *)

Lemma SFcompare_refl x : x <> S754_nan -> SFcompare x x = Some Eq.
Proof.
  destruct x as [s|s| |s m e]; simpl; intros H; try congruence.
  - destruct s; reflexivity.
  - rewrite Z.compare_refl. change (Pos.compare_cont Eq m m) with (Pos.compare m m).
    rewrite Pos.compare_refl. destruct s; reflexivity.
Qed.

Lemma SFcompare_antisym x y :
  SFcompare y x = option_map CompOpp (SFcompare x y).
Proof.
  destruct x as [s1|s1| |s1 m1 e1], y as [s2|s2| |s2 m2 e2]; simpl;
    try reflexivity; try (destruct s1; reflexivity); try (destruct s2; reflexivity);
    try (destruct s1, s2; reflexivity).
  change (Pos.compare_cont Eq m1 m2) with (Pos.compare m1 m2).
  change (Pos.compare_cont Eq m2 m1) with (Pos.compare m2 m1).
  rewrite (Z.compare_antisym e1 e2), (Pos.compare_antisym m1 m2).
  destruct s1, s2; simpl; try reflexivity;
    destruct (e1 ?= e2); simpl; try reflexivity;
    destruct (m1 ?= m2)%positive; reflexivity.
Qed.

Lemma SFcompare_some x y :
  x <> S754_nan -> y <> S754_nan -> exists c, SFcompare x y = Some c.
Proof. destruct x, y; simpl; intros; try congruence; eexists; reflexivity. Qed.

Lemma SFltb_leb x y : SFltb x y = true -> SFleb x y = true.
Proof. unfold SFltb, SFleb. destruct (SFcompare x y) as [[]|]; congruence. Qed.

Lemma SFltb_irrefl x : SFltb x x = false.
Proof.
  destruct x as [s|s| |s m e]; try reflexivity;
    unfold SFltb; rewrite SFcompare_refl; congruence.
Qed.

Lemma SFleb_refl x : x <> S754_nan -> SFleb x x = true.
Proof. intros H. unfold SFleb. now rewrite SFcompare_refl. Qed.

Lemma SFleb_total x y :
  x <> S754_nan -> y <> S754_nan -> SFltb x y = false -> SFleb y x = true.
Proof.
  intros Hx Hy. unfold SFltb, SFleb. rewrite (SFcompare_antisym x y).
  destruct (SFcompare_some x y Hx Hy) as [[] ->]; simpl; congruence.
Qed.

Lemma SFleb_not_ltb x y : SFleb x y = true -> SFltb y x = false.
Proof.
  unfold SFltb, SFleb. rewrite (SFcompare_antisym x y).
  destruct (SFcompare x y) as [[]|]; simpl; congruence.
Qed.

Lemma SFltb_not_leb x y : SFltb x y = true -> SFleb y x = false.
Proof.
  unfold SFltb, SFleb. rewrite (SFcompare_antisym x y).
  destruct (SFcompare x y) as [[]|]; simpl; congruence.
Qed.

Lemma SFleb_trans x y z :
  SFleb x y = true -> SFleb y z = true -> SFleb x z = true.
Proof.
  unfold SFleb.
  destruct x as [s1|s1| |s1 m1 e1], y as [s2|s2| |s2 m2 e2],
           z as [s3|s3| |s3 m3 e3]; simpl; try congruence;
    try (destruct s1; simpl; congruence);
    try (destruct s2; simpl; congruence);
    try (destruct s3; simpl; congruence);
    try (destruct s1, s2; simpl; congruence);
    try (destruct s1, s3; simpl; congruence);
    try (destruct s2, s3; simpl; congruence);
    try (destruct s1, s2, s3; simpl; congruence).
  change (Pos.compare_cont Eq m1 m2) with (Pos.compare m1 m2).
  change (Pos.compare_cont Eq m2 m3) with (Pos.compare m2 m3).
  change (Pos.compare_cont Eq m1 m3) with (Pos.compare m1 m3).
  destruct s1, s2, s3; try congruence;
    destruct (Z.compare_spec e1 e2), (Z.compare_spec e2 e3), (Z.compare_spec e1 e3);
    try congruence; try lia;
    destruct (Pos.compare_spec m1 m2), (Pos.compare_spec m2 m3), (Pos.compare_spec m1 m3);
    simpl; try congruence; try lia.
Qed.

Lemma SFleb_nan_l y : SFleb S754_nan y = false.
Proof. reflexivity. Qed.

Lemma SFleb_nan_r x : SFleb x S754_nan = false.
Proof. destruct x; reflexivity. Qed.

Lemma SFltb_nan_r x : SFltb x S754_nan = false.
Proof. destruct x; reflexivity. Qed.

(** ** Rounding *)

Lemma iter_pos_nat {A} (f : A -> A) p x :
  iter_pos f p x = Nat.iter (Pos.to_nat p) f x.
Proof.
  revert x. induction p as [p IH|p IH|]; intros x.
  - change (iter_pos f p~1 x) with (iter_pos f p (iter_pos f p (f x))).
    rewrite !IH, <- Nat.iter_add, <- Nat.iter_succ_r.
    f_equal. lia.
  - change (iter_pos f p~0 x) with (iter_pos f p (iter_pos f p x)).
    rewrite !IH, <- Nat.iter_add. f_equal. lia.
  - reflexivity.
Qed.

Lemma pow2_pos k : 0 <= k -> 0 < 2 ^ k.
Proof. intros. apply Z.pow_pos_nonneg; lia. Qed.

Lemma shr_1_m r : 0 <= shr_m r -> shr_m (shr_1 r) = shr_m r / 2.
Proof.
  destruct r as [m rb sb]. simpl. intros H.
  destruct m as [|[p|p|]|p]; simpl; try reflexivity; try lia.
  - rewrite Pos2Z.inj_xI. apply Z.div_unique with 1; lia.
  - rewrite Pos2Z.inj_xO. apply Z.div_unique with 0; lia.
Qed.

Lemma shr_m_iter p r :
  0 <= shr_m r -> shr_m (iter_pos shr_1 p r) = shr_m r / 2 ^ Zpos p.
Proof.
  intros H. rewrite iter_pos_nat. rewrite <- (positive_nat_Z p).
  induction (Pos.to_nat p) as [|n IH].
  - change (Z.of_nat 0) with 0. rewrite Z.pow_0_r, Z.div_1_r. reflexivity.
  - rewrite Nat2Z.inj_succ, Z.pow_succ_r by lia. simpl Nat.iter.
    assert (0 <= shr_m (Nat.iter n shr_1 r)).
    { rewrite IH. apply Z.div_pos; [lia|]. apply pow2_pos; lia. }
    rewrite shr_1_m by assumption. rewrite IH.
    rewrite Z.div_div; [f_equal; lia | ..]; try lia; try (apply pow2_pos; lia).
Qed.

Lemma shr_record_of_loc_m m l : shr_m (shr_record_of_loc m l) = m.
Proof. destruct l as [|[]]; reflexivity. Qed.

Lemma shr_spec r e n :
  0 <= shr_m r ->
  shr_m (fst (shr r e n)) = shr_m r / 2 ^ Z.max 0 n
  /\ snd (shr r e n) = e + Z.max 0 n.
Proof.
  intros H. destruct n as [|p|p]; unfold shr, fst, snd.
  - change (Z.max 0 0) with 0. rewrite Z.pow_0_r, Z.div_1_r. split; [reflexivity|lia].
  - rewrite Z.max_r by lia. split; [apply shr_m_iter; assumption| lia].
  - rewrite Z.max_l by lia. rewrite Z.pow_0_r, Z.div_1_r. split; [reflexivity|lia].
Qed.

Lemma round_nearest_even_bounds m l :
  m <= round_nearest_even m l <= m + 1.
Proof. destruct l as [|[]]; simpl; try lia. destruct (Z.even m); lia. Qed.

Lemma digits2_pos_bounds m :
  2 ^ (Zpos (digits2_pos m) - 1) <= Zpos m < 2 ^ Zpos (digits2_pos m).
Proof.
  induction m as [m IH|m IH|]; simpl digits2_pos.
  - rewrite Pos2Z.inj_succ, Pos2Z.inj_xI.
    replace (Z.succ (Zpos (digits2_pos m)) - 1)
      with (Z.succ (Zpos (digits2_pos m) - 1)) by lia.
    rewrite !Z.pow_succ_r by lia.
    set (a := 2 ^ (Zpos (digits2_pos m) - 1)) in *.
    set (b := 2 ^ Zpos (digits2_pos m)) in *. lia.
  - rewrite Pos2Z.inj_succ. change (Zpos m~0) with (2 * Zpos m).
    replace (Z.succ (Zpos (digits2_pos m)) - 1)
      with (Z.succ (Zpos (digits2_pos m) - 1)) by lia.
    rewrite !Z.pow_succ_r by lia.
    set (a := 2 ^ (Zpos (digits2_pos m) - 1)) in *.
    set (b := 2 ^ Zpos (digits2_pos m)) in *. lia.
  - simpl. lia.
Qed.

Lemma digits2_pos_mono m1 m2 :
  (m1 <= m2)%positive -> Zpos (digits2_pos m1) <= Zpos (digits2_pos m2).
Proof.
  intros H. destruct (digits2_pos_bounds m1) as [L1 _], (digits2_pos_bounds m2) as [_ U2].
  destruct (Z_le_gt_dec (Zpos (digits2_pos m1)) (Zpos (digits2_pos m2))) as [|G];
    [assumption|exfalso].
  assert (2 ^ Zpos (digits2_pos m2) <= 2 ^ (Zpos (digits2_pos m1) - 1))
    by (apply Z.pow_le_mono_r; lia).
  lia.
Qed.

Lemma digits2_pos_shift m d :
  0 <= d -> forall p, Zpos p = Zpos m * 2 ^ d ->
  Zpos (digits2_pos p) = Zpos (digits2_pos m) + d.
Proof.
  intros Hd p Hp.
  destruct (digits2_pos_bounds m) as [L U], (digits2_pos_bounds p) as [Lp Up].
  rewrite Hp in Lp, Up.
  set (dm := Zpos (digits2_pos m)) in *. set (dp := Zpos (digits2_pos p)) in *.
  assert (0 < dm) by (unfold dm; lia). assert (0 < dp) by (unfold dp; lia).
  assert (Hd2 : 0 < 2 ^ d) by (apply pow2_pos; lia).
  destruct (Z.lt_trichotomy dp (dm + d)) as [Hlt|[Heq|Hgt]];
    [exfalso| assumption | exfalso].
  - assert (2 ^ dp <= 2 ^ (dm - 1 + d)) by (apply Z.pow_le_mono_r; lia).
    rewrite Z.pow_add_r in H1 by lia. nia.
  - assert (2 ^ (dm + d) <= 2 ^ (dp - 1)) by (apply Z.pow_le_mono_r; lia).
    rewrite Z.pow_add_r in H1 by lia. nia.
Qed.

Lemma fexp64 k : fexp prec emax k = Z.max (k - 53) (-1074).
Proof. reflexivity. Qed.

Lemma shl_align_fst m e e' :
  e' <= e -> Zpos (fst (shl_align m e e')) = Zpos m * 2 ^ (e - e').
Proof.
  intros H. unfold shl_align. destruct (e' - e) as [|d|d] eqn:E; try lia.
  - replace (e - e') with 0 by lia. simpl fst. lia.
  - simpl fst. change (Pos.iter xO m d) with (shift_pos d m).
    rewrite shift_pos_correct, Z.pow_pos_fold.
    replace (e - e') with (Zpos d) by lia. lia.
Qed.

(** What a valid finite view says about its mantissa and exponent. *)
Lemma valid_finite s m e :
  valid_binary (S754_finite s m e) = true ->
  -1074 <= e <= 971 /\ Zpos m < 2 ^ 53 /\ (-1074 < e -> 2 ^ 52 <= Zpos m).
Proof.
  simpl. unfold bounded, canonical_mantissa. intros H.
  apply andb_prop in H. destruct H as [Hc Hb].
  apply Z.eqb_eq in Hc. apply Z.leb_le in Hb. rewrite fexp64 in Hc.
  change (emax - prec) with 971 in Hb.
  destruct (digits2_pos_bounds m) as [L U].
  split; [lia|]. split.
  - assert (2 ^ Zpos (digits2_pos m) <= 2 ^ 53) by (apply Z.pow_le_mono_r; lia). lia.
  - intros He. replace (Zpos (digits2_pos m) - 1) with 52 in L by lia. exact L.
Qed.

(** The sign of a rounded result: rounding a non-negative mantissa never
    gives NaN and keeps the sign it is given. *)
Lemma binary_round_aux_signed s M e l :
  0 <= M -> signed s (binary_round_aux prec emax s M e l).
Proof.
  intros HM. unfold binary_round_aux, shr_fexp.
  destruct (shr_spec (shr_record_of_loc M l) e
              (fexp prec emax (Zdigits2 M + e) - e)) as [Hm _].
  { rewrite shr_record_of_loc_m. exact HM. }
  rewrite shr_record_of_loc_m in Hm.
  destruct (shr _ e _) as [mrs' e']. simpl fst in Hm.
  set (m1 := round_nearest_even (shr_m mrs') (loc_of_shr_record mrs')).
  assert (Hm1 : 0 <= m1).
  { pose proof (round_nearest_even_bounds (shr_m mrs') (loc_of_shr_record mrs')).
    assert (0 <= shr_m mrs').
    { rewrite Hm. apply Z.div_pos; [lia|]. apply pow2_pos; lia. }
    unfold m1. lia. }
  destruct (shr_spec (shr_record_of_loc m1 loc_Exact) e'
              (fexp prec emax (Zdigits2 m1 + e') - e')) as [Hm2 _].
  { simpl. exact Hm1. }
  simpl shr_m in Hm2 at 2.
  destruct (shr _ e' _) as [mrs'' e'']. simpl fst in Hm2.
  assert (0 <= shr_m mrs'').
  { rewrite Hm2. apply Z.div_pos; [lia|]. apply pow2_pos; lia. }
  destruct (shr_m mrs'') as [|mf|mf]; try lia; [exact eq_refl|].
  destruct (e'' <=? emax - prec); exact eq_refl.
Qed.

(** Rounding a positive mantissa: the result is an infinity or a finite
    number whose exponent is at least the shifted one and whose mantissa,
    at that exponent, is at least the truncated one. *)
Lemma binary_round_aux_pos s (M : positive) e l :
  let n := Z.max 0 (fexp prec emax (Zpos (digits2_pos M) + e) - e) in
  let q := Zpos M / 2 ^ n in
  0 < q ->
  binary_round_aux prec emax s (Zpos M) e l = S754_infinity s \/
  exists mf ef,
    binary_round_aux prec emax s (Zpos M) e l = S754_finite s mf ef
    /\ e + n <= ef /\ (ef = e + n -> q <= Zpos mf).
Proof.
  intros n q Hq. unfold binary_round_aux, shr_fexp.
  change (Zdigits2 (Zpos M)) with (Zpos (digits2_pos M)).
  destruct (shr_spec (shr_record_of_loc (Zpos M) l) e
              (fexp prec emax (Zpos (digits2_pos M) + e) - e)) as [Hm He].
  { rewrite shr_record_of_loc_m. lia. }
  rewrite shr_record_of_loc_m in Hm. fold n in Hm, He. fold q in Hm.
  destruct (shr _ e _) as [mrs' e']. simpl fst in Hm. simpl snd in He. subst e'.
  set (m1 := round_nearest_even (shr_m mrs') (loc_of_shr_record mrs')).
  assert (Hm1 : q <= m1).
  { unfold m1. rewrite Hm. apply round_nearest_even_bounds. }
  assert (Hemin : -1074 <= e + n).
  { unfold n. rewrite fexp64. lia. }
  destruct (shr_spec (shr_record_of_loc m1 loc_Exact) (e + n)
              (fexp prec emax (Zdigits2 m1 + (e + n)) - (e + n))) as [Hm2 He2].
  { simpl. lia. }
  simpl shr_m in Hm2 at 2.
  destruct (shr _ (e + n) _) as [mrs'' e'']. simpl fst in Hm2. simpl snd in He2.
  set (n2 := Z.max 0 (fexp prec emax (Zdigits2 m1 + (e + n)) - (e + n))) in *.
  assert (Hmf : 0 < shr_m mrs'' /\ (n2 = 0 -> m1 <= shr_m mrs'')).
  { rewrite Hm2. destruct (Z.eq_dec n2 0) as [Hz|Hnz].
    - rewrite Hz, Z.pow_0_r, Z.div_1_r. lia.
    - split; [|lia].
      destruct m1 as [|p1|p1]; try lia.
      change (Zdigits2 (Zpos p1)) with (Zpos (digits2_pos p1)) in n2.
      assert (Hn2 : n2 = Zpos (digits2_pos p1) - 53).
      { unfold n2 in *. rewrite fexp64 in *. lia. }
      destruct (digits2_pos_bounds p1) as [L _].
      replace (Zpos (digits2_pos p1) - 1) with (52 + n2) in L by lia.
      rewrite Z.pow_add_r in L by lia.
      assert (0 < 2 ^ n2) by (apply pow2_pos; lia).
      assert (2 ^ 52 <= Zpos p1 / 2 ^ n2).
      { apply Z.div_le_lower_bound; lia. }
      assert (0 < 2 ^ 52) by (apply pow2_pos; lia). lia. }
  destruct Hmf as [Hpos Hsame].
  destruct (shr_m mrs'') as [|mf|mf]; try lia.
  destruct (e'' <=? emax - prec); [right|left; reflexivity].
  exists mf, e''. split; [reflexivity|]. split; [lia|].
  intros Heq. assert (n2 = 0) by lia. specialize (Hsame H). lia.
Qed.

(** ** Addition of non-negative numbers never goes down *)

Lemma SFadd_finite_pos m1 e1 m2 e2 :
  valid_binary (S754_finite false m1 e1) = true ->
  SFadd prec emax (S754_finite false m1 e1) (S754_finite false m2 e2)
    = S754_infinity false
  \/ exists mf ef,
    SFadd prec emax (S754_finite false m1 e1) (S754_finite false m2 e2)
      = S754_finite false mf ef
    /\ (e1 < ef \/ (ef = e1 /\ (m1 <= mf)%positive)).
Proof.
  intros Hv. unfold SFadd.
  set (ez := Z.min e1 e2).
  assert (Hzx : ez <= e1) by (unfold ez; lia).
  assert (Hzy : ez <= e2) by (unfold ez; lia).
  pose proof (shl_align_fst m1 e1 ez Hzx) as HX.
  pose proof (shl_align_fst m2 e2 ez Hzy) as HY.
  destruct (shl_align m1 e1 ez) as [m1' e1'], (shl_align m2 e2 ez) as [m2' e2'].
  simpl fst in *. unfold cond_Zopp.
  change (Zpos m1' + Zpos m2') with (Zpos (m1' + m2')).
  unfold binary_normalize, binary_round.
  set (M := (m1' + m2')%positive).
  assert (HM : Zpos M = Zpos m1 * 2 ^ (e1 - ez) + Zpos m2 * 2 ^ (e2 - ez)).
  { unfold M. rewrite Pos2Z.inj_add. lia. }
  assert (Hpx : 0 < 2 ^ (e1 - ez)) by (apply pow2_pos; lia).
  assert (Hpy : 0 < 2 ^ (e2 - ez)) by (apply pow2_pos; lia).
  simpl in Hv. unfold bounded, canonical_mantissa in Hv.
  apply andb_prop in Hv. destruct Hv as [Hc _]. apply Z.eqb_eq in Hc.
  rewrite fexp64 in Hc.
  assert (HdM : Zpos (digits2_pos m1) + (e1 - ez) <= Zpos (digits2_pos M)).
  { rewrite <- (digits2_pos_shift m1 (e1 - ez) ltac:(lia) m1' HX).
    apply digits2_pos_mono. lia. }
  set (er := fexp prec emax (Zpos (digits2_pos M) + ez)).
  assert (Her : e1 <= er) by (unfold er; rewrite fexp64; lia).
  assert (Hal : shl_align M ez er = (M, ez)).
  { unfold shl_align. destruct (er - ez) eqn:E; try reflexivity. lia. }
  rewrite Hal.
  pose proof (binary_round_aux_pos false M ez loc_Exact) as R.
  cbv zeta in R. fold er in R. rewrite (Z.max_r 0 (er - ez)) in R by lia.
  replace (ez + (er - ez)) with er in R by lia.
  assert (Hq : 0 < Zpos M / 2 ^ (er - ez)
               /\ (er = e1 -> Zpos m1 <= Zpos M / 2 ^ (er - ez))).
  { assert (0 < 2 ^ (er - ez)) by (apply pow2_pos; lia).
    destruct (Z.eq_dec er e1) as [Heq|Hne].
    - assert (Zpos m1 <= Zpos M / 2 ^ (er - ez)).
      { apply Z.div_le_lower_bound; [lia|]. rewrite Heq. nia. }
      lia.
    - split; [|lia].
      assert (Herv : er = Zpos (digits2_pos M) + ez - 53).
      { unfold er in *. rewrite fexp64 in *. lia. }
      destruct (digits2_pos_bounds M) as [L _].
      replace (Zpos (digits2_pos M) - 1) with (52 + (er - ez)) in L by lia.
      rewrite Z.pow_add_r in L by lia.
      assert (2 ^ 52 <= Zpos M / 2 ^ (er - ez)).
      { apply Z.div_le_lower_bound; lia. }
      assert (0 < 2 ^ 52) by (apply pow2_pos; lia). lia. }
  destruct Hq as [Hq Hqx].
  destruct (R Hq) as [Hinf|(mf & ef & Hr & Hef & Hmf)]; [left; assumption|right].
  exists mf, ef. split; [assumption|].
  destruct (Z.eq_dec ef e1) as [Heq|Hne]; [right|left; lia].
  split; [assumption|]. assert (er = e1) by lia.
  specialize (Hmf ltac:(lia)). specialize (Hqx H). lia.
Qed.

Lemma SFadd_nonneg x y :
  valid_binary x = true -> nonneg x = true -> nonneg y = true ->
  nonneg (SFadd prec emax x y) = true
  /\ SFleb x (SFadd prec emax x y) = true.
Proof.
  intros Hv Hx Hy.
  destruct x as [s1|s1| |s1 m1 e1]; try discriminate Hx;
    destruct y as [s2|s2| |s2 m2 e2]; try discriminate Hy;
    try (destruct s1; try discriminate Hx); try (destruct s2; try discriminate Hy);
    try (split; reflexivity).
  - split; [reflexivity|]. apply SFleb_refl. discriminate.
  - split; [reflexivity|]. apply SFleb_refl. discriminate.
  - destruct (SFadd_finite_pos m1 e1 m2 e2 Hv) as [->|(mf & ef & -> & H)].
    + split; reflexivity.
    + split; [reflexivity|]. unfold SFleb. simpl.
      change (Pos.compare_cont Eq m1 mf) with (Pos.compare m1 mf).
      destruct H as [H|[-> H]].
      * destruct (Z.compare_spec e1 ef); try lia; reflexivity.
      * rewrite Z.compare_refl.
        destruct (Pos.compare_spec m1 mf); try lia; reflexivity.
Qed.

(** ** Comparison and exact value

    Comparison of valid views is comparison of their scaled values. *)

Lemma scaled_exponent_lt m1 e1 m2 e2 s1 s2 :
  valid_binary (S754_finite s1 m1 e1) = true ->
  valid_binary (S754_finite s2 m2 e2) = true ->
  e1 < e2 ->
  Zpos m1 * 2 ^ (e1 + 1074) < Zpos m2 * 2 ^ (e2 + 1074).
Proof.
  intros H1 H2 Hlt.
  apply valid_finite in H1. apply valid_finite in H2.
  destruct H1 as (He1 & Hm1 & _), H2 as (He2 & _ & Hm2).
  specialize (Hm2 ltac:(lia)).
  replace (e2 + 1074) with ((e2 - e1 - 1) + 1 + (e1 + 1074)) by lia.
  rewrite (Z.pow_add_r 2 (e2 - e1 - 1 + 1) (e1 + 1074)) by lia.
  rewrite (Z.pow_add_r 2 (e2 - e1 - 1) 1) by lia.
  assert (0 < 2 ^ (e1 + 1074)) by (apply pow2_pos; lia).
  assert (0 < 2 ^ (e2 - e1 - 1)) by (apply pow2_pos; lia).
  change (2 ^ 1) with 2.
  change (2 ^ 53) with (2 * 2 ^ 52) in Hm1.
  set (P := 2 ^ (e1 + 1074)) in *. set (Q := 2 ^ (e2 - e1 - 1)) in *.
  set (T := 2 ^ 52) in *. clearbody P Q T.
  assert (Zpos m1 * P < 2 * T * P) by nia.
  assert (2 * T * P <= 2 * Zpos m2 * P) by nia.
  assert (2 * Zpos m2 * P <= Zpos m2 * (Q * 2 * P)) by nia.
  lia.
Qed.

Lemma scaled_zero s a : scaled (S754_zero s) = Some a -> a = 0.
Proof. intros [= <-]. reflexivity. Qed.

Lemma scaled_finite s m e a :
  scaled (S754_finite s m e) = Some a ->
  a = cond_Zopp s (Zpos m * 2 ^ (e + 1074)).
Proof. intros [= <-]. reflexivity. Qed.

Ltac hide_pow2 :=
  repeat match goal with
         | |- context [2 ^ ?k] =>
             let P := fresh "P" in set (P := 2 ^ k) in *; clearbody P
         end.

Lemma SFcompare_scaled x y a b :
  valid_binary x = true -> valid_binary y = true ->
  scaled x = Some a -> scaled y = Some b ->
  SFcompare x y = Some (a ?= b).
Proof.
  intros Hx Hy Ha Hb.
  destruct x as [s1|s1| |s1 m1 e1]; try discriminate Ha;
    destruct y as [s2|s2| |s2 m2 e2]; try discriminate Hb;
    try apply scaled_zero in Ha; try apply scaled_zero in Hb;
    try apply scaled_finite in Ha; try apply scaled_finite in Hb; subst a b;
    unfold SFcompare, cond_Zopp.
  - reflexivity.
  - pose proof (valid_finite _ _ _ Hy) as (He & _).
    assert (0 < 2 ^ (e2 + 1074)) by (apply pow2_pos; lia).
    f_equal. symmetry.
    destruct s2; [apply Z.compare_gt_iff|apply Z.compare_lt_iff]; hide_pow2; nia.
  - pose proof (valid_finite _ _ _ Hx) as (He & _).
    assert (0 < 2 ^ (e1 + 1074)) by (apply pow2_pos; lia).
    f_equal. symmetry.
    destruct s1; [apply Z.compare_lt_iff|apply Z.compare_gt_iff]; hide_pow2; nia.
  - pose proof (valid_finite _ _ _ Hx) as (He1 & _).
    pose proof (valid_finite _ _ _ Hy) as (He2 & _).
    assert (P1 : 0 < 2 ^ (e1 + 1074)) by (apply pow2_pos; lia).
    assert (P2 : 0 < 2 ^ (e2 + 1074)) by (apply pow2_pos; lia).
    change (Pos.compare_cont Eq m1 m2) with (Pos.compare m1 m2).
    f_equal. symmetry.
    destruct s1, s2.
    + destruct (Z.compare_spec e1 e2) as [->|Hlt|Hgt].
      * rewrite Pos2Z.inj_compare.
        destruct (Z.compare_spec (Zpos m1) (Zpos m2)); unfold CompOpp;
          [apply Z.compare_eq_iff|apply Z.compare_gt_iff|apply Z.compare_lt_iff]; hide_pow2; nia.
      * pose proof (scaled_exponent_lt _ _ _ _ _ _ Hx Hy Hlt).
        apply Z.compare_gt_iff. lia.
      * pose proof (scaled_exponent_lt _ _ _ _ _ _ Hy Hx ltac:(lia)).
        apply Z.compare_lt_iff. lia.
    + apply Z.compare_lt_iff. hide_pow2. nia.
    + apply Z.compare_gt_iff. hide_pow2. nia.
    + destruct (Z.compare_spec e1 e2) as [->|Hlt|Hgt].
      * rewrite Pos2Z.inj_compare.
        destruct (Z.compare_spec (Zpos m1) (Zpos m2));
          [apply Z.compare_eq_iff|apply Z.compare_lt_iff|apply Z.compare_gt_iff]; hide_pow2; nia.
      * pose proof (scaled_exponent_lt _ _ _ _ _ _ Hx Hy Hlt).
        apply Z.compare_lt_iff. lia.
      * pose proof (scaled_exponent_lt _ _ _ _ _ _ Hy Hx ltac:(lia)).
        apply Z.compare_gt_iff. lia.
Qed.

Lemma cond_Zopp_mul s a b : cond_Zopp s (a * b) = cond_Zopp s a * b.
Proof. destruct s; simpl; lia. Qed.

(** The floor of a valid finite view, from its scaled value. *)
Lemma shiftl_scaled s m e :
  -1074 <= e ->
  Z.shiftl (cond_Zopp s (Zpos m)) e
  = cond_Zopp s (Zpos m * 2 ^ (e + 1074)) / 2 ^ 1074.
Proof.
  intros He. rewrite cond_Zopp_mul. set (a := cond_Zopp s (Zpos m)).
  destruct (Z_le_gt_dec 0 e) as [Hp|Hn].
  - rewrite Z.shiftl_mul_pow2 by lia.
    rewrite Z.pow_add_r by lia. rewrite Z.mul_assoc.
    rewrite Z.div_mul; [reflexivity|]. apply Z.pow_nonzero; lia.
  - rewrite <- (Z.opp_involutive e) at 1. rewrite Z.shiftl_opp_r.
    rewrite Z.shiftr_div_pow2 by lia.
    assert (E : 2 ^ 1074 = 2 ^ (- e) * 2 ^ (e + 1074)).
    { rewrite <- Z.pow_add_r by lia. f_equal. lia. }
    rewrite E.
    rewrite Z.div_mul_cancel_r; [reflexivity| |]; apply Z.pow_nonzero; lia.
Qed.

Lemma floorZ_scaled x n :
  floorZ x = Some n ->
  exists a, scaled (Prim2SF x) = Some a /\ n = a / 2 ^ 1074.
Proof.
  unfold floorZ. pose proof (Prim2SF_valid x) as Hv.
  destruct (Prim2SF x) as [s|s| |s m e]; try discriminate.
  - intros [= <-]. exists 0. split; reflexivity.
  - intros [= <-]. eexists. split; [reflexivity|].
    apply shiftl_scaled. apply valid_finite in Hv. lia.
Qed.

Lemma toZ_scaled x z :
  toZ x = Some z -> scaled (Prim2SF x) = Some (z * 2 ^ 1074).
Proof.
  unfold toZ. pose proof (Prim2SF_valid x) as Hv.
  destruct (Prim2SF x) as [s|s| |s m e]; try discriminate.
  - intros [= <-]. reflexivity.
  - apply valid_finite in Hv. destruct Hv as (He & _).
    destruct ((0 <=? e) || (Zpos m mod 2 ^ (- e) =? 0)) eqn:C; [|discriminate].
    intros [= <-]. unfold scaled. f_equal.
    rewrite cond_Zopp_mul. set (a := cond_Zopp s (Zpos m)).
    destruct (Z_le_gt_dec 0 e) as [Hp|Hn].
    + rewrite Z.shiftl_mul_pow2 by lia. rewrite Z.pow_add_r by lia. lia.
    + apply orb_prop in C. destruct C as [C|C]; [apply Z.leb_le in C; lia|].
      apply Z.eqb_eq in C.
      rewrite <- (Z.opp_involutive e) at 2. rewrite Z.shiftl_opp_r.
      rewrite Z.shiftr_div_pow2 by lia.
      assert (Hp : 0 < 2 ^ (- e)) by (apply pow2_pos; lia).
      assert (Hd : a = 2 ^ (- e) * (a / 2 ^ (- e))).
      { apply Z.div_exact; [lia|]. unfold a. destruct s; simpl.
        - change (Zneg m) with (- Zpos m).
          apply Z.mod_opp_l_z; [lia|assumption].
        - assumption. }
      assert (E : 2 ^ 1074 = 2 ^ (- e) * 2 ^ (e + 1074)).
      { rewrite <- Z.pow_add_r by lia. f_equal. lia. }
      rewrite E. rewrite Hd at 1. lia.
Qed.

Lemma toZ_floorZ x z : toZ x = Some z -> floorZ x = Some z.
Proof.
  unfold toZ, floorZ. destruct (Prim2SF x); try discriminate; auto.
  destruct (_ || _); [auto|discriminate].
Qed.

(** ** Numbers: comparisons, [Math.max] and [Math.min] *)

Lemma isNaN_false x : isNaN x = false <-> Prim2SF x <> S754_nan.
Proof. unfold isNaN. destruct (Prim2SF x); split; congruence. Qed.

Lemma isNaN_true x : isNaN x = true <-> Prim2SF x = S754_nan.
Proof. unfold isNaN. destruct (Prim2SF x); split; congruence. Qed.

Lemma isNaN_nan x : isNaN x = true -> x = nan.
Proof. intros H. apply Prim2SF_inj. apply isNaN_true in H. rewrite H. reflexivity. Qed.

Lemma ltb_leb x y : (x <? y)%float = true -> (x <=? y)%float = true.
Proof. rewrite ltb_spec, leb_spec. apply SFltb_leb. Qed.

Lemma ltb_irrefl x : (x <? x)%float = false.
Proof. rewrite ltb_spec. apply SFltb_irrefl. Qed.

Lemma leb_refl x : isNaN x = false -> (x <=? x)%float = true.
Proof. rewrite leb_spec, isNaN_false. apply SFleb_refl. Qed.

Lemma leb_trans x y z :
  (x <=? y)%float = true -> (y <=? z)%float = true -> (x <=? z)%float = true.
Proof. rewrite !leb_spec. apply SFleb_trans. Qed.

Lemma leb_total x y :
  isNaN x = false -> isNaN y = false ->
  (x <? y)%float = false -> (y <=? x)%float = true.
Proof. rewrite ltb_spec, leb_spec, !isNaN_false. apply SFleb_total. Qed.

Lemma leb_not_ltb x y : (x <=? y)%float = true -> (y <? x)%float = false.
Proof. rewrite ltb_spec, leb_spec. apply SFleb_not_ltb. Qed.

Lemma ltb_not_leb x y : (x <? y)%float = true -> (y <=? x)%float = false.
Proof. rewrite ltb_spec, leb_spec. apply SFltb_not_leb. Qed.

Lemma leb_not_nan x y :
  (x <=? y)%float = true -> isNaN x = false /\ isNaN y = false.
Proof.
  rewrite leb_spec, !isNaN_false. unfold SFleb.
  destruct (Prim2SF x), (Prim2SF y); simpl; split; congruence.
Qed.

Lemma ltb_not_nan x y :
  (x <? y)%float = true -> isNaN x = false /\ isNaN y = false.
Proof. intros H. apply leb_not_nan. now apply ltb_leb. Qed.

Lemma Math_max_cases a b :
  isNaN a = false -> isNaN b = false ->
  (Math_max a b = a /\ (b <=? a)%float = true)
  \/ (Math_max a b = b /\ (a <=? b)%float = true).
Proof.
  intros Ha Hb. unfold Math_max. rewrite Ha, Hb. simpl.
  destruct (a <? b)%float eqn:L1.
  - right. split; [reflexivity|]. now apply ltb_leb.
  - destruct (b <? a)%float eqn:L2.
    + left. split; [reflexivity|]. now apply ltb_leb.
    + destruct (signbit a).
      * right. split; [reflexivity|]. now apply leb_total.
      * left. split; [reflexivity|]. now apply leb_total.
Qed.

Lemma Math_min_cases a b :
  isNaN a = false -> isNaN b = false ->
  (Math_min a b = a /\ (a <=? b)%float = true)
  \/ (Math_min a b = b /\ (b <=? a)%float = true).
Proof.
  intros Ha Hb. unfold Math_min. rewrite Ha, Hb. simpl.
  destruct (a <? b)%float eqn:L1.
  - left. split; [reflexivity|]. now apply ltb_leb.
  - destruct (b <? a)%float eqn:L2.
    + right. split; [reflexivity|]. now apply ltb_leb.
    + destruct (signbit a).
      * left. split; [reflexivity|]. now apply leb_total.
      * right. split; [reflexivity|]. now apply leb_total.
Qed.

Lemma Math_max_nan_l b : Math_max nan b = nan.
Proof. reflexivity. Qed.

Lemma Math_max_nan_r a : isNaN a = false -> Math_max a nan = nan.
Proof. intros H. unfold Math_max. rewrite H. reflexivity. Qed.

Lemma Math_max_ge_l a b :
  isNaN a = false -> isNaN b = false -> (a <=? Math_max a b)%float = true.
Proof.
  intros Ha Hb. destruct (Math_max_cases a b Ha Hb) as [[-> _]|[-> H]];
    [now apply leb_refl|assumption].
Qed.

Lemma Math_max_ge_r a b :
  isNaN a = false -> isNaN b = false -> (b <=? Math_max a b)%float = true.
Proof.
  intros Ha Hb. destruct (Math_max_cases a b Ha Hb) as [[-> H]|[-> _]];
    [assumption|now apply leb_refl].
Qed.

(** [Math.min(hi, Math.max(lo, v))] lies between [lo] and [hi]. *)
Lemma clamp_range lo hi v :
  (lo <=? hi)%float = true -> isNaN v = false ->
  (lo <=? Math_min hi (Math_max lo v))%float = true
  /\ (Math_min hi (Math_max lo v) <=? hi)%float = true.
Proof.
  intros Hlh Hv. destruct (leb_not_nan _ _ Hlh) as [Hlo Hhi].
  pose proof (Math_max_ge_l lo v Hlo Hv) as Hge.
  destruct (leb_not_nan _ _ Hge) as [_ Hm].
  destruct (Math_min_cases hi (Math_max lo v) Hhi Hm) as [[-> H]|[-> H]].
  - split; [assumption|now apply leb_refl].
  - split; assumption.
Qed.

(** ** Subtraction of a finite number from itself *)

Lemma sub_diag x : Number_isFinite x = true -> (x - x)%float = 0%float.
Proof.
  intros H. apply Prim2SF_inj. rewrite sub_spec.
  unfold Number_isFinite in H. unfold SF64sub, SFsub.
  destruct (Prim2SF x) as [s|s| |s m e]; try discriminate.
  - destruct s; reflexivity.
  - rewrite Z.sub_diag. reflexivity.
Qed.

(** ** Signs of products *)

Lemma SFmul_signed x y :
  SFmul prec emax x y = S754_nan
  \/ signed (xorb (SFsign x) (SFsign y)) (SFmul prec emax x y).
Proof.
  destruct x as [s1|s1| |s1 m1 e1], y as [s2|s2| |s2 m2 e2]; simpl;
    try (left; reflexivity); try (right; reflexivity).
  right. apply binary_round_aux_signed. lia.
Qed.

Lemma SFmul_finite_not_nan x s m e :
  x <> S754_nan -> SFmul prec emax x (S754_finite s m e) <> S754_nan.
Proof.
  intros Hx. destruct x as [s1|s1| |s1 m1 e1]; try congruence; simpl;
    try discriminate.
  pose proof (binary_round_aux_signed (xorb s1 s) (Zpos (m1 * m)) (e1 + e)
                loc_Exact ltac:(lia)) as H.
  intros E. rewrite E in H. exact H.
Qed.

(** ** An infinite sum stays where it is *)

Lemma SFadd_infinity_absorbs x y s :
  Number_isFinite x = true ->
  Prim2SF (x + y) = S754_infinity s ->
  Prim2SF ((x + y) + y) = S754_infinity s.
Proof.
  intros Hx H. rewrite add_spec, H. rewrite add_spec in H.
  unfold Number_isFinite in Hx. unfold SF64add in *.
  destruct (Prim2SF x) as [s1|s1| |s1 m1 e1]; try discriminate Hx;
    destruct (Prim2SF y) as [s2|s2| |s2 m2 e2]; simpl in H |- *;
    try discriminate H; try reflexivity;
    try (injection H as ->; destruct s; reflexivity).
Qed.

(** ** Small integers are exact *)

Lemma shl_align_snd m e e' : e' <= e -> snd (shl_align m e e') = e'.
Proof.
  intros H. unfold shl_align. destruct (e' - e) eqn:E; simpl; lia.
Qed.

(** Rounding a mantissa of at most 53 bits at exponent 0 changes nothing. *)
Lemma binary_round_small p :
  Zpos (digits2_pos p) <= 53 ->
  exists m e,
    binary_round prec emax false p 0 = S754_finite false m e
    /\ -52 <= e <= 0 /\ Zpos m = Zpos p * 2 ^ (- e).
Proof.
  intros Hd. unfold binary_round.
  set (e' := fexp prec emax (Zpos (digits2_pos p) + 0)).
  assert (He' : e' = Zpos (digits2_pos p) - 53).
  { unfold e'. rewrite fexp64. lia. }
  pose proof (shl_align_fst p 0 e' ltac:(lia)) as Hm.
  pose proof (shl_align_snd p 0 e' ltac:(lia)) as He.
  destruct (shl_align p 0 e') as [mz ez]. simpl fst in Hm. simpl snd in He.
  subst ez. exists mz, e'.
  assert (Hdig : Zpos (digits2_pos mz) = 53).
  { rewrite (digits2_pos_shift p (0 - e') ltac:(lia) mz Hm). lia. }
  split; [|split; [lia|rewrite Hm; f_equal; f_equal; lia]].
  unfold binary_round_aux, shr_fexp.
  change (Zdigits2 (Zpos mz)) with (Zpos (digits2_pos mz)). rewrite Hdig.
  replace (fexp prec emax (53 + e') - e') with 0 by (rewrite fexp64; lia).
  cbn [shr shr_record_of_loc shr_m loc_of_shr_record shr_r shr_s
       round_nearest_even].
  change (Zdigits2 (Zpos mz)) with (Zpos (digits2_pos mz)). rewrite Hdig.
  replace (fexp prec emax (53 + e') - e') with 0 by (rewrite fexp64; lia).
  cbn [shr shr_m].
  destruct (Z.leb_spec e' (emax - prec)) as [_|H]; [reflexivity|].
  change (emax - prec) with 971 in H. lia.
Qed.

Lemma digits2_pos_small p : Zpos p < 2 ^ 53 -> Zpos (digits2_pos p) <= 53.
Proof.
  intros H. destruct (digits2_pos_bounds p) as [L _].
  destruct (Z_le_gt_dec (Zpos (digits2_pos p)) 53) as [|G]; [assumption|].
  assert (2 ^ 53 <= 2 ^ (Zpos (digits2_pos p) - 1)) by (apply Z.pow_le_mono_r; lia).
  lia.
Qed.

Lemma of_Z_small z : 0 <= z < 2 ^ 53 -> Uint63.to_Z (Uint63.of_Z z) = z.
Proof.
  intros H. rewrite Uint63.of_Z_spec. apply Z.mod_small.
  assert (2 ^ 53 < wB) by reflexivity. lia.
Qed.

(** The view of the number holding a small positive integer. *)
Lemma Z2F_positive_view z :
  0 < z < 2 ^ 53 ->
  exists m e,
    Prim2SF (Z2F z) = S754_finite false m e
    /\ -52 <= e <= 0 /\ Zpos m = z * 2 ^ (- e).
Proof.
  intros H. unfold Z2F. destruct (Z.ltb_spec z 0); [lia|].
  rewrite of_uint63_spec, of_Z_small by lia.
  destruct z as [|p|p]; try lia.
  apply binary_round_small. apply digits2_pos_small. lia.
Qed.

Lemma toZ_exact_view x s m e z :
  Prim2SF x = S754_finite s m e -> e <= 0 -> Zpos m = z * 2 ^ (- e) ->
  toZ x = Some (cond_Zopp s z).
Proof.
  intros Hx He Hm. unfold toZ. rewrite Hx.
  assert (Hp : 0 < 2 ^ (- e)) by (apply pow2_pos; lia).
  assert (Hmod : Zpos m mod 2 ^ (- e) = 0).
  { rewrite Hm. apply Z.mod_mul. lia. }
  rewrite Hmod. rewrite Z.eqb_refl, orb_true_r. f_equal.
  rewrite <- (Z.opp_involutive e) at 1. rewrite Z.shiftl_opp_r.
  rewrite Z.shiftr_div_pow2 by lia.
  destruct s; unfold cond_Zopp.
  - change (Zneg m) with (- Zpos m). rewrite Hm, <- Z.mul_opp_l.
    apply Z.div_mul. lia.
  - rewrite Hm. apply Z.div_mul. lia.
Qed.

Lemma toZ_Z2F z : - 2 ^ 53 < z < 2 ^ 53 -> toZ (Z2F z) = Some z.
Proof.
  intros H. destruct (Z.lt_trichotomy z 0) as [Hn|[->|Hp]].
  - destruct (Z2F_positive_view (- z) ltac:(lia)) as (m & e & Hv & He & Hm).
    assert (Hview : Prim2SF (Z2F z) = S754_finite true m e).
    { unfold Z2F in *. destruct (Z.ltb_spec z 0); [|lia].
      destruct (Z.ltb_spec (- z) 0); [lia|].
      rewrite opp_spec, Hv. reflexivity. }
    rewrite (toZ_exact_view _ _ _ _ (- z) Hview ltac:(lia) Hm).
    unfold cond_Zopp. f_equal. lia.
  - reflexivity.
  - destruct (Z2F_positive_view z ltac:(lia)) as (m & e & Hv & He & Hm).
    exact (toZ_exact_view _ _ _ _ z Hv ltac:(lia) Hm).
Qed.

(** [Math.round] and [Math.ceil] of a finite number hold an integer. *)
Lemma Math_round_integer x :
  Number_isFinite x = true -> exists z, toZ (Math_round x) = Some z.
Proof.
  intros Hf. unfold Math_round. pose proof (Prim2SF_valid x) as Hv.
  unfold Number_isFinite in Hf.
  destruct (Prim2SF x) as [s|s| |s m e] eqn:E; try discriminate.
  - exists 0. unfold toZ. now rewrite E.
  - destruct (Z.leb_spec 0 e) as [He|He].
    + eexists. unfold toZ. rewrite E.
      destruct (Z.leb_spec 0 e); [|lia]. reflexivity.
    + set (z := Z.shiftl _ _).
      destruct ((z =? 0) && s); [exists 0; reflexivity|].
      exists z. apply toZ_Z2F.
      apply valid_finite in Hv. destruct Hv as (_ & Hm & _).
      unfold z. rewrite <- (Z.opp_involutive (e - 1)), Z.shiftl_opp_r.
      rewrite Z.shiftr_div_pow2 by lia.
      replace (- (e - 1)) with (Z.succ (- e)) by lia.
      rewrite Z.pow_succ_r by lia.
      assert (HP : 2 <= 2 ^ (- e)).
      { change 2 with (2 ^ 1) at 1. apply Z.pow_le_mono_r; lia. }
      set (P := 2 ^ (- e)) in *. clearbody P.
      assert (HT : 2 ^ 53 = 9007199254740992) by reflexivity.
      rewrite HT in *.
      split.
      * apply Z.lt_le_trans with (- 9007199254740992 + 1); [lia|].
        apply Z.div_le_lower_bound; [lia|].
        destruct s; unfold cond_Zopp; nia.
      * apply Z.div_lt_upper_bound; [lia|].
        destruct s; unfold cond_Zopp; nia.
Qed.

Lemma Math_ceil_integer x :
  Number_isFinite x = true -> exists z, toZ (Math_ceil x) = Some z.
Proof.
  intros Hf. unfold Math_ceil. pose proof (Prim2SF_valid x) as Hv.
  unfold Number_isFinite in Hf.
  destruct (Prim2SF x) as [s|s| |s m e] eqn:E; try discriminate.
  - exists 0. unfold toZ. now rewrite E.
  - destruct (Z.leb_spec 0 e) as [He|He].
    + eexists. unfold toZ. rewrite E.
      destruct (Z.leb_spec 0 e); [|lia]. reflexivity.
    + set (z := - Z.shiftl _ _).
      destruct ((z =? 0) && s); [exists 0; reflexivity|].
      exists z. apply toZ_Z2F.
      apply valid_finite in Hv. destruct Hv as (_ & Hm & _).
      unfold z. rewrite <- (Z.opp_involutive e) at 1 2. rewrite Z.shiftl_opp_r.
      rewrite Z.shiftr_div_pow2 by lia.
      assert (HP : 2 <= 2 ^ (- e)).
      { change 2 with (2 ^ 1) at 1. apply Z.pow_le_mono_r; lia. }
      set (P := 2 ^ (- e)) in *. clearbody P.
      assert (HT : 2 ^ 53 = 9007199254740992) by reflexivity.
      rewrite HT in *.
      assert (- 9007199254740992 < cond_Zopp (negb s) (Zpos m) / P
              < 9007199254740992); [|lia].
      split.
      * apply Z.lt_le_trans with (- 9007199254740992 + 1); [lia|].
        apply Z.div_le_lower_bound; [lia|].
        destruct s; unfold cond_Zopp, negb; nia.
      * apply Z.div_lt_upper_bound; [lia|].
        destruct s; unfold cond_Zopp, negb; nia.
Qed.

(** ** From comparisons to integer readings *)

Lemma scaled_one : scaled (Prim2SF 1) = Some (1 * 2 ^ 1074).
Proof. reflexivity. Qed.

Lemma leb_scaled x y a b :
  (x <=? y)%float = true ->
  scaled (Prim2SF x) = Some a -> scaled (Prim2SF y) = Some b -> a <= b.
Proof.
  rewrite leb_spec. unfold SFleb. intros H Ha Hb.
  rewrite (SFcompare_scaled _ _ a b (Prim2SF_valid x) (Prim2SF_valid y) Ha Hb) in H.
  destruct (Z.compare_spec a b); try lia; try discriminate.
Qed.

Lemma ltb_scaled x y a b :
  (x <? y)%float = true ->
  scaled (Prim2SF x) = Some a -> scaled (Prim2SF y) = Some b -> a < b.
Proof.
  rewrite ltb_spec. unfold SFltb. intros H Ha Hb.
  rewrite (SFcompare_scaled _ _ a b (Prim2SF_valid x) (Prim2SF_valid y) Ha Hb) in H.
  destruct (Z.compare_spec a b); try lia; try discriminate.
Qed.

Lemma leb_false_scaled x y a b :
  (x <=? y)%float = false ->
  scaled (Prim2SF x) = Some a -> scaled (Prim2SF y) = Some b -> b < a.
Proof.
  rewrite leb_spec. unfold SFleb. intros H Ha Hb.
  rewrite (SFcompare_scaled _ _ a b (Prim2SF_valid x) (Prim2SF_valid y) Ha Hb) in H.
  destruct (Z.compare_spec a b); try lia; try discriminate.
Qed.

Lemma pow2_1074_pos : 0 < 2 ^ 1074.
Proof. apply pow2_pos. lia. Qed.

(** An integer above the number is above its floor, and so on. *)
Lemma ltb_floor_toZ x y n z :
  (x <? y)%float = true -> floorZ x = Some n -> toZ y = Some z -> n < z.
Proof.
  intros H Hn Hz. apply floorZ_scaled in Hn. destruct Hn as (a & Ha & ->).
  apply toZ_scaled in Hz. pose proof (ltb_scaled _ _ _ _ H Ha Hz) as L.
  apply Z.div_lt_upper_bound; [apply pow2_1074_pos|]. lia.
Qed.

Lemma ltb_toZ x y a b :
  (x <? y)%float = true -> toZ x = Some a -> toZ y = Some b -> a < b.
Proof.
  intros H Ha Hb. apply toZ_scaled in Ha, Hb.
  pose proof (ltb_scaled _ _ _ _ H Ha Hb). pose proof pow2_1074_pos. nia.
Qed.

Lemma leb_toZ x y a b :
  (x <=? y)%float = true -> toZ x = Some a -> toZ y = Some b -> a <= b.
Proof.
  intros H Ha Hb. apply toZ_scaled in Ha, Hb.
  pose proof (leb_scaled _ _ _ _ H Ha Hb). pose proof pow2_1074_pos. nia.
Qed.

Lemma toZ_one : toZ 1 = Some 1.
Proof. reflexivity. Qed.

(** [forCount] answers unless the bound reaches 2^53. *)
Lemma forCount_some start hi :
  (0x1p53 <=? hi)%float = false -> exists n, forCount start hi = Some n.
Proof.
  intros H. unfold forCount.
  destruct (Prim2SF hi) as [s|s| |s m e] eqn:E; try (eexists; reflexivity).
  - destruct s; [eexists; reflexivity|].
    rewrite leb_spec, E in H. discriminate H.
  - destruct (2 ^ 53 <=? Z.shiftl (cond_Zopp s (Zpos m)) e) eqn:C;
      [|eexists; reflexivity].
    exfalso. apply Z.leb_le in C.
    assert (Hf : floorZ hi = Some (Z.shiftl (cond_Zopp s (Zpos m)) e)).
    { unfold floorZ. rewrite E. reflexivity. }
    apply floorZ_scaled in Hf. destruct Hf as (a & Ha & Hn).
    assert (Hb : scaled (Prim2SF 0x1p53) = Some (2 ^ 53 * 2 ^ 1074)) by reflexivity.
    pose proof (leb_false_scaled _ _ _ _ H Hb Ha) as L.
    rewrite Hn in C.
    assert (a / 2 ^ 1074 < 2 ^ 53).
    { apply Z.div_lt_upper_bound; [apply pow2_1074_pos|]. lia. }
    lia.
Qed.

(** The turns of a loop from 1 up to an integer bound. *)
Lemma forCount_toZ hi N :
  toZ hi = Some N -> N < 2 ^ 53 -> forCount 1 hi = Some (Z.to_nat N).
Proof.
  unfold toZ, forCount. destruct (Prim2SF hi) as [s|s| |s m e]; try discriminate.
  - intros [= <-] _. reflexivity.
  - destruct (_ || _); [|discriminate]. intros [= <-] H.
    destruct (Z.leb_spec (2 ^ 53) (Z.shiftl (cond_Zopp s (Zpos m)) e)); [lia|].
    f_equal. f_equal. lia.
Qed.

(** * The projection simulator *)

Lemma zrange_length i n : List.length (zrange i n) = n.
Proof. revert i. induction n; intros; simpl; auto. Qed.

Lemma zrange_In i n k : In k (zrange i n) <-> i <= k < i + Z.of_nat n.
Proof.
  revert i. induction n as [|n IH]; intros i; simpl zrange.
  - simpl. lia.
  - simpl In. rewrite IH. lia.
Qed.

Lemma zrange_snoc i n : zrange i (S n) = zrange i n ++ [i + Z.of_nat n].
Proof.
  revert i. induction n as [|n IH]; intros i.
  - simpl. f_equal. lia.
  - change (zrange i (S (S n))) with (i :: zrange (i + 1) (S n)).
    rewrite IH. simpl. do 3 f_equal. lia.
Qed.

Section ProjectionFacts.

Variable Math_pow : float -> float -> float.
Variable inp : ProjectionInput.

(** An invariant of the loop holds after any number of turns. *)
Lemma periods_invariant (P : LoopVars -> Prop) :
  (forall i v, P v -> P (period Math_pow inp i v)) ->
  forall n i v, P v -> P (periods Math_pow inp n i v).
Proof.
  intros Hstep. induction n as [|n IH]; intros i v Hv; simpl; auto.
Qed.

(** The same, for an invariant that looks at the period. *)
Lemma periods_invariant_from (P : Z -> LoopVars -> Prop) :
  (forall i v, P i v -> P (i + 1) (period Math_pow inp i v)) ->
  forall n i v, P i v -> P (i + Z.of_nat n) (periods Math_pow inp n i v).
Proof.
  intros Hstep. induction n as [|n IH]; intros i v Hv.
  - simpl. now rewrite Z.add_0_r.
  - replace (i + Z.of_nat (S n)) with (i + 1 + Z.of_nat n) by lia.
    simpl. apply IH. now apply Hstep.
Qed.

(** The points only grow, at the end. *)
Lemma periods_points_prefix n i v :
  exists l,
    var_points (periods Math_pow inp n i v) = var_points v ++ l.
Proof.
  revert i v. induction n as [|n IH]; intros i v; simpl.
  - exists []. now rewrite app_nil_r.
  - destruct (IH (i + 1) (period Math_pow inp i v)) as [l Hl].
    rewrite Hl. unfold period. simpl.
    destruct (keepsPoint inp i).
    + eexists. rewrite <- app_assoc. reflexivity.
    + eexists. reflexivity.
Qed.

(** The periods recorded are the periods that pass the sampling test. *)
Lemma periods_indices n i v :
  map periodIndex (var_points (periods Math_pow inp n i v))
  = map periodIndex (var_points v) ++ filter (keepsPoint inp) (zrange i n).
Proof.
  revert i v. induction n as [|n IH]; intros i v; simpl.
  - now rewrite app_nil_r.
  - rewrite IH. unfold period. simpl.
    destruct (keepsPoint inp i).
    + rewrite map_app, <- app_assoc. reflexivity.
    + reflexivity.
Qed.

(** [computeProjection] returns unless the horizon reaches 2^53 periods. *)
Lemma computeProjection_returns :
  (0x1p53 <=? totalPeriodsOf inp)%float = false ->
  exists n,
    forCount 1 (totalPeriodsOf inp) = Some n
    /\ computeProjection Math_pow inp
       = Some (resultOf inp (periods Math_pow inp n 1 (initialVars inp))).
Proof.
  intros H. destruct (forCount_some 1 _ H) as [n Hn].
  exists n. split; [assumption|]. unfold computeProjection. now rewrite Hn.
Qed.

End ProjectionFacts.

(** ** The first point and the accounting identity *)

(** C9. For every input whose starting amount is finite (and whose horizon
    stays below 2^53 periods, so that the loop ends), the first point of the
    result is period 0 with [balance = startingAmount], [totalContrib = 0]
    and [interestEarned = 0]. *)
Theorem initial_point Math_pow inp :
  Number_isFinite (startingAmount inp) = true ->
  (0x1p53 <=? totalPeriodsOf inp)%float = false ->
  exists r rest,
    computeProjection Math_pow inp = Some r
    /\ points r
       = {| periodIndex := 0;
            yearIndex := 0;
            balance := startingAmount inp;
            totalContrib := 0;
            interestEarned := 0;
            interestThisPeriod := None |} :: rest.
Proof.
  intros Hs Hh.
  destruct (computeProjection_returns Math_pow inp Hh) as (n & _ & Hr).
  destruct (periods_points_prefix Math_pow inp n 1 (initialVars inp)) as [l Hl].
  exists (resultOf inp (periods Math_pow inp n 1 (initialVars inp))), l.
  split; [assumption|]. simpl. rewrite Hl. simpl. unfold initialPoint.
  rewrite (sub_diag _ Hs). reflexivity.
Qed.

Lemma initial_point_witness :
  exists r rest,
    computeProjection sample_pow oneYearMonthly = Some r
    /\ points r
       = {| periodIndex := 0;
            yearIndex := 0;
            balance := 1000;
            totalContrib := 0;
            interestEarned := 0;
            interestThisPeriod := None |} :: rest.
Proof.
  apply (initial_point sample_pow oneYearMonthly); vm_compute; reflexivity.
Defined.

Section Accounting.

Variable Math_pow : float -> float -> float.
Variable inp : ProjectionInput.

Lemma periods_balanced n i v :
  Forall (pointBalanced inp) (var_points v) ->
  Forall (pointBalanced inp) (var_points (periods Math_pow inp n i v)).
Proof.
  apply (periods_invariant Math_pow inp
           (fun v => Forall (pointBalanced inp) (var_points v))).
  clear. intros i v H. unfold period. simpl.
  destruct (keepsPoint inp i); [|assumption].
  apply Forall_app. split; [assumption|].
  constructor; [reflexivity|constructor].
Qed.

End Accounting.

(** *** Comparing the reported interest with [==] *)

(** A number is [==] to itself unless it is NaN. *)
Lemma eqb_self x : (x =? x)%float = negb (isNaN x).
Proof.
  rewrite eqb_spec. unfold SFeqb, isNaN.
  destruct (Prim2SF x) as [s|s| |s m e] eqn:E; try reflexivity;
    rewrite SFcompare_refl by discriminate; reflexivity.
Qed.

Lemma binary_normalize_not_nan k e :
  binary_normalize prec emax k e false <> S754_nan.
Proof.
  destruct k as [|p|p]; [discriminate| |];
    unfold binary_normalize, binary_round;
    destruct (shl_align p e _) as [mz ez];
    match goal with
    | |- binary_round_aux _ _ ?s _ _ _ <> _ =>
        pose proof (binary_round_aux_signed s (Zpos mz) ez loc_Exact
                      ltac:(lia)) as S
    end;
    intros N; rewrite N in S; exact S.
Qed.

(** Taking a finite number from a number that is not NaN does not give
    NaN. *)
Lemma sub_finite_not_nan x y :
  isNaN x = false -> Number_isFinite y = true -> isNaN (x - y) = false.
Proof.
  unfold isNaN, Number_isFinite. rewrite sub_spec. unfold SF64sub.
  destruct (Prim2SF x) as [sx|sx| |sx mx ex];
    destruct (Prim2SF y) as [sy|sy| |sy my ey];
    try discriminate; intros _ _;
    try (destruct sx, sy; reflexivity); try reflexivity.
  unfold SFsub.
  match goal with
  | |- match binary_normalize _ _ ?k ?e _ with _ => _ end = _ =>
      pose proof (binary_normalize_not_nan k e) as N;
      destruct (binary_normalize prec emax k e false); congruence
  end.
Qed.

(** C1 (as amended). Every run that returns reports, as [finalInterest],
    the double [finalBalance - startingAmount - finalContrib], the two
    subtractions taken in that order, and every recorded point carries
    [interestEarned = balance - startingAmount - totalContrib] in the same
    order.  Compared with [==], the reported value equals that difference
    exactly when it is not NaN; it is not NaN whenever [startingAmount] and
    [finalContrib] are finite and [finalBalance] is not NaN. *)
Theorem accounting_identity Math_pow inp :
  (0x1p53 <=? totalPeriodsOf inp)%float = false ->
  exists r,
    computeProjection Math_pow inp = Some r
    /\ finalInterest r
       = (finalBalance r - startingAmount inp - finalContrib r)%float
    /\ Forall (pointBalanced inp) (points r)
    /\ (finalBalance r - startingAmount inp - finalContrib r
        =? finalInterest r)%float
       = negb (isNaN (finalInterest r))
    /\ (isNaN (finalBalance r) = false ->
        Number_isFinite (startingAmount inp) = true ->
        Number_isFinite (finalContrib r) = true ->
        isNaN (finalInterest r) = false).
Proof.
  intros Hh.
  destruct (computeProjection_returns Math_pow inp Hh) as (n & _ & Hr).
  eexists. split; [exact Hr|]. split; [reflexivity|]. split.
  { simpl. apply periods_balanced.
    constructor; [reflexivity|constructor]. }
  split; [apply eqb_self|].
  cbn [finalBalance finalContrib finalInterest resultOf].
  intros Hb Hs Hc.
  apply sub_finite_not_nan; [|exact Hc].
  apply sub_finite_not_nan; assumption.
Qed.

Lemma accounting_identity_witness :
  exists r,
    computeProjection sample_pow oneYearOfDimes = Some r
    /\ finalInterest r
       = (finalBalance r - startingAmount oneYearOfDimes - finalContrib r)%float
    /\ Forall (pointBalanced oneYearOfDimes) (points r)
    /\ (finalBalance r - startingAmount oneYearOfDimes - finalContrib r
        =? finalInterest r)%float
       = negb (isNaN (finalInterest r))
    /\ (isNaN (finalBalance r) = false ->
        Number_isFinite (startingAmount oneYearOfDimes) = true ->
        Number_isFinite (finalContrib r) = true ->
        isNaN (finalInterest r) = false).
Proof.
  apply (accounting_identity sample_pow oneYearOfDimes). vm_compute. reflexivity.
Defined.

(** C1 as stated fails: after a year of ten-cent paydays from 1000 at no
    growth, [finalBalance - finalContrib - startingAmount] and the reported
    [finalInterest] are different numbers. *)
Lemma accounting_identity_order_matters :
  exists r,
    computeProjection sample_pow oneYearOfDimes = Some r
    /\ ((finalBalance r - finalContrib r - startingAmount oneYearOfDimes)
        =? finalInterest r)%float = false.
Proof. eexists. split; [vm_compute; reflexivity|]. vm_compute. reflexivity. Qed.

(** ** A windfall that never lands *)

Lemma forCount_floor hi n i :
  forCount 1 hi = Some n -> 1 <= i < 1 + Z.of_nat n ->
  exists N, floorZ hi = Some N /\ i <= N.
Proof.
  unfold forCount, floorZ.
  destruct (Prim2SF hi) as [s|s| |s m e].
  - intros [= <-]. simpl. lia.
  - destruct s; [|discriminate]. intros [= <-]. simpl. lia.
  - intros [= <-]. simpl. lia.
  - destruct (2 ^ 53 <=? _); [discriminate|]. intros [= <-] Hi.
    eexists. split; [reflexivity|]. lia.
Qed.

Section WindfallFacts.

Variable Math_pow : float -> float -> float.
Variable inp : ProjectionInput.

Lemma windfallHits_zero i : windfallHits (withWindfallAmount inp 0) i = false.
Proof. reflexivity. Qed.

(** A turn in which the windfall does not land is the turn of the input
    without a windfall. *)
Lemma period_without_windfall i v :
  windfallHits inp i = false ->
  period Math_pow inp i v = period Math_pow (withWindfallAmount inp 0) i v.
Proof.
  intros H. unfold period. rewrite H, windfallHits_zero. reflexivity.
Qed.

Lemma periods_without_windfall n i v :
  (forall k, i <= k < i + Z.of_nat n -> windfallHits inp k = false) ->
  periods Math_pow inp n i v
  = periods Math_pow (withWindfallAmount inp 0) n i v.
Proof.
  revert i v. induction n as [|n IH]; intros i v H; [reflexivity|].
  simpl. rewrite <- period_without_windfall by (apply H; lia).
  apply IH. intros k Hk. apply H. lia.
Qed.

Lemma dead_windfall_never_hits n i :
  windfallIsDead inp ->
  forCount 1 (totalPeriodsOf inp) = Some n ->
  1 <= i < 1 + Z.of_nat n ->
  windfallHits inp i = false.
Proof.
  intros Hd Hn Hi. unfold windfallHits.
  destruct Hd as [Hd|[(w & Hw & Hd)|[Hd|Hd]]].
  - rewrite Hd. apply andb_false_r.
  - rewrite Hw. apply andb_false_iff. right.
    unfold strictEqZ. destruct (toZ w) as [z|] eqn:Ez; [|reflexivity].
    apply Z.eqb_neq. intros ->.
    destruct Hd as [Hd|[Hd|Hd]].
    + unfold toZ in Ez. unfold Number_isFinite in Hd.
      destruct (Prim2SF w); discriminate.
    + pose proof (ltb_toZ _ _ _ _ Hd Ez toZ_one). lia.
    + destruct (forCount_floor _ _ _ Hn Hi) as (N & HN & HiN).
      pose proof (ltb_floor_toZ _ _ _ _ Hd HN Ez). lia.
  - apply leb_not_ltb in Hd. rewrite Hd. rewrite andb_false_r. reflexivity.
  - rewrite Hd. reflexivity.
Qed.

End WindfallFacts.

(** C10. If the windfall period is [null], not finite, below 1 or above
    [totalPeriods], or if the windfall amount is at most 0 or not finite,
    [computeProjection] returns exactly what it returns on the same input
    with [windfallAmount = 0]. *)
Theorem dead_windfall_is_noop Math_pow inp :
  windfallIsDead inp ->
  computeProjection Math_pow inp
  = computeProjection Math_pow (withWindfallAmount inp 0).
Proof.
  intros Hd. unfold computeProjection.
  change (totalPeriodsOf (withWindfallAmount inp 0)) with (totalPeriodsOf inp).
  destruct (forCount 1 (totalPeriodsOf inp)) as [n|] eqn:Hn; [|reflexivity].
  f_equal.
  change (initialVars (withWindfallAmount inp 0)) with (initialVars inp).
  rewrite <- periods_without_windfall.
  - reflexivity.
  - intros k Hk. now apply (dead_windfall_never_hits inp n).
Qed.

Lemma dead_windfall_is_noop_witness :
  computeProjection sample_pow lateWindfall
  = computeProjection sample_pow (withWindfallAmount lateWindfall 0).
Proof.
  apply (dead_windfall_is_noop sample_pow lateWindfall).
  right. left. exists 40%float. split; [reflexivity|].
  right. right. vm_compute. reflexivity.
Defined.

(** ** The per-period rate, and a pay frequency that is not positive *)

Lemma SFleb_zero_notPositive y :
  SFleb y (S754_zero false) = true -> notPositive y = true.
Proof. destruct y as [s|s| |s m e]; try reflexivity; destruct s; auto. Qed.

Lemma Math_max_zero_view d :
  Prim2SF (Math_max 0 d) = S754_nan \/ SFsign (Prim2SF (Math_max 0 d)) = false.
Proof.
  unfold Math_max. change (isNaN 0) with false. simpl orb.
  destruct (isNaN d) eqn:Hd; [left; reflexivity|].
  destruct (0 <? d)%float eqn:L.
  - right. rewrite ltb_spec in L. unfold SFltb in L.
    change (Prim2SF 0) with (S754_zero false) in L.
    destruct (Prim2SF d) as [s|s| |s m e]; simpl in *; try discriminate;
      destruct s; simpl in *; try discriminate; reflexivity.
  - destruct (d <? 0)%float; [right; reflexivity|].
    change (signbit 0) with false. right. reflexivity.
Qed.

Lemma SFmul_notPositive x y :
  x = S754_nan \/ SFsign x = false ->
  notPositive y = true ->
  notPositive (SFmul prec emax x y) = true.
Proof.
  intros [->|Hx] Hy; [reflexivity|].
  destruct (SFmul_signed x y) as [->|H]; [reflexivity|].
  destruct x as [s1|s1| |s1 m1 e1]; simpl in Hx; subst;
    destruct y as [s2|s2| |s2 m2 e2]; simpl in Hy; subst;
    try reflexivity; try discriminate.
  simpl xorb in H. destruct (SFmul _ _ _ _); simpl in *; try contradiction;
    subst; reflexivity.
Qed.

Lemma binary_normalize_nonneg k :
  0 <= k ->
  binary_normalize prec emax k 0 false = S754_zero false
  \/ signed false (binary_normalize prec emax k 0 false).
Proof.
  intros Hk. destruct k as [|p|p]; try lia; [left; reflexivity|right].
  unfold binary_normalize, binary_round.
  destruct (shl_align p 0 _) as [mz ez].
  apply binary_round_aux_signed. lia.
Qed.

Lemma Z2F_negative_view z :
  z < 0 -> notPositive (Prim2SF (Z2F z)) = true.
Proof.
  intros Hz. unfold Z2F. destruct (Z.ltb_spec z 0); [|lia].
  rewrite opp_spec, of_uint63_spec.
  destruct (binary_normalize_nonneg (Uint63.to_Z (Uint63.of_Z (- z)))) as [->|Hs].
  - apply Uint63.to_Z_bounded.
  - reflexivity.
  - destruct (binary_normalize _ _ _ _ _); simpl in *; try contradiction;
      subst; reflexivity.
Qed.

Lemma Math_round_notPositive x :
  notPositive (Prim2SF x) = true -> notPositive (Prim2SF (Math_round x)) = true.
Proof.
  intros H. unfold Math_round.
  destruct (Prim2SF x) as [s|s| |s m e] eqn:E; try (rewrite E; exact H).
  destruct (0 <=? e) eqn:He; [rewrite E; exact H|].
  simpl in H. subst s. apply Z.leb_gt in He.
  set (z := Z.shiftl _ _).
  assert (Hz : z <= 0).
  { unfold z. rewrite <- (Z.opp_involutive (e - 1)), Z.shiftl_opp_r.
    rewrite Z.shiftr_div_pow2 by lia.
    assert (0 < 2 ^ (- (e - 1))) by (apply pow2_pos; lia).
    assert (2 * cond_Zopp true (Zpos m) + 2 ^ (- e) < 2 ^ (- (e - 1))).
    { replace (- (e - 1)) with (Z.succ (- e)) by lia.
      rewrite Z.pow_succ_r by lia.
      assert (0 < 2 ^ (- e)) by (apply pow2_pos; lia).
      unfold cond_Zopp. lia. }
    assert ((2 * cond_Zopp true (Zpos m) + 2 ^ (- e)) / 2 ^ (- (e - 1)) < 1).
    { apply Z.div_lt_upper_bound; lia. }
    lia. }
  destruct (Z.eqb_spec z 0) as [H0|H0]; simpl andb; cbv iota.
  - reflexivity.
  - apply Z2F_negative_view. lia.
Qed.

Lemma Math_max_zero_notPositive r :
  notPositive (Prim2SF r) = true ->
  Math_max 0 r = 0%float \/ Math_max 0 r = nan.
Proof.
  intros H. unfold Math_max. change (isNaN 0) with false. simpl orb.
  destruct (isNaN r) eqn:Hn; [right; reflexivity|left].
  assert (L : (0 <? r)%float = false).
  { rewrite ltb_spec. change (Prim2SF 0) with (S754_zero false).
    unfold isNaN in Hn.
    destruct (Prim2SF r) as [s|s| |s m e]; simpl in *; try discriminate;
      subst; reflexivity. }
  rewrite L. destruct (r <? 0)%float; reflexivity.
Qed.

Section RateFacts.

Variable Math_pow : float -> float -> float.
Variable inp : ProjectionInput.

(** With a pay frequency of zero or less the horizon is 0 or NaN and the
    loop makes no turn. *)
Lemma no_periods_without_paydays :
  (payPeriodsPerYear inp <=? 0)%float = true ->
  forCount 1 (totalPeriodsOf inp) = Some 0%nat.
Proof.
  intros H. rewrite leb_spec in H. apply SFleb_zero_notPositive in H.
  assert (Hp : notPositive (Prim2SF (yearsOf inp * payPeriodsPerYear inp)) = true).
  { rewrite mul_spec. apply SFmul_notPositive; [|exact H].
    apply Math_max_zero_view. }
  apply Math_round_notPositive in Hp.
  unfold totalPeriodsOf.
  destruct (Math_max_zero_notPositive _ Hp) as [-> | ->]; reflexivity.
Qed.

End RateFacts.

(** C3 (as amended). With a positive pay frequency the rate applied in
    each period is [pow(1 + annualRatePct/100, 1/payPeriodsPerYear) - 1];
    in every period the balance after the deposits is multiplied by one
    plus that rate.  With a pay frequency of zero or less the rate is 0 and
    no period is run: the result is the period-0 point alone, with
    [finalBalance = startingAmount] and [finalContrib = 0]. *)
Theorem per_period_rate Math_pow inp :
  ((0 <? payPeriodsPerYear inp)%float = true ->
   rPerPeriod Math_pow inp
   = (Math_pow (1 + annualRatePct inp / 100) (1 / payPeriodsPerYear inp) - 1)%float)
  /\ (forall i v,
        var_balance (period Math_pow inp i v)
        = ((if windfallHits inp i
            then var_balance v + windfallAmount inp
            else var_balance v)
           + contributionPerPayday inp)
          * (1 + rPerPeriod Math_pow inp))%float
  /\ ((payPeriodsPerYear inp <=? 0)%float = true ->
      rPerPeriod Math_pow inp = 0%float
      /\ exists r,
           computeProjection Math_pow inp = Some r
           /\ points r = [initialPoint inp]
           /\ finalBalance r = startingAmount inp
           /\ finalContrib r = 0%float).
Proof.
  split; [|split].
  - intros H. unfold rPerPeriod, rAnnual. now rewrite H.
  - intros i v. reflexivity.
  - intros H. split.
    + unfold rPerPeriod. now rewrite (leb_not_ltb _ _ H).
    + unfold computeProjection.
      rewrite (no_periods_without_paydays inp H).
      eexists. split; [reflexivity|]. repeat split.
Qed.

Lemma per_period_rate_witness :
  rPerPeriod sample_pow oneYearMonthly
  = (sample_pow (1 + 0 / 100) (1 / 12) - 1)%float
  /\ rPerPeriod sample_pow noPaydays = 0%float.
Proof.
  destruct (per_period_rate sample_pow oneYearMonthly) as (Hpos & _).
  destruct (per_period_rate sample_pow noPaydays) as (_ & _ & Hzero).
  split.
  - apply Hpos. reflexivity.
  - apply Hzero. reflexivity.
Defined.

(** C3 as stated fails: at a pay frequency of 0 the recurrence does not run.
    Thirty-five years ahead and 50 a payday leave one point and no
    contribution. *)
Lemma no_paydays_no_periods :
  exists r,
    computeProjection sample_pow noPaydays = Some r
    /\ (0 <? yearsOf noPaydays)%float = true
    /\ contributionPerPayday noPaydays = 50%float
    /\ points r = [initialPoint noPaydays]
    /\ finalContrib r = 0%float.
Proof. eexists. repeat split; vm_compute; reflexivity. Qed.

(** ** Contributions never decrease *)

Lemma StronglySorted_snoc {A} (R : A -> A -> Prop) l x :
  StronglySorted R l -> Forall (fun y => R y x) l ->
  StronglySorted R (l ++ [x]).
Proof.
  induction 1 as [|a l Hs IH Ha]; intros Hx; simpl.
  - constructor; constructor.
  - inversion Hx; subst. constructor; [now apply IH|].
    apply Forall_app. split; [assumption|]. constructor; [assumption|constructor].
Qed.

Lemma leb_zero_nonneg c :
  (0 <=? c)%float = true -> nonneg (Prim2SF c) = true.
Proof.
  rewrite leb_spec. change (Prim2SF 0) with (S754_zero false).
  destruct (Prim2SF c) as [s|s| |s m e]; try reflexivity; try discriminate;
    destruct s; unfold SFleb; simpl; intros H; congruence.
Qed.

Lemma ltb_zero_nonneg c :
  (0 <? c)%float = true -> nonneg (Prim2SF c) = true.
Proof. intros H. apply leb_zero_nonneg. now apply ltb_leb. Qed.

(** Adding a non-negative number to a non-negative number gives a
    non-negative number that is no smaller. *)
Lemma add_nonneg t c :
  nonneg (Prim2SF t) = true -> nonneg (Prim2SF c) = true ->
  nonneg (Prim2SF (t + c)) = true /\ (t <=? t + c)%float = true.
Proof.
  intros Ht Hc. rewrite leb_spec, add_spec.
  apply SFadd_nonneg; auto. apply Prim2SF_valid.
Qed.

Lemma nonneg_not_nan t : nonneg (Prim2SF t) = true -> isNaN t = false.
Proof. unfold isNaN. destruct (Prim2SF t); simpl; congruence. Qed.

Section ContributionFacts.

Variable Math_pow : float -> float -> float.
Variable inp : ProjectionInput.
Hypothesis contribution_nonneg :
  (0 <=? contributionPerPayday inp)%float = true.

Lemma period_contribInvariant i v :
  contribInvariant v -> contribInvariant (period Math_pow inp i v).
Proof.
  intros (Hn & Hb & Hs).
  set (t1 := if windfallHits inp i
             then (var_totalContrib v + windfallAmount inp)%float
             else var_totalContrib v).
  assert (H1 : nonneg (Prim2SF t1) = true
               /\ (var_totalContrib v <=? t1)%float = true).
  { unfold t1. destruct (windfallHits inp i) eqn:Hw.
    - unfold windfallHits in Hw.
      apply andb_prop in Hw. destruct Hw as [Hw _].
      apply andb_prop in Hw. destruct Hw as [_ Hw].
      apply add_nonneg; [assumption|now apply ltb_zero_nonneg].
    - split; [assumption|]. apply leb_refl. now apply nonneg_not_nan. }
  destruct H1 as [Hn1 Hle1].
  destruct (add_nonneg t1 (contributionPerPayday inp) Hn1
              (leb_zero_nonneg _ contribution_nonneg)) as [Hn2 Hle2].
  fold t1 in Hn2, Hle2.
  assert (Hle : (var_totalContrib v <=? t1 + contributionPerPayday inp)%float = true).
  { eapply leb_trans; eassumption. }
  assert (Hb' : Forall (fun p => (totalContrib p
                                  <=? t1 + contributionPerPayday inp)%float = true)
                       (var_points v)).
  { eapply Forall_impl; [|exact Hb]. intros p Hp. simpl in Hp.
    eapply leb_trans; eassumption. }
  unfold contribInvariant, period. fold t1. simpl.
  split; [assumption|].
  destruct (keepsPoint inp i).
  - split.
    + apply Forall_app. split; [assumption|].
      constructor; [|constructor]. simpl. apply leb_refl. now apply nonneg_not_nan.
    + apply StronglySorted_snoc; [assumption|]. exact Hb'.
  - split; assumption.
Qed.

Lemma initial_contribInvariant : contribInvariant (initialVars inp).
Proof.
  unfold contribInvariant, initialVars. simpl. split; [reflexivity|].
  split.
  - constructor; [reflexivity|constructor].
  - constructor; constructor.
Qed.

End ContributionFacts.

(** C8 (as amended). When [contributionPerPayday] is at least 0,
    [totalContrib] never decreases along [points]: every point has at most
    the [totalContrib] of every later point. *)
Theorem contributions_never_decrease Math_pow inp :
  (0 <=? contributionPerPayday inp)%float = true ->
  (0x1p53 <=? totalPeriodsOf inp)%float = false ->
  exists r,
    computeProjection Math_pow inp = Some r
    /\ StronglySorted contribLe (points r).
Proof.
  intros Hc Hh.
  destruct (computeProjection_returns Math_pow inp Hh) as (n & _ & Hr).
  eexists. split; [exact Hr|]. simpl.
  apply (periods_invariant Math_pow inp contribInvariant).
  - intros i v. now apply period_contribInvariant.
  - apply initial_contribInvariant.
Qed.

Lemma contributions_never_decrease_witness :
  exists r,
    computeProjection sample_pow thirtyYearsBiweekly = Some r
    /\ StronglySorted contribLe (points r).
Proof.
  apply (contributions_never_decrease sample_pow thirtyYearsBiweekly);
    vm_compute; reflexivity.
Defined.

(** C8 as stated fails: with 50 withdrawn each payday the second point has
    contributed less than the first. *)
Lemma withdrawals_decrease_contributions :
  exists r p q rest,
    computeProjection sample_pow oneYearOfWithdrawals = Some r
    /\ points r = p :: q :: rest
    /\ (totalContrib p <=? totalContrib q)%float = false.
Proof.
  do 4 eexists. split; [vm_compute; reflexivity|].
  split; [reflexivity|]. vm_compute. reflexivity.
Qed.

(** ** Sampling *)

Lemma mod_zero_divide a i : a <> 0 -> (i mod a =? 0) = true <-> (a | i).
Proof. intros H. rewrite Z.eqb_eq. now apply Z.mod_divide. Qed.

Lemma eqb_iff (b c : bool) : (b = true <-> c = true) -> b = c.
Proof.
  destruct b, c; intros [H1 H2]; auto.
  - symmetry. auto.
Qed.

(** [i % d === 0] against a divisor that holds the integer [s]. *)
Lemma remIsZero_toZ i d s :
  toZ d = Some s -> remIsZero i d = negb (s =? 0) && (i mod s =? 0).
Proof.
  unfold toZ, remIsZero. pose proof (Prim2SF_valid d) as Hv.
  destruct (Prim2SF d) as [s0|s0| |s0 m e]; try discriminate.
  - intros [= <-]. reflexivity.
  - apply valid_finite in Hv. destruct Hv as (He & _).
    destruct ((0 <=? e) || (Zpos m mod 2 ^ (- e) =? 0)) eqn:C; [|discriminate].
    intros [= <-].
    destruct (Z.leb_spec 0 e) as [Hp|Hn].
    + rewrite Z.shiftl_mul_pow2 by lia.
      assert (Hpe : 0 < 2 ^ e) by (apply pow2_pos; lia).
      assert (Hme : 0 < Zpos m * 2 ^ e) by lia.
      assert (Hs : cond_Zopp s0 (Zpos m) * 2 ^ e <> 0).
      { destruct s0; unfold cond_Zopp; nia. }
      destruct (Z.eqb_spec (cond_Zopp s0 (Zpos m) * 2 ^ e) 0); [lia|].
      simpl negb. simpl andb. apply eqb_iff.
      rewrite !mod_zero_divide by lia.
      destruct s0; simpl cond_Zopp; [|reflexivity].
      change (Zneg m) with (- Zpos m). rewrite Z.mul_opp_l.
      symmetry. apply Z.divide_opp_l.
    + simpl orb in C. apply Z.eqb_eq in C.
      assert (Hk : 0 < 2 ^ (- e)) by (apply pow2_pos; lia).
      set (q := Zpos m / 2 ^ (- e)).
      assert (Hm : Zpos m = q * 2 ^ (- e)).
      { unfold q. rewrite Z.mul_comm. apply Z.div_exact; [lia|assumption]. }
      assert (Hq : 0 < q) by nia.
      assert (Hs : Z.shiftl (cond_Zopp s0 (Zpos m)) e = cond_Zopp s0 q).
      { rewrite <- (Z.opp_involutive e) at 1. rewrite Z.shiftl_opp_r.
        rewrite Z.shiftr_div_pow2 by lia.
        destruct s0; unfold cond_Zopp.
        - change (Zneg m) with (- Zpos m). rewrite Hm at 1.
          rewrite <- Z.mul_opp_l. apply Z.div_mul. lia.
        - reflexivity. }
      rewrite Hs.
      destruct (Z.eqb_spec (cond_Zopp s0 q) 0) as [E|E];
        [destruct s0; unfold cond_Zopp in E; lia|].
      simpl negb. simpl andb. apply eqb_iff.
      rewrite !mod_zero_divide by (try assumption; lia).
      rewrite Hm at 1. rewrite Z.mul_divide_cancel_r by lia.
      destruct s0; unfold cond_Zopp; [|reflexivity].
      symmetry. apply Z.divide_opp_l.
Qed.

Lemma remIsZero_infinity i d s :
  Prim2SF d = S754_infinity s -> remIsZero i d = (i =? 0).
Proof. unfold remIsZero. now intros ->. Qed.

Lemma strictEqZ_toZ x N i : toZ x = Some N -> strictEqZ x i = (N =? i).
Proof. unfold strictEqZ. now intros ->. Qed.

(** Counting the multiples of [s] among [1 .. n]. *)
Lemma div_succ a s :
  0 <= a -> 0 < s ->
  (a + 1) / s = a / s + (if (a + 1) mod s =? 0 then 1 else 0).
Proof.
  intros Ha Hs.
  pose proof (Z.div_mod (a + 1) s ltac:(lia)) as E.
  pose proof (Z.mod_pos_bound (a + 1) s Hs) as B.
  destruct (Z.eqb_spec ((a + 1) mod s) 0) as [Hz|Hnz].
  - symmetry. assert (a / s = (a + 1) / s - 1); [|lia].
    symmetry. apply Z.div_unique with (s - 1); [lia|]. nia.
  - symmetry. rewrite Z.add_0_r. symmetry.
    apply Z.div_unique with ((a + 1) mod s - 1); [lia|]. nia.
Qed.

Lemma count_multiples s n :
  0 < s ->
  Z.of_nat (List.length (filter (fun i => i mod s =? 0) (zrange 1 n)))
  = Z.of_nat n / s.
Proof.
  intros Hs. induction n as [|n IH].
  - simpl. now rewrite Z.div_0_l by lia.
  - rewrite zrange_snoc, filter_app, length_app, Nat2Z.inj_add, IH.
    rewrite Nat2Z.inj_succ. unfold Z.succ.
    rewrite (div_succ (Z.of_nat n) s) by lia.
    replace (1 + Z.of_nat n) with (Z.of_nat n + 1) by lia. cbn [filter].
    destruct ((Z.of_nat n + 1) mod s =? 0); reflexivity.
Qed.

Lemma count_equal_above N i n :
  N < i -> filter (fun k => N =? k) (zrange i n) = [].
Proof.
  revert i. induction n as [|n IH]; intros i H; [reflexivity|].
  cbn [zrange filter]. destruct (Z.eqb_spec N i); [lia|]. apply IH. lia.
Qed.

Lemma count_equal N i n :
  (List.length (filter (fun k => (N =? k)%Z) (zrange i n)) <= 1)%nat.
Proof.
  revert i. induction n as [|n IH]; intros i; [simpl; lia|].
  cbn [zrange filter]. destruct (Z.eqb_spec N i).
  - rewrite count_equal_above by lia. simpl. lia.
  - apply IH.
Qed.

Lemma filter_orb_length {A} (f g : A -> bool) l :
  (List.length (filter (fun x => f x || g x) l)
   <= List.length (filter f l) + List.length (filter g l))%nat.
Proof.
  induction l as [|x l IH]; [simpl; lia|].
  simpl. destruct (f x), (g x); simpl; lia.
Qed.

Lemma filter_true {A} (f : A -> bool) l :
  (forall x, f x = true) -> filter f l = l.
Proof.
  intros H. induction l as [|x l IH]; [reflexivity|].
  simpl. now rewrite H, IH.
Qed.

Lemma toZ_Math_max_zero x N : toZ (Math_max 0 x) = Some N -> 0 <= N.
Proof.
  intros H.
  assert (Hn : isNaN (Math_max 0 x) = false).
  { unfold isNaN, toZ in *. destruct (Prim2SF (Math_max 0 x)); congruence. }
  assert (Hx : isNaN x = false).
  { destruct (isNaN x) eqn:E; [|reflexivity].
    unfold Math_max in Hn. rewrite E, orb_true_r in Hn. discriminate Hn. }
  pose proof (Math_max_ge_l 0 x eq_refl Hx) as L.
  apply (leb_toZ _ _ 0 N L); [reflexivity|assumption].
Qed.

Lemma toZ_Math_max_one x s : toZ (Math_max 1 x) = Some s -> 1 <= s.
Proof.
  intros H.
  assert (Hn : isNaN (Math_max 1 x) = false).
  { unfold isNaN, toZ in *. destruct (Prim2SF (Math_max 1 x)); congruence. }
  assert (Hx : isNaN x = false).
  { destruct (isNaN x) eqn:E; [|reflexivity].
    unfold Math_max in Hn. rewrite E, orb_true_r in Hn. discriminate Hn. }
  pose proof (Math_max_ge_l 1 x eq_refl Hx) as L.
  apply (leb_toZ _ _ 1 s L); [reflexivity|assumption].
Qed.

Section SamplingFacts.

Variable Math_pow : float -> float -> float.
Variable inp : ProjectionInput.
Variable N : Z.
Hypothesis horizon : toZ (totalPeriodsOf inp) = Some N.
Hypothesis horizon_small : N < 2 ^ 53.

Lemma horizon_nonneg : 0 <= N.
Proof. exact (toZ_Math_max_zero _ _ horizon). Qed.

Lemma computeProjection_recorded :
  exists r,
    computeProjection Math_pow inp = Some r
    /\ map periodIndex (points r) = (recorded inp N).
Proof.
  unfold computeProjection. rewrite (forCount_toZ _ _ horizon horizon_small).
  eexists. split; [reflexivity|]. simpl. rewrite periods_indices. reflexivity.
Qed.

Lemma recorded_In i :
  In i (recorded inp N) <-> i = 0 \/ (1 <= i <= N /\ keepsPoint inp i = true).
Proof.
  pose proof horizon_nonneg. unfold recorded. simpl In.
  rewrite filter_In, zrange_In. rewrite Z2Nat.id by lia. split.
  - intros [H0|[H1 H2]]; [left; lia|right; split; [lia|assumption]].
  - intros [H0|[H1 H2]]; [left; lia|right; split; [lia|assumption]].
Qed.

Lemma keepsPoint_last : 1 <= N -> keepsPoint inp N = true.
Proof.
  intros _. unfold keepsPoint. rewrite (strictEqZ_toZ _ _ _ horizon).
  rewrite Z.eqb_refl. now rewrite !orb_true_r.
Qed.

Lemma recorded_first_last : In 0 (recorded inp N) /\ In N (recorded inp N).
Proof.
  pose proof horizon_nonneg. split; apply recorded_In; [now left|].
  destruct (Z.eq_dec N 0); [now left|right].
  split; [lia|]. apply keepsPoint_last. lia.
Qed.

Lemma recorded_keepAll :
  keepAll inp = true -> Z.of_nat (List.length (recorded inp N)) = N + 1.
Proof.
  intros H. pose proof horizon_nonneg. unfold recorded.
  rewrite filter_true.
  - simpl List.length. rewrite zrange_length. lia.
  - intros i. unfold keepsPoint. now rewrite H.
Qed.

(** With a stride that holds the integer [s]. *)
Lemma recorded_stride s :
  keepAll inp = false -> toZ (sampleStep inp) = Some s -> 1 <= s ->
  (forall i, In i (recorded inp N)
             <-> 0 <= i <= N /\ (i = 0 \/ i = N \/ i mod s = 0))
  /\ Z.of_nat (List.length (recorded inp N)) <= N / s + 2.
Proof.
  intros Hk Hs Hs1. pose proof horizon_nonneg as HN.
  assert (Hkeeps : forall i, keepsPoint inp i = (i mod s =? 0) || (N =? i)).
  { intros i. unfold keepsPoint. rewrite Hk.
    rewrite (remIsZero_toZ _ _ _ Hs), (strictEqZ_toZ _ _ _ horizon).
    destruct (Z.eqb_spec s 0); [lia|]. reflexivity. }
  split.
  - intros i. rewrite recorded_In, Hkeeps, orb_true_iff, !Z.eqb_eq. split.
    + intros [->|[H1 [H2|H2]]]; split; try lia; auto.
    + intros [H1 [->|[->|H2]]]; auto.
      * destruct (Z.eq_dec N 0); [left; lia|right]. split; [lia|auto].
      * destruct (Z.eq_dec i 0); [left; lia|right]. split; [lia|auto].
  - unfold recorded. simpl List.length.
    rewrite (filter_ext _ _ Hkeeps).
    pose proof (filter_orb_length (fun i => i mod s =? 0) (fun i => N =? i)
                  (zrange 1 (Z.to_nat N))) as L.
    pose proof (count_equal N 1 (Z.to_nat N)) as L1.
    pose proof (count_multiples s (Z.to_nat N) ltac:(lia)) as L2.
    rewrite Z2Nat.id in L2 by lia. lia.
Qed.

(** With an infinite stride only the two ends are recorded. *)
Lemma recorded_infinite_stride sgn :
  keepAll inp = false -> Prim2SF (sampleStep inp) = S754_infinity sgn ->
  (forall i, In i (recorded inp N) <-> i = 0 \/ i = N)
  /\ Z.of_nat (List.length (recorded inp N)) <= 2.
Proof.
  intros Hk Hs. pose proof horizon_nonneg as HN.
  assert (Hkeeps : forall i, In i (zrange 1 (Z.to_nat N)) ->
                             keepsPoint inp i = (N =? i)).
  { intros i Hi. apply zrange_In in Hi. unfold keepsPoint. rewrite Hk.
    rewrite (remIsZero_infinity _ _ _ Hs), (strictEqZ_toZ _ _ _ horizon).
    destruct (Z.eqb_spec i 0); [lia|]. reflexivity. }
  split.
  - intros i. unfold recorded. simpl In.
    rewrite (filter_ext_in _ (fun k => N =? k) _ Hkeeps), filter_In, zrange_In, Z.eqb_eq.
    rewrite Z2Nat.id by lia. split.
    + intros [H|[_ H]]; auto.
    + intros [-> | ->]; [now left|].
      destruct (Z.eq_dec N 0); [left; lia|right; split; lia].
  - unfold recorded. simpl List.length.
    rewrite (filter_ext_in _ (fun k => N =? k) _ Hkeeps).
    pose proof (count_equal N 1 (Z.to_nat N)). lia.
Qed.

End SamplingFacts.

Lemma keepAll_false_of_positive inp :
  Number_isFinite (maxPoints inp) = true ->
  (0 <? maxPoints inp)%float = true ->
  keepAll inp = false.
Proof.
  intros Hf Hp. unfold keepAll. rewrite Hf. apply ltb_not_leb in Hp.
  rewrite Hp. reflexivity.
Qed.


(** ** The horizon and the stride are integers *)

Lemma Math_round_finite y :
  Number_isFinite (Math_round y) = true -> Number_isFinite y = true.
Proof.
  unfold Math_round, Number_isFinite.
  destruct (Prim2SF y) as [s|s| |s m e] eqn:E; try reflexivity;
    rewrite E; auto.
Qed.

Lemma Math_ceil_not_finite q :
  Number_isFinite q = false -> Math_ceil q = q.
Proof.
  unfold Math_ceil, Number_isFinite.
  destruct (Prim2SF q); try reflexivity; discriminate.
Qed.

Lemma Math_max_not_nan a b :
  isNaN (Math_max a b) = false -> isNaN a = false /\ isNaN b = false.
Proof.
  unfold Math_max. destruct (isNaN a), (isNaN b); simpl; auto; discriminate.
Qed.

Lemma finite_not_nan x : Number_isFinite x = true -> isNaN x = false.
Proof. unfold Number_isFinite, isNaN. destruct (Prim2SF x); congruence. Qed.

(** A finite horizon is a non-negative integer. *)
Lemma horizon_is_integer inp :
  Number_isFinite (totalPeriodsOf inp) = true ->
  exists N, toZ (totalPeriodsOf inp) = Some N /\ 0 <= N.
Proof.
  intros Hf. unfold totalPeriodsOf in *.
  set (r := Math_round (yearsOf inp * payPeriodsPerYear inp)) in *.
  destruct (Math_max_not_nan 0 r (finite_not_nan _ Hf)) as [_ Hr].
  assert (H : exists N, toZ (Math_max 0 r) = Some N).
  { destruct (Math_max_cases 0 r eq_refl Hr) as [[E _]|[E _]].
    - rewrite E. exists 0. reflexivity.
    - rewrite E in *. apply Math_round_integer. now apply Math_round_finite. }
  destruct H as [N HN]. exists N. split; [assumption|].
  exact (toZ_Math_max_zero _ _ HN).
Qed.

(** A quotient of an integer by a finite positive number is not NaN. *)
Lemma SFdiv_not_nan x s m e :
  (match x with S754_zero _ | S754_finite _ _ _ => True | _ => False end) ->
  SFdiv prec emax x (S754_finite s m e) <> S754_nan.
Proof.
  intros Hx. destruct x as [s1|s1| |s1 m1 e1]; try contradiction;
    [discriminate|].
  unfold SFdiv.
  destruct (SFdiv_core_binary prec emax (Zpos m1) e1 (Zpos m) e)
    as [[mz ez] lz] eqn:E.
  assert (Hmz : 0 <= mz).
  { unfold SFdiv_core_binary in E.
    set (m' := match _ - _ - _ with Zpos _ => _ | Z0 => _ | Zneg _ => _ end) in E.
    assert (Hm' : 0 <= m').
    { unfold m'. destruct (_ - _ - _); try lia. apply Z.shiftl_nonneg. lia. }
    pose proof (Z_div_mod m' (Zpos m) ltac:(lia)) as D.
    destruct (Z.div_eucl m' (Zpos m)) as [q r]. destruct D as [D1 D2].
    injection E as <- _ _. nia. }
  pose proof (binary_round_aux_signed (xorb s1 s) mz ez lz Hmz) as S.
  intros C. rewrite C in S. exact S.
Qed.

Lemma toZ_view x N :
  toZ x = Some N ->
  match Prim2SF x with S754_zero _ | S754_finite _ _ _ => True | _ => False end.
Proof. unfold toZ. destruct (Prim2SF x); try discriminate; auto. Qed.

(** With a finite positive [maxPoints] and an integer horizon, the stride
    holds an integer or is [+Infinity]. *)
Lemma stride_is_integer_or_infinite inp N :
  toZ (totalPeriodsOf inp) = Some N ->
  Number_isFinite (maxPoints inp) = true ->
  (0 <? maxPoints inp)%float = true ->
  (exists s, toZ (sampleStep inp) = Some s)
  \/ Prim2SF (sampleStep inp) = S754_infinity false.
Proof.
  intros HN Hf Hp. unfold sampleStep.
  rewrite (keepAll_false_of_positive inp Hf Hp).
  set (q := (totalPeriodsOf inp / maxPoints inp)%float).
  assert (Hq : isNaN q = false).
  { apply isNaN_false. unfold q. rewrite div_spec.
    rewrite ltb_spec in Hp. unfold Number_isFinite in Hf.
    change (Prim2SF 0) with (S754_zero false) in Hp.
    destruct (Prim2SF (maxPoints inp)) as [s|s| |s m e]; try discriminate.
    apply SFdiv_not_nan. exact (toZ_view _ _ HN). }
  assert (Hc : isNaN (Math_ceil q) = false).
  { destruct (Number_isFinite q) eqn:Fq.
    - destruct (Math_ceil_integer q Fq) as [z Hz].
      unfold toZ in Hz. unfold isNaN.
      destruct (Prim2SF (Math_ceil q)); congruence.
    - now rewrite (Math_ceil_not_finite q Fq). }
  destruct (Math_max_cases 1 (Math_ceil q) eq_refl Hc) as [[-> _]|[-> L]].
  - left. exists 1. reflexivity.
  - destruct (Number_isFinite q) eqn:Fq.
    + left. now apply Math_ceil_integer.
    + right. rewrite (Math_ceil_not_finite q Fq) in *.
      rewrite leb_spec in L. unfold Number_isFinite in Fq. unfold isNaN in Hq.
      destruct (Prim2SF q) as [s|s| |s m e]; try discriminate.
      destruct s; [discriminate L|reflexivity].
Qed.

(** C2. For an input whose horizon is the integer [N] (every finite
    horizon is one, see [horizon_is_integer]; below 2^53 the loop ends):
    the points include period 0 and period [N]; with [maxPoints = 0], or in
    keep-all mode generally, there are exactly [N + 1] points; and with a
    finite [maxPoints > 0] the stride is
    [max(1, ceil(totalPeriods / maxPoints))], it holds an integer [s >= 1]
    or is [+Infinity], period [i] is recorded exactly when [i] is 0, [N] or
    a multiple of [s], and there are at most [floor(N / s) + 2] points.
    (The stride is infinite when the quotient overflows; then only periods 0
    and [N] are recorded, as [i % Infinity] is [i].) *)
Theorem sampling_bounds Math_pow inp N :
  toZ (totalPeriodsOf inp) = Some N -> N < 2 ^ 53 ->
  exists r,
    computeProjection Math_pow inp = Some r
    /\ In 0 (map periodIndex (points r))
    /\ In N (map periodIndex (points r))
    /\ (maxPoints inp = 0%float -> keepAll inp = true)
    /\ (keepAll inp = true -> Z.of_nat (List.length (points r)) = N + 1)
    /\ (Number_isFinite (maxPoints inp) = true ->
        (0 <? maxPoints inp)%float = true ->
        sampleStep inp
        = Math_max 1 (Math_ceil (totalPeriodsOf inp / maxPoints inp))
        /\ ((exists s, toZ (sampleStep inp) = Some s)
            \/ Prim2SF (sampleStep inp) = S754_infinity false)
        /\ (forall s, toZ (sampleStep inp) = Some s ->
              1 <= s
              /\ (forall i, In i (map periodIndex (points r))
                            <-> 0 <= i <= N
                                /\ (i = 0 \/ i = N \/ i mod s = 0))
              /\ Z.of_nat (List.length (points r)) <= N / s + 2)
        /\ (forall sgn, Prim2SF (sampleStep inp) = S754_infinity sgn ->
              (forall i, In i (map periodIndex (points r))
                         <-> i = 0 \/ i = N)
              /\ Z.of_nat (List.length (points r)) <= 2)).
Proof.
  intros HN Hsmall.
  destruct (computeProjection_recorded Math_pow inp N HN Hsmall) as (r & Hr & Hidx).
  exists r. split; [assumption|].
  assert (Hlen : List.length (points r) = List.length (recorded inp N)).
  { rewrite <- Hidx. symmetry. apply length_map. }
  rewrite Hidx, Hlen.
  destruct (recorded_first_last inp N HN) as [H0 Hlast].
  repeat (split; [assumption|]).
  split; [|split].
  - intros H. unfold keepAll. rewrite H. reflexivity.
  - now apply recorded_keepAll.
  - intros Hf Hp. pose proof (keepAll_false_of_positive inp Hf Hp) as Hk.
    split; [|split; [|split]].
    + unfold sampleStep. now rewrite Hk.
    + now apply (stride_is_integer_or_infinite inp N).
    + intros s Hs.
      assert (Hs1 : 1 <= s).
      { unfold sampleStep in Hs. rewrite Hk in Hs.
        exact (toZ_Math_max_one _ _ Hs). }
      split; [assumption|]. now apply recorded_stride.
    + intros sgn Hs. now apply (recorded_infinite_stride inp N HN sgn).
Qed.

Lemma sampling_bounds_witness :
  exists r,
    computeProjection sample_pow thirtyYearsBiweekly = Some r
    /\ In 0 (map periodIndex (points r))
    /\ In 780 (map periodIndex (points r))
    /\ (forall i, In i (map periodIndex (points r))
                  <-> 0 <= i <= 780 /\ (i = 0 \/ i = 780 \/ i mod 4 = 0))
    /\ Z.of_nat (List.length (points r)) <= 780 / 4 + 2.
Proof.
  destruct (sampling_bounds sample_pow thirtyYearsBiweekly 780)
    as (r & Hr & H0 & HN & _ & _ & Hs).
  - vm_compute. reflexivity.
  - vm_compute. reflexivity.
  - destruct Hs as (_ & _ & Hs & _).
    + vm_compute. reflexivity.
    + vm_compute. reflexivity.
    + destruct (Hs 4) as (_ & Hiff & Hlen).
      * vm_compute. reflexivity.
      * exists r. repeat split; try assumption; apply Hiff; assumption.
Defined.

(** Keep-all mode on the year of monthly paydays: thirteen points. *)
Lemma sampling_keep_all_example :
  exists r,
    computeProjection sample_pow oneYearMonthly = Some r
    /\ totalPeriods r = 12%float
    /\ List.length (points r) = 13%nat
    /\ finalContrib r = 1200%float
    /\ finalInterest r = 0%float
    /\ finalBalance r = 2200%float.
Proof. eexists. repeat split; vm_compute; reflexivity. Qed.

(** ** When the simulator returns *)

Lemma forCount_none start hi :
  (0x1p53 <=? hi)%float = true -> forCount start hi = None.
Proof.
  intros H. unfold forCount. pose proof H as H'. rewrite leb_spec in H'.
  destruct (Prim2SF hi) as [s|s| |s m e] eqn:E; try discriminate H'.
  - destruct s; [discriminate H'|reflexivity].
  - assert (Hf : floorZ hi = Some (Z.shiftl (cond_Zopp s (Zpos m)) e)).
    { unfold floorZ. rewrite E. reflexivity. }
    apply floorZ_scaled in Hf. destruct Hf as (a & Ha & Hn).
    assert (Hb : scaled (Prim2SF 0x1p53) = Some (2 ^ 53 * 2 ^ 1074)) by reflexivity.
    pose proof (leb_scaled _ _ _ _ H Hb Ha) as L.
    assert (2 ^ 53 <= a / 2 ^ 1074).
    { apply Z.div_le_lower_bound; [apply pow2_1074_pos|]. lia. }
    rewrite <- Hn in H0.
    destruct (Z.leb_spec (2 ^ 53) (Z.shiftl (cond_Zopp s (Zpos m)) e));
      [reflexivity|lia].
Qed.

(** [computeProjection] returns exactly when the horizon is below 2^53
    periods (or NaN); from 2^53 on, and at [+Infinity], the counter of the
    loop stops moving and the loop has no end. *)
Lemma projection_returns_iff Math_pow inp :
  computeProjection Math_pow inp = None
  <-> (0x1p53 <=? totalPeriodsOf inp)%float = true.
Proof.
  split.
  - intros H. destruct (0x1p53 <=? totalPeriodsOf inp)%float eqn:L;
      [reflexivity|].
    destruct (computeProjection_returns Math_pow inp L) as (n & _ & Hr).
    rewrite Hr in H. discriminate H.
  - intros H. unfold computeProjection. now rewrite (forCount_none 1 _ H).
Qed.


(** * The easing of the chart's vertical extent *)

Lemma truthy_not_nan x : truthy x = true -> isNaN x = false.
Proof. unfold truthy, isNaN. destruct (Prim2SF x); congruence. Qed.

(** A number times a finite non-zero constant is not NaN. *)
Lemma mul_finite_not_nan x k s m e :
  isNaN x = false -> Prim2SF k = S754_finite s m e -> isNaN (x * k) = false.
Proof.
  intros Hx Hk. apply isNaN_false. rewrite mul_spec, Hk.
  apply SFmul_finite_not_nan. now apply isNaN_false.
Qed.

Lemma leb_false_ltb x y :
  isNaN x = false -> isNaN y = false ->
  (x <=? y)%float = false -> (y <? x)%float = true.
Proof.
  intros Hx Hy H. destruct (y <? x)%float eqn:L; [reflexivity|].
  rewrite (leb_total y x Hy Hx L) in H. discriminate.
Qed.

(** C4. One step of the easing, from any state, for any number
    [computedYMax] and any reset token.  If the token differs from the last
    one seen, the new [yMaxDisplay] is [computedYMax].  Otherwise, if the old
    value is uninitialized (falsy) or [computedYMax >= old], it is
    [computedYMax].  Otherwise it is the old value times 0.96 (when
    [computedYMax < 0.75 * old]) or times 0.985, floored at [computedYMax].
    In every case the new value is not below [computedYMax], and the token
    is recorded. *)
Theorem easing_step st computedYMax tok :
  (lastScaleResetToken st <> tok ->
   yMaxDisplay (easeYMax st computedYMax tok) = computedYMax)
  /\ (lastScaleResetToken st = tok ->
      truthy (yMaxDisplay st) = false
      \/ (yMaxDisplay st <=? computedYMax)%float = true ->
      yMaxDisplay (easeYMax st computedYMax tok) = computedYMax)
  /\ (lastScaleResetToken st = tok ->
      truthy (yMaxDisplay st) = true ->
      (yMaxDisplay st <=? computedYMax)%float = false ->
      isNaN computedYMax = false ->
      yMaxDisplay (easeYMax st computedYMax tok)
      = if (computedYMax <? yMaxDisplay st * 0.75)%float
        then Math_max computedYMax (yMaxDisplay st * 0.96)
        else Math_max computedYMax (yMaxDisplay st * 0.985))
  /\ (yMaxDisplay (easeYMax st computedYMax tok) <? computedYMax)%float = false
  /\ (isNaN computedYMax = false ->
      (computedYMax <=? yMaxDisplay (easeYMax st computedYMax tok))%float = true)
  /\ lastScaleResetToken (easeYMax st computedYMax tok) = tok.
Proof.
  unfold easeYMax.
  destruct (Z.eqb_spec (lastScaleResetToken st) tok) as [Heq|Hne];
    cbn [negb yMaxDisplay lastScaleResetToken].
  - set (prev := yMaxDisplay st).
    split; [congruence|].
    split.
    { intros _ [H|H].
      - now rewrite H.
      - destruct (truthy prev); [|reflexivity]. now rewrite H. }
    split.
    { intros _ Ht Hle Hc. rewrite Ht, Hle. cbn [negb].
      destruct (computedYMax <? prev * 0.75)%float; [reflexivity|].
      rewrite (leb_false_ltb prev computedYMax (truthy_not_nan _ Ht) Hc Hle).
      reflexivity. }
    split.
    { destruct (truthy prev) eqn:Ht; cbn [negb]; [|apply ltb_irrefl].
      destruct (prev <=? computedYMax)%float eqn:Hle; [apply ltb_irrefl|].
      pose proof (truthy_not_nan _ Ht) as Hp.
      destruct (isNaN computedYMax) eqn:Hc.
      { apply isNaN_true in Hc.
        destruct (computedYMax <? prev * 0.75)%float eqn:L1.
        - rewrite ltb_spec, Hc in L1. discriminate L1.
        - destruct (computedYMax <? prev)%float eqn:L2.
          + rewrite ltb_spec, Hc in L2. discriminate L2.
          + rewrite ltb_spec, Hc. apply SFltb_nan_r. }
      assert (H96 : isNaN (prev * 0.96) = false)
        by (eapply mul_finite_not_nan; [assumption|reflexivity]).
      assert (H985 : isNaN (prev * 0.985) = false)
        by (eapply mul_finite_not_nan; [assumption|reflexivity]).
      rewrite (leb_false_ltb prev computedYMax Hp Hc Hle).
      destruct (computedYMax <? prev * 0.75)%float;
        apply leb_not_ltb; now apply Math_max_ge_l. }
    split.
    { intros Hc.
      destruct (truthy prev) eqn:Ht; cbn [negb]; [|now apply leb_refl].
      destruct (prev <=? computedYMax)%float eqn:Hle; [now apply leb_refl|].
      pose proof (truthy_not_nan _ Ht) as Hp.
      assert (H96 : isNaN (prev * 0.96) = false)
        by (eapply mul_finite_not_nan; [assumption|reflexivity]).
      assert (H985 : isNaN (prev * 0.985) = false)
        by (eapply mul_finite_not_nan; [assumption|reflexivity]).
      rewrite (leb_false_ltb prev computedYMax Hp Hc Hle).
      destruct (computedYMax <? prev * 0.75)%float; now apply Math_max_ge_l. }
    assumption.
  - split; [reflexivity|]. split; [contradiction|]. split; [contradiction|].
    split; [apply ltb_irrefl|]. split; [apply leb_refl|reflexivity].
Qed.

(** The walk of the worked example: the first data snaps the extent up to
    1000; data of 400 eases it to 960 rather than to 400; a reset snaps it
    to 400. *)
Lemma easing_step_witness :
  yMaxDisplay (easeYMax initialScale 1000 0) = 1000%float
  /\ yMaxDisplay (easeYMax (easeYMax initialScale 1000 0) 400 0) = 960%float
  /\ yMaxDisplay
       (easeYMax (easeYMax (easeYMax initialScale 1000 0) 400 0) 400 1)
     = 400%float.
Proof.
  split; [|split].
  - destruct (easing_step initialScale 1000 0) as (_ & H & _).
    apply H; [reflexivity|]. left. reflexivity.
  - destruct (easing_step (easeYMax initialScale 1000 0) 400 0)
      as (_ & _ & H & _).
    rewrite H; reflexivity.
  - destruct (easing_step (easeYMax (easeYMax initialScale 1000 0) 400 0) 400 1)
      as (H & _).
    apply H. vm_compute. discriminate.
Defined.

(** * The windfall scheduler *)

Lemma clampInt_range n lo hi :
  (lo <=? hi)%float = true ->
  (lo <=? clampInt n lo hi)%float = true
  /\ (clampInt n lo hi <=? hi)%float = true.
Proof.
  intros H. destruct (leb_not_nan _ _ H) as [Hlo Hhi]. unfold clampInt.
  destruct (Number_isFinite (Math_round n)) eqn:Hf; cbn [negb].
  - apply clamp_range; [assumption|].
    unfold Number_isFinite in Hf. unfold isNaN.
    destruct (Prim2SF (Math_round n)); congruence.
  - split; [now apply leb_refl|assumption].
Qed.

(** C5 (as amended). The scheduler answers [null] exactly when the policy
    is none of "now", "year", "age" and "payday"; it is not given the
    windfall amount and does not test [totalPeriods] for zero: "now" always
    answers 1.  When [totalPeriods] is at least 1, every answer lies in
    [1, totalPeriods].  It is [computeProjection] that applies no windfall
    when the amount is at most 0 or when the horizon is 0. *)
Theorem windfall_schedule c :
  (windfallPeriodFromChoice c = None
   <-> when c <> "now"%string /\ when c <> "year"%string /\ when c <> "age"%string
       /\ when c <> "payday"%string)
  /\ (when c = "now"%string -> windfallPeriodFromChoice c = Some 1%float)
  /\ ((1 <=? wf_totalPeriods c)%float = true ->
      forall p, windfallPeriodFromChoice c = Some p ->
                (1 <=? p)%float = true /\ (p <=? wf_totalPeriods c)%float = true)
  /\ (forall Math_pow inp,
        (windfallAmount inp <=? 0)%float = true
        \/ totalPeriodsOf inp = 0%float ->
        computeProjection Math_pow inp
        = computeProjection Math_pow (withWindfallAmount inp 0)).
Proof.
  unfold windfallPeriodFromChoice.
  split; [|split; [|split]].
  - destruct (String.eqb_spec (when c) EmptyString) as [E|_];
      [rewrite E; split; [repeat split; discriminate|reflexivity]|].
    destruct (String.eqb_spec (when c) "none"%string) as [E|_];
      [rewrite E; split; [repeat split; discriminate|reflexivity]|].
    destruct (String.eqb_spec (when c) "now"%string) as [E|N1];
      [split; [discriminate|tauto]|].
    destruct (String.eqb_spec (when c) "year"%string) as [E|N2];
      [split; [discriminate|tauto]|].
    destruct (String.eqb_spec (when c) "age"%string) as [E|N3];
      [split; [discriminate|tauto]|].
    destruct (String.eqb_spec (when c) "payday"%string) as [E|N4];
      [split; [discriminate|tauto]|].
    tauto.
  - intros ->. reflexivity.
  - intros Ht p.
    destruct (String.eqb (when c) EmptyString); [discriminate|].
    destruct (String.eqb (when c) "none"%string); [discriminate|].
    destruct (String.eqb (when c) "now"%string).
    { intros [= <-]. split; [reflexivity|assumption]. }
    destruct (String.eqb (when c) "year"%string);
      [intros [= <-]; now apply clampInt_range|].
    destruct (String.eqb (when c) "age"%string);
      [intros [= <-]; now apply clampInt_range|].
    destruct (String.eqb (when c) "payday"%string);
      [intros [= <-]; now apply clampInt_range|discriminate].
  - intros Math_pow inp [Ha|Hz].
    + unfold computeProjection.
      change (totalPeriodsOf (withWindfallAmount inp 0)) with (totalPeriodsOf inp).
      destruct (forCount 1 (totalPeriodsOf inp)) as [n|] eqn:Hn; [|reflexivity].
      f_equal.
      change (initialVars (withWindfallAmount inp 0)) with (initialVars inp).
      rewrite <- periods_without_windfall; [reflexivity|].
      intros k Hk. apply (dead_windfall_never_hits inp n); try assumption.
      right. right. left. assumption.
    + unfold computeProjection.
      change (totalPeriodsOf (withWindfallAmount inp 0)) with (totalPeriodsOf inp).
      rewrite Hz. reflexivity.
Qed.

Lemma windfall_schedule_witness :
  exists p,
    windfallPeriodFromChoice yearThreeOfThirtyFive = Some p
    /\ (1 <=? p)%float = true /\ (p <=? 910)%float = true.
Proof.
  exists 78%float. split; [vm_compute; reflexivity|].
  apply (windfall_schedule yearThreeOfThirtyFive); vm_compute; reflexivity.
Defined.

(** C5 as stated fails: with no period left, "now" still answers 1, which
    is not "no windfall" and is not within [1, totalPeriods]. *)
Lemma schedule_now_without_periods :
  wf_totalPeriods nowWithNoPeriods = 0%float
  /\ windfallPeriodFromChoice nowWithNoPeriods = Some 1%float
  /\ (1 <=? wf_totalPeriods nowWithNoPeriods)%float = false.
Proof. repeat split. Qed.

(** * Ticks *)

(** ** Lists of ticks *)

Lemma insertTick_In x y l : In x (insertTick y l) <-> x = y \/ In x l.
Proof.
  induction l as [|z l IH]; simpl.
  - intuition.
  - destruct (y - z <? 0)%float; simpl; [intuition|]. rewrite IH. intuition.
Qed.

Lemma sortTicks_In x l : In x (sortTicks l) <-> In x l.
Proof.
  unfold sortTicks.
  assert (G : forall acc, In x (fold_left (fun sorted y => insertTick y sorted) l acc)
                          <-> In x l \/ In x acc).
  { induction l as [|y l IH]; intros acc; simpl.
    - intuition.
    - rewrite IH, insertTick_In. intuition. }
  rewrite G. simpl. intuition.
Qed.

Lemma dedupe_In x seen l : In x (dedupe seen l) -> In x l.
Proof.
  revert seen. induction l as [|y l IH]; intros seen; simpl; [auto|].
  destruct (existsb (sameValueZero y) seen); simpl.
  - intros H. right. eapply IH; eassumption.
  - intros [H|H]; [now left|]. right. eapply IH; eassumption.
Qed.

Lemma dedupe_head x l : In x (dedupe [] (x :: l)).
Proof. simpl. now left. Qed.

Lemma Forall_nth_default {A} (P : A -> Prop) l d i :
  Forall P l -> P d -> P (nth i l d).
Proof.
  intros Hl Hd. revert i. induction Hl as [|x l Hx Hl IH]; intros [|i]; simpl; auto.
Qed.

Lemma Forall_last_default {A} (P : A -> Prop) l d :
  Forall P l -> P d -> P (last l d).
Proof.
  intros Hl Hd. induction Hl as [|x l Hx Hl IH]; simpl; auto.
  destruct l; auto.
Qed.

Section TickLists.

Variable P : float -> Prop.
Hypothesis P_zero : P 0%float.

Lemma thinTicks_Forall uniq : Forall P uniq -> Forall P (thinTicks uniq).
Proof.
  intros H. unfold thinTicks. apply Forall_app. split; [|apply Forall_app; split].
  - constructor; [assumption|constructor].
  - apply Forall_flat_map. apply Forall_forall. intros i _.
    destruct (Nat.odd i); [|constructor].
    constructor; [|constructor]. now apply Forall_nth_default.
  - constructor; [|constructor]. now apply Forall_last_default.
Qed.

Lemma sortTicks_Forall l : Forall P l -> Forall P (sortTicks l).
Proof.
  rewrite !Forall_forall. intros H x Hx. apply H. now apply sortTicks_In.
Qed.

Lemma dedupe_Forall seen l : Forall P l -> Forall P (dedupe seen l).
Proof.
  rewrite !Forall_forall. intros H x Hx. apply H. eapply dedupe_In; eassumption.
Qed.

End TickLists.

Section LogTicks.

Variable Math_pow : float -> float -> float.
Variable Math_log10 : float -> float.

Lemma powerLoop_Forall (Q : float -> Prop) m :
  (forall p, Forall Q (ticksAtPower Math_pow m p)) ->
  forall n p ticks, Forall Q ticks ->
  Forall Q (powerLoop Math_pow n p m ticks).
Proof.
  intros H. induction n as [|n IH]; intros p ticks Ht; simpl; [assumption|].
  apply IH. apply Forall_app. split; [assumption|apply H].
Qed.

Lemma powerLoop_head n p m x ticks :
  exists l, powerLoop Math_pow n p m (x :: ticks) = x :: l.
Proof.
  revert p ticks. induction n as [|n IH]; intros p ticks; simpl.
  - eexists. reflexivity.
  - apply IH.
Qed.

Lemma orElse_not_nan x : isNaN (orElse x 1) = false.
Proof.
  unfold orElse. destruct (truthy x) eqn:E; [now apply truthy_not_nan|reflexivity].
Qed.

Lemma logBound_not_nan max : isNaN (logBound max) = false.
Proof.
  unfold logBound.
  destruct (Math_max_cases 1 (orElse max 1) eq_refl (orElse_not_nan max))
    as [[-> _]|[-> _]]; [reflexivity|apply orElse_not_nan].
Qed.

(** Every tick is a number. *)
Lemma ticksAtPower_not_nan m p :
  Forall (fun t => isNaN t = false) (ticksAtPower Math_pow m p).
Proof.
  unfold ticksAtPower. apply Forall_forall. intros v Hv.
  apply filter_In in Hv. destruct Hv as [_ Hv].
  now destruct (leb_not_nan _ _ Hv).
Qed.

Lemma makeLogTicks_shape (Q : float -> Prop) max ticks :
  Q 0%float -> Q (logBound max) ->
  (forall p, Forall Q (ticksAtPower Math_pow (logBound max) p)) ->
  makeLogTicks Math_pow Math_log10 max = Some ticks ->
  In 0%float ticks /\ Forall Q ticks.
Proof.
  intros Q0 Qm Qp. unfold makeLogTicks. fold (logBound max).
  destruct (forCount 0 _) as [n|]; [|discriminate].
  set (raw := powerLoop Math_pow n 0 (logBound max) [0%float]).
  set (ticks1 := if negb (last raw 0 =? logBound max)%float
                 then raw ++ [logBound max] else raw).
  assert (Hraw : Forall Q raw).
  { apply powerLoop_Forall; [assumption|]. constructor; [assumption|constructor]. }
  assert (H1 : Forall Q ticks1).
  { unfold ticks1. destruct (negb (last raw 0 =? logBound max)%float); [|assumption].
    apply Forall_app. split; [assumption|]. constructor; [assumption|constructor]. }
  assert (Hhead : exists l, ticks1 = 0%float :: l).
  { destruct (powerLoop_head n 0 (logBound max) 0%float []) as [l Hl].
    unfold ticks1, raw. rewrite Hl.
    destruct (negb (last (0%float :: l) 0 =? logBound max)%float);
      eexists; reflexivity. }
  destruct Hhead as [l Hl].
  assert (Hu : Forall Q (sortTicks (dedupe [] ticks1))).
  { apply sortTicks_Forall. now apply dedupe_Forall. }
  assert (H0 : In 0%float (sortTicks (dedupe [] ticks1))).
  { apply sortTicks_In. rewrite Hl. apply dedupe_head. }
  destruct (List.length _ <=? 7)%nat; intros [= <-].
  - split; assumption.
  - split; [now left|]. now apply thinTicks_Forall.
Qed.

(** Ticks are finite when the bound is and the host's powers of ten are not
    negative. *)
Hypothesis pow_not_negative :
  forall y, signbit (Math_pow 10 y) = false.

Lemma logBound_finite max :
  Prim2SF max <> S754_infinity false -> Number_isFinite (logBound max) = true.
Proof.
  intros H. unfold logBound.
  assert (Ho : Prim2SF (orElse max 1) <> S754_infinity false).
  { unfold orElse. destruct (truthy max); [assumption|discriminate]. }
  pose proof (orElse_not_nan max) as Hn.
  destruct (Math_max_cases 1 (orElse max 1) eq_refl Hn) as [[-> _]|[-> L]];
    [reflexivity|].
  unfold Number_isFinite. unfold isNaN in Hn.
  rewrite leb_spec in L. change (Prim2SF 1) with (S754_finite false 4503599627370496 (-52)) in L.
  destruct (Prim2SF (orElse max 1)) as [s|s| |s m e]; try reflexivity;
    try discriminate. destruct s; [discriminate L|congruence].
Qed.

Lemma tick_finite b m p :
  Prim2SF b = S754_finite false m p ->
  forall bound y,
    Number_isFinite bound = true ->
    (b * Math_pow 10 y <=? bound)%float = true ->
    Number_isFinite (b * Math_pow 10 y) = true.
Proof.
  intros Hb bound y Hf Hle.
  pose proof (pow_not_negative y) as Hs. unfold signbit in Hs.
  rewrite leb_spec in Hle. unfold Number_isFinite in *.
  rewrite mul_spec in *. rewrite Hb in *. unfold SF64mul in *.
  destruct (SFmul_signed (S754_finite false m p) (Prim2SF (Math_pow 10 y)))
    as [E|E].
  - rewrite E in Hle. discriminate Hle.
  - assert (Hx : xorb (SFsign (S754_finite false m p))
                      (SFsign (Prim2SF (Math_pow 10 y))) = false).
    { simpl. destruct (Prim2SF (Math_pow 10 y)); simpl in *; congruence. }
    rewrite Hx in E.
    destruct (SFmul prec emax _ _) as [s|s| |s m' e']; try reflexivity;
      simpl in E; try contradiction. subst s.
    destruct (Prim2SF bound) as [s|s| |s m' e']; try discriminate;
      destruct s; discriminate.
Qed.

Lemma ticksAtPower_finite bound p :
  Number_isFinite bound = true ->
  Forall (fun t => Number_isFinite t = true) (ticksAtPower Math_pow bound p).
Proof.
  intros Hf. unfold ticksAtPower. apply Forall_forall. intros v Hv.
  apply filter_In in Hv. destruct Hv as [Hv Hle].
  simpl in Hv. destruct Hv as [<-|[<-|[<-|[]]]];
    eapply tick_finite; try eassumption; reflexivity.
Qed.

End LogTicks.

Section LogTickCases.

Variable Math_pow : float -> float -> float.
Variable Math_log10 : float -> float.

Lemma logBound_degenerate max :
  isNaN max = true \/ (max <=? 0)%float = true -> logBound max = 1%float.
Proof.
  intros H. unfold logBound, orElse.
  destruct (truthy max) eqn:Ht; [|reflexivity].
  destruct H as [H|H].
  - rewrite (truthy_not_nan _ Ht) in H. discriminate H.
  - destruct (Math_max_cases 1 max eq_refl (truthy_not_nan _ Ht))
      as [[-> _]|[_ L]]; [reflexivity|].
    pose proof (leb_trans _ _ _ L H) as C. discriminate C.
Qed.

(** A bound of 1 gives the ticks 0 and 1, on a host with [log10(1) = 0] and
    [pow(10, 0) = 1]. *)
Lemma makeLogTicks_degenerate max :
  Math_log10 1 = 0%float -> Math_pow 10 0 = 1%float ->
  isNaN max = true \/ (max <=? 0)%float = true ->
  makeLogTicks Math_pow Math_log10 max = Some [0; 1]%float.
Proof.
  intros Hlog Hpow H. unfold makeLogTicks. fold (logBound max).
  rewrite (logBound_degenerate max H), Hlog.
  change (forCount 0 (Math_floor 0)) with (Some 1%nat).
  cbn [powerLoop]. unfold ticksAtPower. change (Z2F 0) with 0%float.
  rewrite Hpow. reflexivity.
Qed.

(** At [+Infinity] the loop over the powers has no end, on a host with
    [log10(+Infinity) = +Infinity]. *)
Lemma makeLogTicks_infinity :
  Math_log10 infinity = infinity ->
  makeLogTicks Math_pow Math_log10 infinity = None.
Proof.
  intros Hlog. unfold makeLogTicks.
  change (Math_max 1 (orElse infinity 1)) with infinity.
  rewrite Hlog. reflexivity.
Qed.

End LogTickCases.

(** ** Linear ticks *)

Section LinearTicks.

Variable Math_pow : float -> float -> float.
Variable Math_log10 : float -> float.

Lemma pickTicks_degenerate fuel min max targetTicks :
  Number_isFinite min = false \/ Number_isFinite max = false
  \/ (max <=? min)%float = true ->
  pickTicks Math_pow Math_log10 fuel min max targetTicks = Some [].
Proof.
  intros H. unfold pickTicks.
  destruct H as [H|[H|H]]; rewrite H; cbn [negb orb];
    rewrite ?orb_true_r; reflexivity.
Qed.

(** A loop whose counter has reached an infinity that the step does not
    move, and that still passes the test, has no end. *)
Lemma tickLoop_stuck fuel v bound step ticks :
  (v + step)%float = v -> (v <=? bound)%float = true ->
  tickLoop fuel v bound step ticks = None.
Proof.
  intros Hs Hb. revert ticks. induction fuel as [|fuel IH]; intros ticks;
    [reflexivity|].
  simpl. rewrite Hb, Hs. apply IH.
Qed.

Lemma counterOK_next v step :
  Number_isFinite v = true -> counterOK (v + step) step.
Proof.
  intros Hv. unfold counterOK.
  destruct (Prim2SF (v + step)) as [s|s| |s m e] eqn:E.
  - left. unfold Number_isFinite. now rewrite E.
  - right. right. apply Prim2SF_inj. rewrite E.
    now apply SFadd_infinity_absorbs.
  - right. left. unfold isNaN. now rewrite E.
  - left. unfold Number_isFinite. now rewrite E.
Qed.

Lemma tickLoop_finite fuel v bound step acc ticks :
  counterOK v step ->
  Forall (fun t => Number_isFinite t = true) acc ->
  tickLoop fuel v bound step acc = Some ticks ->
  Forall (fun t => Number_isFinite t = true) ticks.
Proof.
  revert v acc. induction fuel as [|fuel IH]; intros v acc Hv Hacc; simpl;
    [discriminate|].
  destruct (v <=? bound)%float eqn:Hb; [|now intros [= <-]].
  destruct Hv as [Hv|[Hv|Hv]].
  - apply IH.
    + now apply counterOK_next.
    + apply Forall_app. split; [assumption|]. constructor; [assumption|constructor].
  - destruct (leb_not_nan _ _ Hb) as [C _]. rewrite Hv in C. discriminate C.
  - rewrite Hv. rewrite (tickLoop_stuck fuel v bound step _ Hv Hb). discriminate.
Qed.

Lemma tickLoop_head fuel v bound step acc ticks :
  tickLoop fuel v bound step acc = Some ticks ->
  ticks = acc \/ exists l, ticks = acc ++ v :: l.
Proof.
  revert v acc. induction fuel as [|fuel IH]; intros v acc; simpl; [discriminate|].
  destruct (v <=? bound)%float; [|intros [= <-]; now left].
  intros H. apply IH in H. right. destruct H as [->|[l ->]].
  - exists []. reflexivity.
  - exists ((v + step)%float :: l). rewrite <- app_assoc. reflexivity.
Qed.

(** Whatever [pickTicks] returns is made of finite numbers and, unless
    empty, starts at 0. *)
Lemma pickTicks_returns fuel min max targetTicks ticks :
  pickTicks Math_pow Math_log10 fuel min max targetTicks = Some ticks ->
  Forall (fun t => Number_isFinite t = true) ticks
  /\ (ticks = [] \/ exists l, ticks = 0%float :: l).
Proof.
  unfold pickTicks.
  destruct (negb (Number_isFinite min) || negb (Number_isFinite max)
            || (max <=? min)%float).
  - intros [= <-]. split; [constructor|now left].
  - intros H. split.
    + eapply tickLoop_finite; [| |exact H]; [left; reflexivity|constructor].
    + apply tickLoop_head in H. destruct H as [->|[l ->]]; [now left|right].
      exists l. reflexivity.
Qed.

(** *** Loops that have no end *)

Lemma leb_infinity_nonneg v :
  nonneg (Prim2SF v) = true -> (v <=? infinity)%float = true.
Proof.
  rewrite leb_spec. change (Prim2SF infinity) with (S754_infinity false).
  destruct (Prim2SF v) as [s|s| |s m e]; try discriminate;
    destruct s; try discriminate; reflexivity.
Qed.

(** With the bound at [+Infinity] and a step that is not negative the
    counter never fails the test, whatever the fuel. *)
Lemma tickLoop_unbounded fuel v step ticks :
  nonneg (Prim2SF v) = true -> nonneg (Prim2SF step) = true ->
  tickLoop fuel v infinity step ticks = None.
Proof.
  intros Hv Hs. revert v ticks Hv.
  induction fuel as [|fuel IH]; intros v ticks Hv; [reflexivity|].
  cbn [tickLoop]. rewrite (leb_infinity_nonneg v Hv).
  apply IH. now apply add_nonneg.
Qed.

Lemma Math_max_infinity_r a :
  isNaN a = false -> Math_max a infinity = infinity.
Proof.
  intros Ha. unfold Math_max. rewrite Ha. cbn [orb].
  change (isNaN infinity) with false. cbv iota.
  rewrite !ltb_spec. change (Prim2SF infinity) with (S754_infinity false).
  unfold isNaN in Ha. unfold signbit.
  destruct (Prim2SF a) as [s|s| |s m e] eqn:E; try discriminate;
    try (destruct s; reflexivity).
  destruct s; [reflexivity|].
  change (SFltb (S754_infinity false) (S754_infinity false)) with false.
  cbv iota. apply Prim2SF_inj. exact E.
Qed.

Lemma half_nonneg step :
  nonneg (Prim2SF step) = true -> nonneg (Prim2SF (step / 2)) = true.
Proof.
  rewrite div_spec. unfold SF64div.
  change (Prim2SF 2) with (S754_finite false 4503599627370496 (-51)).
  destruct (Prim2SF step) as [s|s| |s m e]; try discriminate;
    try (destruct s; try discriminate; intros _; reflexivity).
  destruct s; [discriminate|]. intros _. unfold SFdiv.
  destruct (SFdiv_core_binary _ _ _ _ _ _) as [[mz ez] lz] eqn:C.
  assert (Hmz : 0 <= mz).
  { unfold SFdiv_core_binary in C.
    set (m' := match _ - _ - _ with Zpos _ => _ | Z0 => _ | Zneg _ => _ end)
      in C.
    assert (Hm' : 0 <= m').
    { unfold m'. destruct (_ - _ - _); try lia. apply Z.shiftl_nonneg. lia. }
    pose proof (Z_div_mod m' 4503599627370496 ltac:(lia)) as D.
    destruct (Z.div_eucl m' 4503599627370496) as [q r].
    destruct D as [D1 D2]. injection C as <- _ _. nia. }
  pose proof (binary_round_aux_signed (xorb false false) mz ez lz Hmz) as S.
  destruct (binary_round_aux _ _ _ _ _ _) as [s'|s'| |s' m' e'];
    simpl in S; try contradiction; subst; reflexivity.
Qed.

Lemma add_infinity_l y :
  nonneg (Prim2SF y) = true -> (infinity + y)%float = infinity.
Proof.
  intros Hy. apply Prim2SF_inj. rewrite add_spec.
  change (Prim2SF infinity) with (S754_infinity false).
  destruct (Prim2SF y) as [s|s| |s m e]; try discriminate;
    destruct s; try discriminate; reflexivity.
Qed.

(** When [niceCeil(max)] overflows, [pickTicks] has no end. *)
Lemma pickTicks_overflow fuel min max targetTicks :
  Number_isFinite min = true -> Number_isFinite max = true ->
  (max <=? min)%float = false ->
  (0 <=? niceStep Math_pow Math_log10 (max - min) targetTicks)%float = true ->
  niceCeil Math_pow Math_log10 max = infinity ->
  pickTicks Math_pow Math_log10 fuel min max targetTicks = None.
Proof.
  intros Hmin Hmax Hle Hstep Hceil. unfold pickTicks.
  rewrite Hmin, Hmax, Hle. cbn [negb orb]. rewrite Hceil.
  pose proof (leb_zero_nonneg _ Hstep) as Hs.
  rewrite (Math_max_infinity_r _ (nonneg_not_nan _ Hs)).
  rewrite (add_infinity_l _ (half_nonneg _ Hs)).
  now apply tickLoop_unbounded.
Qed.

End LinearTicks.

(** ** The counter of a loop that runs to [+Infinity] *)

Lemma counterLoop_infinity fuel i :
  nonneg (Prim2SF i) = true -> counterLoop fuel i infinity = None.
Proof.
  revert i. induction fuel as [|fuel IH]; intros i Hi; [reflexivity|].
  cbn [counterLoop]. rewrite (leb_infinity_nonneg i Hi).
  rewrite IH; [reflexivity|]. now apply add_nonneg.
Qed.

(** ** The sample host *)

Lemma sample_pow_not_negative y : signbit (sample_pow 10 y) = false.
Proof.
  unfold sample_pow. destruct (isNaN y); [reflexivity|].
  destruct (truthy y); cbn [negb]; [|reflexivity].
  change (10 =? 1)%float with false. change (10 =? 10)%float with true.
  cbv iota.
  destruct (toZ y) as [k|]; [|reflexivity].
  destruct ((0 <=? k) && (k <=? 18)) eqn:E.
  - apply andb_prop in E. destruct E as [E1 E2].
    apply Z.leb_le in E1, E2.
    assert (H : k = 0 \/ k = 1 \/ k = 2 \/ k = 3 \/ k = 4 \/ k = 5 \/ k = 6
                \/ k = 7 \/ k = 8 \/ k = 9 \/ k = 10 \/ k = 11 \/ k = 12
                \/ k = 13 \/ k = 14 \/ k = 15 \/ k = 16 \/ k = 17 \/ k = 18)
      by lia.
    repeat (destruct H as [->|H]; [vm_compute; reflexivity|]).
    subst k. vm_compute. reflexivity.
  - destruct (k =? 307); [reflexivity|]. destruct (k =? 308); reflexivity.
Qed.

(** In the sample the powers of ten are the exact ones. *)
Lemma sample_pow_exact k :
  0 <= k <= 18 -> toZ (sample_pow 10 (Z2F k)) = Some (10 ^ k).
Proof.
  intros H.
  assert (E : k = 0 \/ k = 1 \/ k = 2 \/ k = 3 \/ k = 4 \/ k = 5 \/ k = 6
              \/ k = 7 \/ k = 8 \/ k = 9 \/ k = 10 \/ k = 11 \/ k = 12
              \/ k = 13 \/ k = 14 \/ k = 15 \/ k = 16 \/ k = 17 \/ k = 18)
    by lia.
  repeat (destruct E as [->|E]; [vm_compute; reflexivity|]).
  subst k. vm_compute. reflexivity.
Qed.

(** ** The number of logarithmic ticks *)

(** C6 fails on the code. At [max = 5000] the thirteen ticks
    0, 1, 2, 5, ..., 1000, 2000, 5000 are thinned once, to eight: more than
    seven.  This holds on every host whose [log10(5000)] lies between 3 and
    4 and whose [pow(10, k)] is exact for [k = 0 .. 3]. *)
Theorem log_ticks_at_5000
  (Math_pow : float -> float -> float) (Math_log10 : float -> float) :
  (Math_floor (Math_log10 5000) = 3)%float ->
  (Math_pow 10 0 = 1)%float -> (Math_pow 10 1 = 10)%float ->
  (Math_pow 10 2 = 100)%float -> (Math_pow 10 3 = 1000)%float ->
  makeLogTicks Math_pow Math_log10 5000
  = Some [0; 1; 5; 20; 100; 500; 2000; 5000]%float.
Proof.
  intros Hlog H0 H1 H2 H3. unfold makeLogTicks.
  change (Math_max 1 (orElse 5000 1)) with 5000%float.
  rewrite Hlog. change (forCount 0 3) with (Some 4%nat).
  cbn [powerLoop]. unfold ticksAtPower.
  change (Z2F 0) with 0%float. change (Z2F (0 + 1)) with 1%float.
  change (Z2F (0 + 1 + 1)) with 2%float.
  change (Z2F (0 + 1 + 1 + 1)) with 3%float.
  rewrite H0, H1, H2, H3. vm_compute. reflexivity.
Qed.

Lemma log_ticks_at_5000_witness :
  makeLogTicks sample_pow sample_log10 5000
  = Some [0; 1; 5; 20; 100; 500; 2000; 5000]%float.
Proof.
  apply (log_ticks_at_5000 sample_pow sample_log10); vm_compute; reflexivity.
Defined.

(** ** Tick safety *)

(** C7 fails on the code.  Two calls never return.  [makeLogTicks] at
    [+Infinity] (on a host with [log10(+Infinity) = +Infinity]): the loop
    over the powers runs to [+Infinity], which its counter, a double
    incremented by 1, never passes.  [pickTicks] for finite bounds with
    [min < max], a step that is not negative and a [niceCeil(max)] that
    overflows to [+Infinity]: the test [v <= niceMax + step / 2] never
    fails and the loop pushes ticks without end, whatever the fuel. *)
Theorem ticks_without_end
  (Math_pow : float -> float -> float) (Math_log10 : float -> float) :
  (Math_log10 infinity = infinity ->
   makeLogTicks Math_pow Math_log10 infinity = None
   /\ forall fuel,
        counterLoop fuel 0
          (Math_floor (Math_log10 (Math_max 1 (orElse infinity 1))))
        = None)
  /\ (forall min max targetTicks,
        Number_isFinite min = true -> Number_isFinite max = true ->
        (max <=? min)%float = false ->
        (0 <=? niceStep Math_pow Math_log10 (max - min) targetTicks)%float
        = true ->
        niceCeil Math_pow Math_log10 max = infinity ->
        forall fuel,
          pickTicks Math_pow Math_log10 fuel min max targetTicks = None).
Proof.
  split.
  - intros Hlog. split; [now apply makeLogTicks_infinity|].
    intros fuel. change (Math_max 1 (orElse infinity 1)) with infinity.
    rewrite Hlog. change (Math_floor infinity) with infinity.
    now apply counterLoop_infinity.
  - intros min max targetTicks Hmin Hmax Hle Hstep Hceil fuel.
    now apply pickTicks_overflow.
Qed.

(** The two calls on the sample host: [makeLogTicks(Infinity)], and
    [pickTicks(0, 1.5e308, 3)], where the step is 5e307 and
    [niceCeil(1.5e308)] is [2 * 1e308], which overflows. *)
Lemma ticks_without_end_witness :
  makeLogTicks sample_pow sample_log10 infinity = None
  /\ niceStep sample_pow sample_log10 (1.5e308 - 0) 3 = 5e307%float
  /\ niceCeil sample_pow sample_log10 1.5e308 = infinity
  /\ forall fuel,
       pickTicks sample_pow sample_log10 fuel 0 1.5e308 3 = None.
Proof.
  destruct (ticks_without_end sample_pow sample_log10) as [Hlog Hpick].
  split; [apply Hlog; reflexivity|].
  split; [vm_compute; reflexivity|].
  split; [vm_compute; reflexivity|].
  apply Hpick; vm_compute; reflexivity.
Defined.

(** The guard of [pickTicks] answers the empty list, which holds no 0, for
    the bounds [min = max = 5]. *)
Lemma ticks_without_zero :
  pickTicks sample_pow sample_log10 1 5 5 4 = Some []
  /\ ~ In 0%float (@nil float).
Proof. split; [reflexivity|]. intros []. Qed.
(** * The callers of the simulator *)

(** ** Integers among the numbers *)

Lemma toZ_not_nan x z : toZ x = Some z -> isNaN x = false.
Proof. unfold toZ, isNaN. destruct (Prim2SF x); congruence. Qed.

Lemma toZ_finite x z : toZ x = Some z -> Number_isFinite x = true.
Proof. unfold toZ, Number_isFinite. destruct (Prim2SF x); congruence. Qed.

Lemma toZ_leb x y a b :
  toZ x = Some a -> toZ y = Some b -> a <= b -> (x <=? y)%float = true.
Proof.
  intros Hx Hy L. destruct (x <=? y)%float eqn:E; [reflexivity|].
  pose proof (leb_false_ltb x y (toZ_not_nan _ _ Hx) (toZ_not_nan _ _ Hy) E) as F.
  pose proof (ltb_toZ _ _ _ _ F Hy Hx). lia.
Qed.

Lemma toZ_ltb x y a b :
  toZ x = Some a -> toZ y = Some b -> a < b -> (x <? y)%float = true.
Proof.
  intros Hx Hy L. destruct (x <? y)%float eqn:E; [reflexivity|].
  pose proof (leb_total x y (toZ_not_nan _ _ Hx) (toZ_not_nan _ _ Hy) E) as F.
  pose proof (leb_toZ _ _ _ _ F Hy Hx). lia.
Qed.

(** [clampInt] between integers is an integer between them. *)
Lemma clampInt_integer n lo hi a b :
  toZ lo = Some a -> toZ hi = Some b -> a <= b ->
  exists p, toZ (clampInt n lo hi) = Some p /\ a <= p <= b.
Proof.
  intros Ha Hb L.
  pose proof (toZ_leb _ _ _ _ Ha Hb L) as Hle.
  destruct (clampInt_range n lo hi Hle) as [R1 R2].
  assert (I : exists p, toZ (clampInt n lo hi) = Some p).
  { unfold clampInt in *.
    destruct (Number_isFinite (Math_round n)) eqn:Hf; cbn [negb] in *.
    - destruct (Math_round_integer n (Math_round_finite _ Hf)) as [z Hz].
      pose proof (toZ_not_nan _ _ Ha) as Na.
      pose proof (toZ_not_nan _ _ Hb) as Nb.
      pose proof (toZ_not_nan _ _ Hz) as Nz.
      destruct (Math_max_cases lo (Math_round n) Na Nz) as [[E _]|[E _]];
        rewrite E in *.
      + destruct (Math_min_cases hi lo Nb Na) as [[E' _]|[E' _]];
          rewrite E'; eauto.
      + destruct (Math_min_cases hi (Math_round n) Nb Nz) as [[E' _]|[E' _]];
          rewrite E'; eauto.
    - eauto. }
  destruct I as [p Hp]. exists p. split; [assumption|].
  pose proof (leb_toZ _ _ _ _ R1 Ha Hp).
  pose proof (leb_toZ _ _ _ _ R2 Hp Hb). lia.
Qed.

Lemma Math_round_not_finite n :
  Number_isFinite n = false -> Number_isFinite (Math_round n) = false.
Proof.
  unfold Math_round, Number_isFinite.
  destruct (Prim2SF n) as [s|s| |s m e] eqn:E; try discriminate;
    rewrite E; auto.
Qed.

(** X6. [clampInt] (lines 776-780): a number that is not finite, [+Infinity]
    included, is sent to the lower bound; between integer bounds [a <= b] the
    answer is an integer between them, whatever the number. *)
Theorem clampInt_edges n lo hi :
  (Number_isFinite n = false -> clampInt n lo hi = lo)
  /\ (forall a b, toZ lo = Some a -> toZ hi = Some b -> a <= b ->
      exists p, toZ (clampInt n lo hi) = Some p /\ a <= p <= b).
Proof.
  split.
  - intros Hn. unfold clampInt. now rewrite (Math_round_not_finite n Hn).
  - intros a b. apply clampInt_integer.
Qed.

(** ** The pay frequency *)

Lemma payPeriodsPerYearOf_cases k :
  (k = "daily"%string /\ payPeriodsPerYearOf k = 365%float)
  \/ (k = "weekly"%string /\ payPeriodsPerYearOf k = 52%float)
  \/ (k = "biweekly"%string /\ payPeriodsPerYearOf k = 26%float)
  \/ (k = "monthly"%string /\ payPeriodsPerYearOf k = 12%float)
  \/ (~ In k (map key PAY_FREQUENCIES) /\ payPeriodsPerYearOf k = 12%float).
Proof.
  unfold payPeriodsPerYearOf, PAY_FREQUENCIES. cbn [find key pf_periods map].
  destruct (String.eqb_spec "daily" k) as [<-|N1]; [now left|].
  destruct (String.eqb_spec "weekly" k) as [<-|N2]; [now right; left|].
  destruct (String.eqb_spec "biweekly" k) as [<-|N3];
    [now right; right; left|].
  destruct (String.eqb_spec "monthly" k) as [<-|N4];
    [now right; right; right; left|].
  right; right; right; right. split; [|reflexivity].
  cbn [In]. intuition congruence.
Qed.

(** X7. The pay frequency the memos pass on (lines 1130-1132) is 365, 52, 26 or
    12, and 12 for a key that is not in the table; it is positive, so the
    simulator always compounds: the rate of a period is [pow(1 + r/100,
    1/payPeriodsPerYear) - 1], never the fallback 0. *)
Theorem app_pay_frequency (Math_pow : float -> float -> float) f r :
  let inp := projectionInputAt f r in
  In (payPeriodsPerYear inp) [365; 52; 26; 12]%float
  /\ (~ In (form_frequencyKey f) (map key PAY_FREQUENCIES) ->
      payPeriodsPerYear inp = 12%float)
  /\ rPerPeriod Math_pow inp
     = (Math_pow (1 + r / 100) (1 / payPeriodsPerYear inp) - 1)%float.
Proof.
  cbv zeta. unfold rPerPeriod, rAnnual.
  cbn [payPeriodsPerYear annualRatePct projectionInputAt].
  destruct (payPeriodsPerYearOf_cases (form_frequencyKey f))
    as [[Hk E]|[[Hk E]|[[Hk E]|[[Hk E]|[Hk E]]]]]; rewrite E;
    (split; [cbn [In]; tauto|split; [|reflexivity]]);
    intros Hn; try reflexivity; exfalso; apply Hn; rewrite Hk;
    cbn; tauto.
Qed.

(** ** The scheduler and the simulator together *)

Lemma strictEqZ_integer p z i : toZ p = Some z -> strictEqZ p i = (z =? i).
Proof. intros H. unfold strictEqZ. now rewrite H. Qed.

(** The horizon the memos compute for the scheduler is the horizon of the
    simulator. *)
Lemma scheduledPeriod_horizon f r :
  scheduledPeriod f
  = windfallPeriodFromChoice
      {| when := form_windfallWhen f;
         atYear := form_windfallAtYear f;
         atAge := form_windfallAtAge f;
         atPayday := form_windfallAtPayday f;
         wf_currentAge := clampInt (form_currentAge f) 0 120;
         wf_payPeriodsPerYear := payPeriodsPerYearOf (form_frequencyKey f);
         wf_totalPeriods := totalPeriodsOf (projectionInputAt f r) |}.
Proof. reflexivity. Qed.

Lemma scheduled_integer c N :
  toZ (wf_totalPeriods c) = Some N -> 1 <= N ->
  forall p, windfallPeriodFromChoice c = Some p ->
  exists z, toZ p = Some z /\ 1 <= z <= N.
Proof.
  intros HN L p. unfold windfallPeriodFromChoice.
  destruct (String.eqb (when c) EmptyString); [discriminate|].
  destruct (String.eqb (when c) "none"); [discriminate|].
  destruct (String.eqb (when c) "now").
  { intros [= <-]. exists 1. split; [exact toZ_one|lia]. }
  destruct (String.eqb (when c) "year").
  { intros [= <-]. exact (clampInt_integer _ _ _ _ _ toZ_one HN L). }
  destruct (String.eqb (when c) "age").
  { intros [= <-]. exact (clampInt_integer _ _ _ _ _ toZ_one HN L). }
  destruct (String.eqb (when c) "payday"); [|discriminate].
  intros [= <-]. exact (clampInt_integer _ _ _ _ _ toZ_one HN L).
Qed.

(** X2. In the app, a windfall of a finite positive amount that the scheduler
    places (any policy but none) lands on exactly one payday of the projection,
    provided one payday at least is left: the scheduler and the simulator agree
    on the horizon, and every answer of the scheduler is an integer period
    within it. *)
Theorem scheduled_windfall_lands_once f r N p :
  toZ (totalPeriodsOf (projectionInputAt f r)) = Some N -> 1 <= N ->
  Number_isFinite (form_windfallAmount f) = true ->
  (0 <? form_windfallAmount f)%float = true ->
  scheduledPeriod f = Some p ->
  exists z, toZ p = Some z /\ 1 <= z <= N
    /\ forall i, windfallHits (projectionInputAt f r) i = true <-> i = z.
Proof.
  intros HN L Hf Hpos Hp.
  rewrite (scheduledPeriod_horizon f r) in Hp.
  pose proof Hp as Hp'.
  apply (scheduled_integer _ N) in Hp'; [|exact HN|exact L].
  destruct Hp' as (z & Hz & Hr).
  exists z. split; [assumption|]. split; [assumption|].
  intros i. unfold windfallHits.
  cbn [windfallAmount windfallAtPeriod projectionInputAt].
  rewrite Hf, Hpos. cbn [andb].
  rewrite (scheduledPeriod_horizon f r), Hp, (strictEqZ_integer _ _ _ Hz).
  rewrite Z.eqb_eq. lia.
Qed.

Lemma scheduled_windfall_lands_once_witness :
  exists z, toZ 78 = Some z /\ 1 <= z <= 910
    /\ forall i, windfallHits (projectionInputAt bonusInYearThree 7) i = true
                 <-> i = z.
Proof.
  apply (scheduled_windfall_lands_once bonusInYearThree 7 910 78);
    try (vm_compute; reflexivity). lia.
Defined.
(** * Rounding against representable bounds *)

(** ** What [binary_round_aux] returns *)

Lemma shr_1_exact r :
  shr_r r = false -> shr_s r = false -> Z.even (shr_m r) = true ->
  shr_r (shr_1 r) = false /\ shr_s (shr_1 r) = false.
Proof.
  destruct r as [m r s]. simpl. intros -> -> He.
  destruct m as [|[p|p|]|[p|p|]]; try discriminate He; split; reflexivity.
Qed.

Lemma shr_iter_exact n r :
  0 <= shr_m r -> shr_r r = false -> shr_s r = false ->
  shr_m r mod 2 ^ Z.of_nat n = 0 ->
  shr_m (Nat.iter n shr_1 r) = shr_m r / 2 ^ Z.of_nat n
  /\ shr_r (Nat.iter n shr_1 r) = false
  /\ shr_s (Nat.iter n shr_1 r) = false.
Proof.
  intros Hm Hr Hs. induction n as [|n IH]; intros Hd.
  - simpl. rewrite Z.div_1_r. auto.
  - assert (Hp : 0 < 2 ^ Z.of_nat n) by (apply pow2_pos; lia).
    assert (E : 2 ^ Z.of_nat (S n) = 2 ^ Z.of_nat n * 2).
    { rewrite Nat2Z.inj_succ, Z.pow_succ_r by lia. lia. }
    rewrite E in Hd.
    assert (Hd' : shr_m r mod 2 ^ Z.of_nat n = 0).
    { apply Z.mod_divide in Hd; [|lia]. apply Z.mod_divide; [lia|].
      destruct Hd as [k Hk]. exists (k * 2). lia. }
    destruct (IH Hd') as (I1 & I2 & I3).
    assert (Hq : 0 <= shr_m (Nat.iter n shr_1 r)).
    { rewrite I1. apply Z.div_pos; lia. }
    assert (Hev : Z.even (shr_m (Nat.iter n shr_1 r)) = true).
    { rewrite I1. apply Z.mod_divide in Hd; [|lia]. destruct Hd as [k Hk].
      rewrite Hk. replace (k * (2 ^ Z.of_nat n * 2)) with (k * 2 * 2 ^ Z.of_nat n) by lia.
      rewrite Z.div_mul by lia. rewrite Z.even_mul. simpl. apply orb_true_r. }
    change (Nat.iter (S n) shr_1 r) with (shr_1 (Nat.iter n shr_1 r)).
    destruct (shr_1_exact _ I2 I3 Hev) as [J1 J2].
    split; [|split; assumption].
    rewrite (shr_1_m _ Hq), I1, E, Z.div_div by lia. reflexivity.
Qed.

(** A shift that drops only zero bits of an exact mantissa stays exact. *)
Lemma shr_exact M e n :
  0 <= M -> M mod 2 ^ Z.max 0 n = 0 ->
  loc_of_shr_record (fst (shr (shr_record_of_loc M loc_Exact) e n))
  = loc_Exact.
Proof.
  intros HM Hd. unfold shr. destruct n as [|p|p]; try reflexivity.
  cbn [fst]. rewrite iter_pos_nat.
  rewrite Z.max_r in Hd by lia. rewrite <- (positive_nat_Z p) in Hd.
  destruct (shr_iter_exact (Pos.to_nat p) (shr_record_of_loc M loc_Exact))
    as (_ & R & S); try reflexivity; try assumption.
  destruct (Nat.iter _ _ _) as [m r s]. simpl in R, S. subst. reflexivity.
Qed.

Lemma digits2_Z_bounds M :
  0 < M -> 2 ^ (Zdigits2 M - 1) <= M < 2 ^ Zdigits2 M.
Proof.
  destruct M as [|p|p]; try lia. intros _. apply digits2_pos_bounds.
Qed.

Lemma Zdigits2_pos M : 0 < M -> 0 < Zdigits2 M.
Proof. destruct M as [|p|p]; try lia. intros _. simpl. lia. Qed.

(** Rounding [M * 2^e], for an [M >= 0] with enough digits: with [e1] the
    exponent of the format at that magnitude and [q] the mantissa truncated
    to it, the result is [q * 2^e1] or [(q + 1) * 2^e1], and the former
    when no bit is lost. *)
Lemma binary_round_aux_value s M e l :
  0 <= M ->
  let e1 := fexp prec emax (Zdigits2 M + e) in
  let q := M / 2 ^ (e1 - e) in
  e <= e1 ->
  exists m1,
    q <= m1 <= q + 1
    /\ (l = loc_Exact -> M mod 2 ^ (e1 - e) = 0 -> m1 = q)
    /\ roundsTo (binary_round_aux prec emax s M e l) s m1 e1.
Proof.
  intros HM e1 q Hn. unfold binary_round_aux, shr_fexp. fold e1.
  assert (Hp : 0 < 2 ^ (e1 - e)) by (apply pow2_pos; lia).
  assert (Hemin : -1074 <= e1) by (unfold e1; rewrite fexp64; lia).
  assert (Hq0 : 0 <= q) by (apply Z.div_pos; lia).
  assert (Hq53 : q < 2 ^ 53).
  { destruct (Z.eq_dec M 0) as [->|HM0]; [unfold q; rewrite Z.div_0_l; lia|].
    destruct (digits2_Z_bounds M ltac:(lia)) as [_ U].
    pose proof (Zdigits2_pos M ltac:(lia)) as Hd.
    apply Z.div_lt_upper_bound; [lia|].
    assert (Zdigits2 M <= e1 - e + 53) by (unfold e1; rewrite fexp64; lia).
    assert (2 ^ Zdigits2 M <= 2 ^ (e1 - e + 53)) by (apply Z.pow_le_mono_r; lia).
    rewrite Z.pow_add_r in H0 by lia. lia. }
  assert (Hqbig : -1074 < e1 -> 0 < M -> 2 ^ 52 <= q).
  { intros Hgt HM0. destruct (digits2_Z_bounds M HM0) as [L _].
    assert (Hn' : e1 - e = Zdigits2 M - 53) by (unfold e1 in *; rewrite fexp64 in *; lia).
    unfold q. rewrite Hn'. apply Z.div_le_lower_bound.
    - apply pow2_pos. lia.
    - rewrite <- Z.pow_add_r by lia.
      replace (Zdigits2 M - 53 + 52) with (Zdigits2 M - 1) by lia. exact L. }
  destruct (shr_spec (shr_record_of_loc M l) e (e1 - e)) as [Hm He].
  { rewrite shr_record_of_loc_m. exact HM. }
  rewrite shr_record_of_loc_m, Z.max_r in Hm by lia.
  rewrite Z.max_r in He by lia. fold q in Hm.
  pose proof (fun Hl => shr_exact M e (e1 - e) HM Hl) as Hex.
  rewrite Z.max_r in Hex by lia.
  destruct (shr (shr_record_of_loc M l) e (e1 - e)) as [mrs' e'] eqn:Eshr.
  simpl fst in Hm. simpl snd in He.
  replace e' with e1 by lia. clear He.
  set (m1 := round_nearest_even (shr_m mrs') (loc_of_shr_record mrs')).
  assert (Hm1 : q <= m1 <= q + 1).
  { unfold m1. rewrite Hm. apply round_nearest_even_bounds. }
  exists m1. split; [exact Hm1|]. split.
  { intros -> Hd. unfold m1. rewrite Eshr in Hex. simpl fst in Hex.
    rewrite (Hex Hd). simpl. exact Hm. }
  destruct (shr_spec (shr_record_of_loc m1 loc_Exact) e1
              (fexp prec emax (Zdigits2 m1 + e1) - e1)) as [Hm2 He2].
  { simpl. lia. }
  simpl shr_m in Hm2 at 2.
  destruct (shr _ e1 _) as [mrs'' e'']. simpl fst in Hm2. simpl snd in He2.
  set (n2 := Z.max 0 (fexp prec emax (Zdigits2 m1 + e1) - e1)) in *.
  destruct (Z.eq_dec m1 0) as [Hz|Hnz].
  { left. split; [assumption|]. rewrite Hm2, Hz, Z.div_0_l; [reflexivity|].
    assert (0 < 2 ^ n2) by (apply pow2_pos; unfold n2; lia). lia. }
  assert (Hpos : 0 < m1) by lia.
  assert (Hbig : 971 < e1 -> 2 ^ 52 <= m1).
  { intros Hgt. destruct (Z.eq_dec M 0) as [E0|].
    - exfalso.
      assert (He1 : e1 = fexp prec emax (0 + e))
        by (unfold e1; rewrite E0; reflexivity).
      rewrite fexp64 in He1. lia.
    - assert (2 ^ 52 <= q) by (apply Hqbig; lia). lia. }
  assert (P2098 : 2 ^ 2098 = 2 ^ 52 * 2 ^ 2046) by (rewrite <- Z.pow_add_r; [reflexivity|lia|lia]).
  destruct (Z_lt_le_dec m1 (2 ^ 53)) as [Hlt|Hge].
  - (* the rounded mantissa fits *)
    assert (Hn2 : n2 = 0).
    { destruct m1 as [|p1|p1]; try lia.
      pose proof (digits2_pos_small p1 Hlt).
      change (Zdigits2 (Zpos p1)) with (Zpos (digits2_pos p1)) in n2.
      unfold n2. rewrite fexp64. lia. }
    rewrite Hn2, Z.pow_0_r, Z.div_1_r in Hm2. rewrite Hn2 in He2.
    rewrite Hm2. destruct m1 as [|p1|p1]; try lia.
    destruct (Z.leb_spec e'' (emax - prec)) as [Hle|Hgt];
      change (emax - prec) with 971 in *.
    + right; left. exists p1, e''. split; [reflexivity|]. split; [lia|].
      replace (e'' - e1) with 0 by lia. rewrite Z.pow_0_r. lia.
    + right; right. split; [reflexivity|].
      assert (2 ^ 52 <= Zpos p1) by (apply Hbig; lia).
      assert (2 ^ 2046 <= 2 ^ (e1 + 1074)) by (apply Z.pow_le_mono_r; lia).
      assert (0 < 2 ^ 2046) by (apply pow2_pos; lia).
      assert (0 < 2 ^ 52) by (apply pow2_pos; lia).
      rewrite P2098. nia.
  - (* the rounded mantissa is 2^53 *)
    assert (E53 : m1 = 2 ^ 53) by lia.
    assert (Hn2 : n2 = 1).
    { unfold n2. rewrite E53, fexp64. change (Zdigits2 (2 ^ 53)) with 54. lia. }
    rewrite Hn2, E53 in Hm2. change (2 ^ 53 / 2 ^ 1) with (2 ^ 52) in Hm2.
    rewrite Hn2 in He2. rewrite Hm2.
    change (2 ^ 52) with (Zpos (Pos.pow 2 52)) at 1.
    cbv beta iota.
    destruct (Z.leb_spec e'' (emax - prec)) as [Hle|Hgt];
      change (emax - prec) with 971 in *.
    + right; left. exists (Pos.pow 2 52), e''. split; [reflexivity|].
      split; [lia|]. replace (e'' - e1) with 1 by lia. rewrite E53. reflexivity.
    + right; right. split; [reflexivity|]. rewrite E53.
      assert (2 ^ 2045 <= 2 ^ (e1 + 1074)) by (apply Z.pow_le_mono_r; lia).
      replace (2 ^ 2098) with (2 ^ 53 * 2 ^ 2045)
        by (rewrite <- Z.pow_add_r; [reflexivity|lia|lia]).
      assert (0 < 2 ^ 53) by (apply pow2_pos; lia). nia.
Qed.

Lemma roundsTo_scaled r s m1 e1 :
  roundsTo r s m1 e1 -> -1074 <= e1 ->
  scaled r = Some (cond_Zopp s (m1 * 2 ^ (e1 + 1074)))
  \/ (r = S754_infinity s /\ 2 ^ 2098 <= m1 * 2 ^ (e1 + 1074)).
Proof.
  intros [[-> ->]|[(m & e2 & -> & He & <-)|[-> H]]] Hmin.
  - left. destruct s; reflexivity.
  - left. unfold scaled. do 2 f_equal.
    rewrite <- Z.mul_assoc, <- Z.pow_add_r by lia. do 2 f_equal. lia.
  - right. split; [reflexivity|assumption].
Qed.

(** ** The two bounds *)

Section Core.

Variables (M e num den : Z) (sc : bool) (mc : positive) (ec : Z).

Let e1 := fexp prec emax (Zdigits2 M + e).
Let q := M / 2 ^ (e1 - e).

Hypothesis HM : 0 <= M.
Hypothesis Hn : e <= e1.
Hypothesis He : -2148 <= e.
Hypothesis Hden : 0 < den.
Hypothesis Hnum : M = num / den.
Hypothesis Hc : valid_binary (S754_finite sc mc ec) = true.

Lemma core_num : M * den <= num < (M + 1) * den.
Proof.
  pose proof (Z_div_mod_eq_full num den).
  pose proof (Z.mod_pos_bound num den Hden). rewrite Hnum. nia.
Qed.

Lemma core_q : q = num / (den * 2 ^ (e1 - e)).
Proof.
  unfold q. rewrite Hnum, Z.div_div; [reflexivity|lia|].
  apply pow2_pos. lia.
Qed.

(** Above the least exponent the truncated mantissa has all its bits. *)
Lemma core_normal :
  -1074 < e1 ->
  0 < M /\ e1 = Zdigits2 M + e - 53 /\ 2 ^ 52 <= q
  /\ 2 ^ (Zdigits2 M - 1) <= M.
Proof.
  intros Hgt.
  assert (HM0 : 0 < M).
  { destruct (Z.eq_dec M 0) as [E0|]; [|lia]. exfalso.
    assert (E : e1 = fexp prec emax (0 + e))
      by (unfold e1; rewrite E0; reflexivity).
    rewrite fexp64 in E. lia. }
  assert (E1 : e1 = Zdigits2 M + e - 53)
    by (unfold e1 in *; rewrite fexp64 in *; lia).
  destruct (digits2_Z_bounds M HM0) as [L _].
  repeat split; try assumption.
  unfold q. replace (e1 - e) with (Zdigits2 M - 53) by lia.
  pose proof (Zdigits2_pos M HM0).
  apply Z.div_le_lower_bound; [apply pow2_pos; lia|].
  rewrite <- Z.pow_add_r by lia.
  replace (Zdigits2 M - 53 + 52) with (Zdigits2 M - 1) by lia. exact L.
Qed.

(** A bound below the exponent of the format is below the value. *)
Lemma core_coarse :
  ec < e1 -> Zpos mc * 2 ^ (ec + 1074) < q * 2 ^ (e1 + 1074).
Proof.
  intros Hlt. destruct (valid_finite _ _ _ Hc) as (Hec & Hmc & _).
  destruct (core_normal ltac:(lia)) as (_ & _ & Hq & _).
  assert (E : 2 ^ (e1 + 1074) = 2 ^ (e1 - ec) * 2 ^ (ec + 1074))
    by (rewrite <- Z.pow_add_r by lia; f_equal; lia).
  assert (2 ^ 1 <= 2 ^ (e1 - ec)) by (apply Z.pow_le_mono_r; lia).
  assert (0 < 2 ^ (ec + 1074)) by (apply pow2_pos; lia).
  change (2 ^ 1) with 2 in *. change (2 ^ 52) with 4503599627370496 in *.
  change (2 ^ 53) with 9007199254740992 in *.
  rewrite E. set (P := 2 ^ (ec + 1074)) in *. set (Q := 2 ^ (e1 - ec)) in *.
  clearbody P Q. nia.
Qed.

(** A bound that is at least the value rounds no lower than the result. *)
Lemma core_upper m1 :
  q <= m1 <= q + 1 ->
  (num mod den = 0 -> M mod 2 ^ (e1 - e) = 0 -> m1 = q) ->
  num * 2 ^ (e + 2148) <= Zpos mc * 2 ^ (ec + 2148) * den ->
  m1 * 2 ^ (e1 + 1074) <= Zpos mc * 2 ^ (ec + 1074).
Proof.
  intros Hm1 Hex Hle.
  destruct (valid_finite _ _ _ Hc) as (Hec & Hmc & _).
  pose proof core_num as Hnd.
  assert (HE : 0 < 2 ^ (e + 2148)) by (apply pow2_pos; lia).
  assert (HN : 0 < 2 ^ (e1 - e)) by (apply pow2_pos; lia).
  assert (Hemin : -1074 <= e1) by (unfold e1; rewrite fexp64; lia).
  destruct (Z_lt_le_dec ec e1) as [Hlt|Hge].
  { (* the bound would be below the value *)
    exfalso. destruct (core_normal ltac:(lia)) as (HM0 & E1 & _ & L).
    pose proof (Zdigits2_pos M HM0).
    assert (E : 2 ^ (Zdigits2 M - 1) * 2 ^ (e + 2148)
                = 2 ^ 53 * 2 ^ (e1 - 1 + 2148)).
    { rewrite <- !Z.pow_add_r by lia. f_equal. lia. }
    assert (2 ^ (ec + 2148) <= 2 ^ (e1 - 1 + 2148))
      by (apply Z.pow_le_mono_r; lia).
    assert (0 < 2 ^ (ec + 2148)) by (apply pow2_pos; lia).
    change (2 ^ 53) with 9007199254740992 in *.
    set (A := 2 ^ (Zdigits2 M - 1)) in *. set (B := 2 ^ (e + 2148)) in *.
    set (C := 2 ^ (e1 - 1 + 2148)) in *. set (D := 2 ^ (ec + 2148)) in *.
    clearbody A B C D.
    assert (A * den <= num) by nia.
    assert (A * den * B <= num * B) by (apply Z.mul_le_mono_nonneg_r; lia).
    assert (Zpos mc * D < 9007199254740992 * C) by nia.
    assert (Zpos mc * D * den < 9007199254740992 * C * den)
      by (apply Z.mul_lt_mono_pos_r; lia).
    nia. }
  set (kc := Zpos mc * 2 ^ (ec - e1)).
  assert (HK : 0 < 2 ^ (ec - e1)) by (apply pow2_pos; lia).
  assert (EC : Zpos mc * 2 ^ (ec + 2148)
               = kc * (2 ^ (e1 - e) * 2 ^ (e + 2148))).
  { unfold kc. rewrite <- Z.mul_assoc. f_equal.
    rewrite <- !Z.pow_add_r by lia. f_equal. lia. }
  assert (EK : Zpos mc * 2 ^ (ec + 1074) = kc * 2 ^ (e1 + 1074)).
  { unfold kc. rewrite <- Z.mul_assoc. f_equal.
    rewrite <- !Z.pow_add_r by lia. f_equal. lia. }
  rewrite EC in Hle. rewrite EK.
  assert (HG : 0 < 2 ^ (e1 + 1074)) by (apply pow2_pos; lia).
  assert (Hnk : num <= kc * (den * 2 ^ (e1 - e))).
  { set (B := 2 ^ (e + 2148)) in *. set (N := 2 ^ (e1 - e)) in *.
    clearbody B N. nia. }
  assert (Hqk : q <= kc).
  { rewrite core_q. apply Z.div_le_upper_bound; [nia|]. lia. }
  apply Z.mul_le_mono_nonneg_r; [lia|].
  destruct (Z.eq_dec q kc) as [Heq|Hne]; [|lia].
  rewrite Hex; [lia| |].
  - (* the value is on the grid *)
    assert (Hge' : kc * (den * 2 ^ (e1 - e)) <= num).
    { rewrite <- Heq, core_q.
      pose proof (Z.mul_div_le num (den * 2 ^ (e1 - e)) ltac:(nia)). lia. }
    assert (Hnum' : num = kc * 2 ^ (e1 - e) * den) by lia.
    rewrite Hnum'. apply Z.mod_mul. lia.
  - assert (Hge' : kc * (den * 2 ^ (e1 - e)) <= num).
    { rewrite <- Heq, core_q.
      pose proof (Z.mul_div_le num (den * 2 ^ (e1 - e)) ltac:(nia)). lia. }
    assert (Hnum' : num = kc * 2 ^ (e1 - e) * den) by lia.
    rewrite Hnum, Hnum', Z.div_mul by lia. apply Z.mod_mul. lia.
Qed.

(** A bound that is at most the value rounds no higher than the result. *)
Lemma core_lower :
  Zpos mc * 2 ^ (ec + 2148) * den <= num * 2 ^ (e + 2148) ->
  Zpos mc * 2 ^ (ec + 1074) <= q * 2 ^ (e1 + 1074).
Proof.
  intros Hle.
  destruct (valid_finite _ _ _ Hc) as (Hec & Hmc & _).
  destruct (Z_lt_le_dec ec e1) as [Hlt|Hge].
  { pose proof (core_coarse Hlt). lia. }
  assert (HE : 0 < 2 ^ (e + 2148)) by (apply pow2_pos; lia).
  assert (HN : 0 < 2 ^ (e1 - e)) by (apply pow2_pos; lia).
  assert (Hemin : -1074 <= e1) by (unfold e1; rewrite fexp64; lia).
  set (kc := Zpos mc * 2 ^ (ec - e1)).
  assert (EC : Zpos mc * 2 ^ (ec + 2148)
               = kc * (2 ^ (e1 - e) * 2 ^ (e + 2148))).
  { unfold kc. rewrite <- Z.mul_assoc. f_equal.
    rewrite <- !Z.pow_add_r by lia. f_equal. lia. }
  assert (EK : Zpos mc * 2 ^ (ec + 1074) = kc * 2 ^ (e1 + 1074)).
  { unfold kc. rewrite <- Z.mul_assoc. f_equal.
    rewrite <- !Z.pow_add_r by lia. f_equal. lia. }
  rewrite EC in Hle. rewrite EK.
  assert (HG : 0 < 2 ^ (e1 + 1074)) by (apply pow2_pos; lia).
  apply Z.mul_le_mono_nonneg_r; [lia|].
  rewrite core_q. apply Z.div_le_lower_bound; [nia|].
  set (B := 2 ^ (e + 2148)) in *. set (N := 2 ^ (e1 - e)) in *.
  clearbody B N. nia.
Qed.

End Core.

(** ** Rounding against a bound, on views *)

Lemma valid_bound sc mc ec :
  valid_binary (S754_finite sc mc ec) = true ->
  Zpos mc * 2 ^ (ec + 1074) < 2 ^ 2098.
Proof.
  intros Hc. destruct (valid_finite _ _ _ Hc) as (Hec & Hmc & _).
  assert (2 ^ (ec + 1074) <= 2 ^ 2045) by (apply Z.pow_le_mono_r; lia).
  assert (0 < 2 ^ (ec + 1074)) by (apply pow2_pos; lia).
  replace (2 ^ 2098) with (2 ^ 53 * 2 ^ 2045)
    by (rewrite <- Z.pow_add_r; [reflexivity|lia|lia]).
  nia.
Qed.

Lemma round_upper s M e l num den sc mc ec :
  0 <= M -> e <= fexp prec emax (Zdigits2 M + e) -> -2148 <= e ->
  0 < den -> M = num / den -> (num mod den = 0 -> l = loc_Exact) ->
  valid_binary (S754_finite sc mc ec) = true ->
  num * 2 ^ (e + 2148) <= Zpos mc * 2 ^ (ec + 2148) * den ->
  exists z,
    scaled (binary_round_aux prec emax s M e l) = Some (cond_Zopp s z)
    /\ 0 <= z <= Zpos mc * 2 ^ (ec + 1074).
Proof.
  intros HM Hn He Hden Hnum Hl Hc Hle.
  destruct (binary_round_aux_value s M e l HM Hn) as (m1 & Hm1 & Hex & R).
  assert (Hemin : -1074 <= fexp prec emax (Zdigits2 M + e))
    by (rewrite fexp64; lia).
  pose proof (core_upper M e num den sc mc ec HM Hn He Hden Hnum Hc m1 Hm1)
    as U.
  cbv zeta in U.
  assert (Hb : m1 * 2 ^ (fexp prec emax (Zdigits2 M + e) + 1074)
               <= Zpos mc * 2 ^ (ec + 1074)).
  { apply U; [|exact Hle]. intros H1 H2. apply Hex; [now apply Hl|exact H2]. }
  pose proof (valid_bound _ _ _ Hc) as Hv.
  assert (0 <= m1).
  { assert (0 <= M / 2 ^ (fexp prec emax (Zdigits2 M + e) - e)).
    { apply Z.div_pos; [lia|]. apply pow2_pos. lia. }
    lia. }
  assert (0 <= 2 ^ (fexp prec emax (Zdigits2 M + e) + 1074))
    by (apply Z.pow_nonneg; lia).
  destruct (roundsTo_scaled _ _ _ _ R Hemin) as [E|[_ Hinf]]; [|lia].
  eexists. split; [exact E|]. nia.
Qed.

Lemma round_lower s M e l num den sc mc ec :
  0 <= M -> e <= fexp prec emax (Zdigits2 M + e) -> -2148 <= e ->
  0 < den -> M = num / den ->
  valid_binary (S754_finite sc mc ec) = true ->
  Zpos mc * 2 ^ (ec + 2148) * den <= num * 2 ^ (e + 2148) ->
  binary_round_aux prec emax s M e l = S754_infinity s
  \/ exists z,
       scaled (binary_round_aux prec emax s M e l) = Some (cond_Zopp s z)
       /\ Zpos mc * 2 ^ (ec + 1074) <= z.
Proof.
  intros HM Hn He Hden Hnum Hc Hle.
  destruct (binary_round_aux_value s M e l HM Hn) as (m1 & Hm1 & Hex & R).
  assert (Hemin : -1074 <= fexp prec emax (Zdigits2 M + e))
    by (rewrite fexp64; lia).
  pose proof (core_lower M e num den sc mc ec HM Hn He Hden Hnum Hc Hle) as L.
  cbv zeta in L.
  assert (0 <= 2 ^ (fexp prec emax (Zdigits2 M + e) + 1074))
    by (apply Z.pow_nonneg; lia).
  destruct (roundsTo_scaled _ _ _ _ R Hemin) as [E|[Hinf _]];
    [right|left; exact Hinf].
  eexists. split; [exact E|]. nia.
Qed.

(** ** Comparisons read off the scaled values *)

Lemma SFleb_of_scaled x y a b :
  valid_binary x = true -> valid_binary y = true ->
  scaled x = Some a -> scaled y = Some b -> a <= b -> SFleb x y = true.
Proof.
  intros Vx Vy Hx Hy L. unfold SFleb.
  rewrite (SFcompare_scaled x y a b Vx Vy Hx Hy).
  destruct (Z.compare_spec a b); try reflexivity; lia.
Qed.

Lemma leb_of_scaled x y a b :
  scaled (Prim2SF x) = Some a -> scaled (Prim2SF y) = Some b -> a <= b ->
  (x <=? y)%float = true.
Proof.
  intros Hx Hy L. rewrite leb_spec.
  apply (SFleb_of_scaled _ _ a b); auto using Prim2SF_valid.
Qed.

Lemma scaled_not_nan x a : scaled (Prim2SF x) = Some a -> isNaN x = false.
Proof. unfold isNaN. destruct (Prim2SF x); simpl; congruence. Qed.

Lemma leb_infinity x y :
  isNaN x = false -> Prim2SF y = S754_infinity false -> (x <=? y)%float = true.
Proof.
  intros Hx Hy. rewrite leb_spec, Hy. unfold isNaN in Hx.
  destruct (Prim2SF x) as [s|[|]| |[|] m e]; try discriminate; reflexivity.
Qed.

(** The sign of a finite valid view from its scaled value. *)
Lemma scaled_sign s m e a :
  scaled (S754_finite s m e) = Some a -> -1074 <= e ->
  (s = false /\ 0 < a) \/ (s = true /\ a < 0).
Proof.
  intros H He. apply scaled_finite in H. subst a.
  assert (0 < Zpos m * 2 ^ (e + 1074)).
  { apply Z.mul_pos_pos; [lia|]. apply pow2_pos. lia. }
  destruct s; unfold cond_Zopp; [right|left]; split; try reflexivity; lia.
Qed.

Lemma valid_exponent s m e :
  valid_binary (S754_finite s m e) = true -> -1074 <= e.
Proof. intros H. destruct (valid_finite _ _ _ H) as [[L _] _]. exact L. Qed.

(** ** Products *)

Lemma digits2_pos_lower m k : 2 ^ k <= Zpos m -> k < Zpos (digits2_pos m).
Proof.
  intros H. destruct (digits2_pos_bounds m) as [_ U].
  destruct (Z_lt_le_dec k (Zpos (digits2_pos m))) as [|Hge]; [assumption|].
  assert (2 ^ Zpos (digits2_pos m) <= 2 ^ k) by (apply Z.pow_le_mono_r; lia).
  lia.
Qed.

Lemma valid_digits s m e :
  valid_binary (S754_finite s m e) = true ->
  -1074 < e -> Zpos (digits2_pos m) = 53.
Proof.
  intros H He. destruct (valid_finite _ _ _ H) as (_ & U & L).
  pose proof (digits2_pos_lower m 52 (L He)).
  pose proof (digits2_pos_small m U). lia.
Qed.

(** A product of two valid mantissas has the digits rounding needs. *)
Lemma mul_enough s1 m1 e1 s2 m2 e2 :
  valid_binary (S754_finite s1 m1 e1) = true ->
  valid_binary (S754_finite s2 m2 e2) = true ->
  e1 + e2 <= fexp prec emax (Zdigits2 (Zpos (m1 * m2)) + (e1 + e2)).
Proof.
  intros V1 V2. rewrite fexp64.
  change (Zdigits2 (Zpos (m1 * m2))) with (Zpos (digits2_pos (m1 * m2))).
  pose proof (valid_exponent _ _ _ V1). pose proof (valid_exponent _ _ _ V2).
  destruct (digits2_pos_bounds m1) as [L1 _].
  destruct (digits2_pos_bounds m2) as [L2 _].
  assert (D : Zpos (digits2_pos m1) + Zpos (digits2_pos m2) - 2
              < Zpos (digits2_pos (m1 * m2))).
  { apply digits2_pos_lower. rewrite Pos2Z.inj_mul.
    replace (Zpos (digits2_pos m1) + Zpos (digits2_pos m2) - 2)
      with ((Zpos (digits2_pos m1) - 1) + (Zpos (digits2_pos m2) - 1)) by lia.
    rewrite Z.pow_add_r by lia.
    assert (0 < 2 ^ (Zpos (digits2_pos m1) - 1)) by (apply pow2_pos; lia).
    assert (0 < 2 ^ (Zpos (digits2_pos m2) - 1)) by (apply pow2_pos; lia).
    nia. }
  destruct (Z.eq_dec e1 (-1074)) as [E1|N1];
    destruct (Z.eq_dec e2 (-1074)) as [E2|N2]; try lia.
  - pose proof (valid_digits _ _ _ V2 ltac:(lia)). lia.
  - pose proof (valid_digits _ _ _ V1 ltac:(lia)). lia.
  - pose proof (valid_digits _ _ _ V1 ltac:(lia)). lia.
Qed.

(** The view of a number whose scaled value is not negative. *)
Lemma nonneg_view x a :
  scaled (Prim2SF x) = Some a -> 0 <= a ->
  (exists s, Prim2SF x = S754_zero s /\ a = 0)
  \/ (exists m e, Prim2SF x = S754_finite false m e
                  /\ a = Zpos m * 2 ^ (e + 1074) /\ 0 < a).
Proof.
  intros H Ha. pose proof (Prim2SF_valid x) as V.
  destruct (Prim2SF x) as [s|s| |s m e]; try discriminate.
  - left. exists s. split; [reflexivity|]. exact (scaled_zero _ _ H).
  - right. destruct (scaled_sign _ _ _ _ H (valid_exponent _ _ _ V))
      as [[-> Hp]|[_ Hn]]; [|lia].
    exists m, e. split; [reflexivity|]. split; [|assumption].
    apply scaled_finite in H. exact H.
Qed.

Lemma mul_le_bound x y c a b k :
  scaled (Prim2SF x) = Some a -> scaled (Prim2SF y) = Some b ->
  scaled (Prim2SF c) = Some k -> 0 <= a -> 0 <= b ->
  a * b <= k * 2 ^ 1074 -> (x * y <=? c)%float = true.
Proof.
  intros Hx Hy Hc Ha Hb Hle.
  pose proof pow2_1074_pos as P.
  assert (Hk : 0 <= k) by nia.
  pose proof (Prim2SF_valid x) as Vx. pose proof (Prim2SF_valid y) as Vy.
  destruct (nonneg_view x a Hx Ha) as [(sx & Ex & Ea)|(mx & ex & Ex & Ea & Pa)];
    destruct (nonneg_view y b Hy Hb) as [(sy & Ey & Eb)|(my & ey & Ey & Eb & Pb)].
  1-3: apply (leb_of_scaled _ _ 0 k); [|assumption|assumption];
       rewrite mul_spec, Ex, Ey; reflexivity.
  rewrite Ex in Vx. rewrite Ey in Vy.
  destruct (nonneg_view c k Hc Hk) as [(sc & Ec & Ek)|(mc & ec & Ec & Ek & Pk)];
    [nia|].
  pose proof (Prim2SF_valid c) as Vc. rewrite Ec in Vc.
  pose proof (valid_exponent _ _ _ Vx). pose proof (valid_exponent _ _ _ Vy).
  pose proof (valid_exponent _ _ _ Vc).
  destruct (round_upper false (Zpos (mx * my)) (ex + ey) loc_Exact
              (Zpos (mx * my)) 1 false mc ec) as (z & Ez & Hz); try lia.
  - exact (mul_enough _ _ _ _ _ _ Vx Vy).
  - now rewrite Z.div_1_r.
  - reflexivity.
  - exact Vc.
  - rewrite Z.mul_1_r, Pos2Z.inj_mul.
    replace (Zpos mx * Zpos my * 2 ^ (ex + ey + 2148)) with (a * b).
    + replace (Zpos mc * 2 ^ (ec + 2148)) with (k * 2 ^ 1074); [exact Hle|].
      rewrite Ek, <- Z.mul_assoc, <- (Z.pow_add_r 2 (ec + 1074) 1074) by lia.
      do 2 f_equal. lia.
    + rewrite Ea, Eb.
      replace (ex + ey + 2148) with ((ex + 1074) + (ey + 1074)) by lia.
      rewrite (Z.pow_add_r 2 (ex + 1074) (ey + 1074)) by lia. ring.
  - apply (leb_of_scaled _ _ z k); [|assumption|lia].
    rewrite mul_spec, Ex, Ey. exact Ez.
Qed.

Lemma mul_ge_bound x y c a b k :
  scaled (Prim2SF x) = Some a -> scaled (Prim2SF y) = Some b ->
  scaled (Prim2SF c) = Some k -> 0 <= a -> 0 <= b ->
  k * 2 ^ 1074 <= a * b -> (c <=? x * y)%float = true.
Proof.
  intros Hx Hy Hc Ha Hb Hle.
  pose proof pow2_1074_pos as P.
  pose proof (Prim2SF_valid x) as Vx. pose proof (Prim2SF_valid y) as Vy.
  destruct (nonneg_view x a Hx Ha) as [(sx & Ex & Ea)|(mx & ex & Ex & Ea & Pa)];
    destruct (nonneg_view y b Hy Hb) as [(sy & Ey & Eb)|(my & ey & Ey & Eb & Pb)].
  1-3: apply (leb_of_scaled _ _ k 0); [assumption| |nia];
       rewrite mul_spec, Ex, Ey; reflexivity.
  rewrite Ex in Vx. rewrite Ey in Vy.
  pose proof (valid_exponent _ _ _ Vx). pose proof (valid_exponent _ _ _ Vy).
  pose proof (Prim2SF_valid c) as Vc.
  assert (Hmul : Prim2SF (x * y)
                 = binary_round_aux prec emax false (Zpos (mx * my)) (ex + ey)
                     loc_Exact).
  { rewrite mul_spec, Ex, Ey. reflexivity. }
  destruct (Z_le_gt_dec k 0) as [Hk0|Hkp].
  { (* a bound that is not positive *)
    destruct (binary_round_aux_value false (Zpos (mx * my)) (ex + ey) loc_Exact)
      as (m1 & Hm1 & _ & R); [lia|exact (mul_enough _ _ _ _ _ _ Vx Vy)|].
    assert (Hemin : -1074 <= fexp prec emax (Zdigits2 (Zpos (mx * my)) + (ex + ey)))
      by (rewrite fexp64; lia).
    assert (0 <= m1).
    { assert (0 <= Zpos (mx * my) / 2 ^ (fexp prec emax (Zdigits2 (Zpos (mx * my)) + (ex + ey)) - (ex + ey))).
      { apply Z.div_pos; [lia|]. apply pow2_pos.
        pose proof (mul_enough _ _ _ _ _ _ Vx Vy). lia. }
      lia. }
    destruct (roundsTo_scaled _ _ _ _ R Hemin) as [E|[Hinf _]].
    - eapply (leb_of_scaled _ _ k _ Hc); [rewrite Hmul; exact E|].
      unfold cond_Zopp.
      assert (0 <= 2 ^ (fexp prec emax (Zdigits2 (Zpos (mx * my)) + (ex + ey)) + 1074))
        by (apply Z.pow_nonneg; lia).
      nia.
    - apply leb_infinity; [exact (scaled_not_nan _ _ Hc)|].
      rewrite Hmul. exact Hinf. }
  destruct (nonneg_view c k Hc ltac:(lia)) as [(sc & Ec & Ek)|(mc & ec & Ec & Ek & Pk)];
    [lia|].
  rewrite Ec in Vc. pose proof (valid_exponent _ _ _ Vc).
  destruct (round_lower false (Zpos (mx * my)) (ex + ey) loc_Exact
              (Zpos (mx * my)) 1 false mc ec) as [Hinf|(z & Ez & Hz)]; try lia.
  - exact (mul_enough _ _ _ _ _ _ Vx Vy).
  - now rewrite Z.div_1_r.
  - exact Vc.
  - rewrite Z.mul_1_r, Pos2Z.inj_mul.
    replace (Zpos mx * Zpos my * 2 ^ (ex + ey + 2148)) with (a * b).
    + replace (Zpos mc * 2 ^ (ec + 2148)) with (k * 2 ^ 1074); [exact Hle|].
      rewrite Ek, <- Z.mul_assoc, <- (Z.pow_add_r 2 (ec + 1074) 1074) by lia.
      do 2 f_equal. lia.
    + rewrite Ea, Eb.
      replace (ex + ey + 2148) with ((ex + 1074) + (ey + 1074)) by lia.
      rewrite (Z.pow_add_r 2 (ex + 1074) (ey + 1074)) by lia. ring.
  - apply leb_infinity; [exact (scaled_not_nan _ _ Hc)|].
    rewrite Hmul. exact Hinf.
  - apply (leb_of_scaled _ _ k z Hc); [rewrite Hmul; exact Ez|lia].
Qed.

(** ** Sums and differences *)

(** [binary_round] aligns the mantissa, then rounds it. *)
Lemma binary_round_shape s p e0 :
  exists mz ez,
    binary_round prec emax s p e0
    = binary_round_aux prec emax s (Zpos mz) ez loc_Exact
    /\ ez <= e0 /\ Zpos mz = Zpos p * 2 ^ (e0 - ez)
    /\ ez <= fexp prec emax (Zdigits2 (Zpos mz) + ez)
    /\ (-1074 <= e0 -> -1074 <= ez).
Proof.
  unfold binary_round.
  set (f := fexp prec emax (Zpos (digits2_pos p) + e0)).
  assert (Hf : -1074 <= f) by (unfold f; rewrite fexp64; lia).
  destruct (Z_le_gt_dec f e0) as [Hle|Hgt].
  - pose proof (shl_align_fst p e0 f Hle) as F.
    pose proof (shl_align_snd p e0 f Hle) as S.
    destruct (shl_align p e0 f) as [mz ez]. simpl in F, S. subst ez.
    exists mz, f. split; [reflexivity|]. split; [assumption|].
    split; [assumption|]. split; [|lia].
    change (Zdigits2 (Zpos mz)) with (Zpos (digits2_pos mz)).
    rewrite (digits2_pos_shift p (e0 - f) ltac:(lia) mz F).
    replace (Zpos (digits2_pos p) + (e0 - f) + f)
      with (Zpos (digits2_pos p) + e0) by lia.
    fold f. lia.
  - assert (E : shl_align p e0 f = (p, e0)).
    { unfold shl_align. destruct (f - e0) eqn:E; try reflexivity. lia. }
    rewrite E. exists p, e0. split; [reflexivity|]. split; [lia|].
    split; [rewrite Z.sub_diag, Z.pow_0_r; lia|]. split; [|lia].
    change (Zdigits2 (Zpos p)) with (Zpos (digits2_pos p)). fold f. lia.
Qed.

Lemma binary_round_upper s p e0 sc mc ec :
  -1074 <= e0 -> valid_binary (S754_finite sc mc ec) = true ->
  Zpos p * 2 ^ (e0 + 1074) <= Zpos mc * 2 ^ (ec + 1074) ->
  exists z,
    scaled (binary_round prec emax s p e0) = Some (cond_Zopp s z)
    /\ 0 <= z <= Zpos mc * 2 ^ (ec + 1074).
Proof.
  intros He0 Hc Hle.
  destruct (binary_round_shape s p e0) as (mz & ez & -> & Hez & Hmz & Hn & Hmin).
  specialize (Hmin He0). pose proof (valid_exponent _ _ _ Hc) as Hec.
  apply (round_upper s (Zpos mz) ez loc_Exact (Zpos mz) 1 sc mc ec);
    try lia; try assumption.
  - now rewrite Z.div_1_r.
  - reflexivity.
  - rewrite Z.mul_1_r, Hmz, <- Z.mul_assoc.
    rewrite <- (Z.pow_add_r 2 (e0 - ez) (ez + 2148)) by lia.
    replace (e0 - ez + (ez + 2148)) with ((e0 + 1074) + 1074) by lia.
    replace (ec + 2148) with ((ec + 1074) + 1074) by lia.
    rewrite (Z.pow_add_r 2 (e0 + 1074) 1074), (Z.pow_add_r 2 (ec + 1074) 1074)
      by lia.
    pose proof pow2_1074_pos. rewrite !Z.mul_assoc.
    apply Z.mul_le_mono_nonneg_r; lia.
Qed.

Lemma binary_round_lower s p e0 sc mc ec :
  -1074 <= e0 -> valid_binary (S754_finite sc mc ec) = true ->
  Zpos mc * 2 ^ (ec + 1074) <= Zpos p * 2 ^ (e0 + 1074) ->
  binary_round prec emax s p e0 = S754_infinity s
  \/ exists z,
       scaled (binary_round prec emax s p e0) = Some (cond_Zopp s z)
       /\ Zpos mc * 2 ^ (ec + 1074) <= z.
Proof.
  intros He0 Hc Hle.
  destruct (binary_round_shape s p e0) as (mz & ez & -> & Hez & Hmz & Hn & Hmin).
  specialize (Hmin He0). pose proof (valid_exponent _ _ _ Hc) as Hec.
  apply (round_lower s (Zpos mz) ez loc_Exact (Zpos mz) 1 sc mc ec);
    try lia; try assumption.
  - now rewrite Z.div_1_r.
  - rewrite Z.mul_1_r, Hmz, <- Z.mul_assoc.
    rewrite <- (Z.pow_add_r 2 (e0 - ez) (ez + 2148)) by lia.
    replace (e0 - ez + (ez + 2148)) with ((e0 + 1074) + 1074) by lia.
    replace (ec + 2148) with ((ec + 1074) + 1074) by lia.
    rewrite (Z.pow_add_r 2 (e0 + 1074) 1074), (Z.pow_add_r 2 (ec + 1074) 1074)
      by lia.
    pose proof pow2_1074_pos. rewrite !Z.mul_assoc.
    apply Z.mul_le_mono_nonneg_r; lia.
Qed.

(** The sign and magnitude of a rounded mantissa, without a bound. *)
Lemma binary_round_sign s p e0 :
  -1074 <= e0 ->
  binary_round prec emax s p e0 = S754_infinity s
  \/ exists z, scaled (binary_round prec emax s p e0) = Some (cond_Zopp s z)
               /\ 0 <= z.
Proof.
  intros He0.
  destruct (binary_round_shape s p e0) as (mz & ez & -> & Hez & Hmz & Hn & Hmin).
  specialize (Hmin He0).
  destruct (binary_round_aux_value s (Zpos mz) ez loc_Exact ltac:(lia) Hn)
    as (m1 & Hm1 & _ & R).
  assert (Hemin : -1074 <= fexp prec emax (Zdigits2 (Zpos mz) + ez))
    by (rewrite fexp64; lia).
  assert (0 <= m1).
  { assert (0 <= Zpos mz / 2 ^ (fexp prec emax (Zdigits2 (Zpos mz) + ez) - ez)).
    { apply Z.div_pos; [lia|]. apply pow2_pos. lia. }
    lia. }
  assert (0 <= 2 ^ (fexp prec emax (Zdigits2 (Zpos mz) + ez) + 1074))
    by (apply Z.pow_nonneg; lia).
  destruct (roundsTo_scaled _ _ _ _ R Hemin) as [E|[Hinf _]];
    [right|left; exact Hinf].
  eexists. split; [exact E|]. nia.
Qed.

(** A view with a scaled value. *)
Lemma scaled_view c k :
  valid_binary c = true -> scaled c = Some k ->
  (exists s, c = S754_zero s /\ k = 0)
  \/ (exists s m e, c = S754_finite s m e
                    /\ k = cond_Zopp s (Zpos m * 2 ^ (e + 1074))
                    /\ 0 < Zpos m * 2 ^ (e + 1074)).
Proof.
  intros V H. destruct c as [s|s| |s m e]; try discriminate.
  - left. exists s. split; [reflexivity|]. exact (scaled_zero _ _ H).
  - right. exists s, m, e. split; [reflexivity|].
    split; [exact (scaled_finite _ _ _ _ H)|].
    apply Z.mul_pos_pos; [lia|]. apply pow2_pos.
    pose proof (valid_exponent _ _ _ V). lia.
Qed.

Lemma normalize_upper D ez c k :
  -1074 <= ez -> valid_binary c = true -> scaled c = Some k ->
  D * 2 ^ (ez + 1074) <= k ->
  atMost (binary_normalize prec emax D ez false) k.
Proof.
  intros Hez V Hc Hle.
  assert (HP : 0 < 2 ^ (ez + 1074)) by (apply pow2_pos; lia).
  destruct D as [|p|p]; unfold binary_normalize.
  - right. exists 0. split; [reflexivity|]. lia.
  - destruct (scaled_view c k V Hc) as [(s & -> & ->)|(s & m & e & -> & -> & Hp)].
    + exfalso. nia.
    + destruct s; unfold cond_Zopp in *; [exfalso; nia|].
      destruct (binary_round_upper false p ez false m e Hez V Hle)
        as (z & Ez & Hz).
      right. exists z. split; [exact Ez|lia].
  - destruct (scaled_view c k V Hc) as [(s & -> & ->)|(s & m & e & -> & -> & Hp)].
    + destruct (binary_round_sign true p ez Hez) as [E|(z & Ez & Hz)];
        [left; exact E|right].
      exists (- z). split; [exact Ez|lia].
    + destruct s; unfold cond_Zopp in Hle |- *.
      * destruct (binary_round_lower true p ez true m e Hez V)
          as [E|(z & Ez & Hz)]; [lia|left; exact E|right].
        exists (- z). split; [exact Ez|lia].
      * destruct (binary_round_sign true p ez Hez) as [E|(z & Ez & Hz)];
          [left; exact E|right].
        exists (- z). split; [exact Ez|lia].
Qed.

Lemma normalize_lower D ez c k :
  -1074 <= ez -> valid_binary c = true -> scaled c = Some k ->
  k <= D * 2 ^ (ez + 1074) ->
  atLeast (binary_normalize prec emax D ez false) k.
Proof.
  intros Hez V Hc Hle.
  assert (HP : 0 < 2 ^ (ez + 1074)) by (apply pow2_pos; lia).
  destruct D as [|p|p]; unfold binary_normalize.
  - right. exists 0. split; [reflexivity|]. lia.
  - destruct (scaled_view c k V Hc) as [(s & -> & ->)|(s & m & e & -> & -> & Hp)].
    + destruct (binary_round_sign false p ez Hez) as [E|(z & Ez & Hz)];
        [left; exact E|right].
      exists z. split; [exact Ez|lia].
    + destruct s; unfold cond_Zopp in Hle |- *.
      * destruct (binary_round_sign false p ez Hez) as [E|(z & Ez & Hz)];
          [left; exact E|right].
        exists z. split; [exact Ez|lia].
      * destruct (binary_round_lower false p ez false m e Hez V)
          as [E|(z & Ez & Hz)]; [lia|left; exact E|right].
        exists z. split; [exact Ez|lia].
  - destruct (scaled_view c k V Hc) as [(s & -> & ->)|(s & m & e & -> & -> & Hp)].
    + exfalso. nia.
    + destruct s; unfold cond_Zopp in *; [|exfalso; nia].
      destruct (binary_round_upper true p ez true m e Hez V ltac:(lia))
        as (z & Ez & Hz).
      right. exists (- z). split; [exact Ez|lia].
Qed.

Lemma aligned_value s m e ez :
  ez <= e -> -1074 <= ez ->
  cond_Zopp s (Zpos (fst (shl_align m e ez))) * 2 ^ (ez + 1074)
  = cond_Zopp s (Zpos m * 2 ^ (e + 1074)).
Proof.
  intros H1 H2. rewrite (shl_align_fst m e ez H1), <- cond_Zopp_mul.
  f_equal. rewrite <- Z.mul_assoc. f_equal.
  rewrite <- Z.pow_add_r by lia. f_equal. lia.
Qed.

Lemma cond_Zopp_negb s v : cond_Zopp (negb s) v = - cond_Zopp s v.
Proof. destruct s; unfold cond_Zopp; cbn [negb]; lia. Qed.

Lemma atMost_scaled r z k : scaled r = Some z -> z <= k -> atMost r k.
Proof. intros H L. right. exists z. auto. Qed.

Lemma atLeast_scaled r z k : scaled r = Some z -> k <= z -> atLeast r k.
Proof. intros H L. right. exists z. auto. Qed.

Section SumBounds.

Variables (x y c : spec_float) (a b k : Z).

Hypothesis Vx : valid_binary x = true.
Hypothesis Vy : valid_binary y = true.
Hypothesis Vc : valid_binary c = true.
Hypothesis Hx : scaled x = Some a.
Hypothesis Hy : scaled y = Some b.
Hypothesis Hc : scaled c = Some k.

Lemma SFadd_upper : a + b <= k -> atMost (SFadd prec emax x y) k.
Proof.
  intros Hle.
  destruct (scaled_view x a Vx Hx) as [(sx & -> & ->)|(sx & mx & ex & -> & -> & Px)];
    destruct (scaled_view y b Vy Hy) as [(sy & -> & ->)|(sy & my & ey & -> & -> & Py)].
  - apply (atMost_scaled _ 0); [destruct sx, sy; reflexivity|lia].
  - eapply atMost_scaled; [exact Hy|lia].
  - eapply atMost_scaled; [exact Hx|lia].
  - pose proof (valid_exponent _ _ _ Vx). pose proof (valid_exponent _ _ _ Vy).
    unfold SFadd. apply (normalize_upper _ _ c k); try assumption; [lia|].
    rewrite Z.mul_add_distr_r, !aligned_value by lia. exact Hle.
Qed.

Lemma SFadd_lower : k <= a + b -> atLeast (SFadd prec emax x y) k.
Proof.
  intros Hle.
  destruct (scaled_view x a Vx Hx) as [(sx & -> & ->)|(sx & mx & ex & -> & -> & Px)];
    destruct (scaled_view y b Vy Hy) as [(sy & -> & ->)|(sy & my & ey & -> & -> & Py)].
  - apply (atLeast_scaled _ 0); [destruct sx, sy; reflexivity|lia].
  - eapply atLeast_scaled; [exact Hy|lia].
  - eapply atLeast_scaled; [exact Hx|lia].
  - pose proof (valid_exponent _ _ _ Vx). pose proof (valid_exponent _ _ _ Vy).
    unfold SFadd. apply (normalize_lower _ _ c k); try assumption; [lia|].
    rewrite Z.mul_add_distr_r, !aligned_value by lia. exact Hle.
Qed.

Lemma SFsub_upper : a - b <= k -> atMost (SFsub prec emax x y) k.
Proof.
  intros Hle.
  destruct (scaled_view x a Vx Hx) as [(sx & -> & ->)|(sx & mx & ex & -> & -> & Px)];
    destruct (scaled_view y b Vy Hy) as [(sy & -> & ->)|(sy & my & ey & -> & -> & Py)].
  - apply (atMost_scaled _ 0); [destruct sx, sy; reflexivity|lia].
  - apply (atMost_scaled _ (cond_Zopp (negb sy) (Zpos my * 2 ^ (ey + 1074))));
      [reflexivity|]. rewrite cond_Zopp_negb. lia.
  - eapply atMost_scaled; [exact Hx|lia].
  - pose proof (valid_exponent _ _ _ Vx). pose proof (valid_exponent _ _ _ Vy).
    unfold SFsub. apply (normalize_upper _ _ c k); try assumption; [lia|].
    rewrite Z.mul_sub_distr_r, !aligned_value by lia. exact Hle.
Qed.

Lemma SFsub_lower : k <= a - b -> atLeast (SFsub prec emax x y) k.
Proof.
  intros Hle.
  destruct (scaled_view x a Vx Hx) as [(sx & -> & ->)|(sx & mx & ex & -> & -> & Px)];
    destruct (scaled_view y b Vy Hy) as [(sy & -> & ->)|(sy & my & ey & -> & -> & Py)].
  - apply (atLeast_scaled _ 0); [destruct sx, sy; reflexivity|lia].
  - apply (atLeast_scaled _ (cond_Zopp (negb sy) (Zpos my * 2 ^ (ey + 1074))));
      [reflexivity|]. rewrite cond_Zopp_negb. lia.
  - eapply atLeast_scaled; [exact Hx|lia].
  - pose proof (valid_exponent _ _ _ Vx). pose proof (valid_exponent _ _ _ Vy).
    unfold SFsub. apply (normalize_lower _ _ c k); try assumption; [lia|].
    rewrite Z.mul_sub_distr_r, !aligned_value by lia. exact Hle.
Qed.

End SumBounds.

(** ** The bounds on numbers *)

Lemma atMost_leb r c k :
  atMost (Prim2SF r) k -> scaled (Prim2SF c) = Some k ->
  (r <=? c)%float = true.
Proof.
  intros [E|(z & Ez & L)] Hc.
  - rewrite leb_spec, E.
    destruct (Prim2SF c) as [s|s| |s m e]; try discriminate;
      try destruct s; reflexivity.
  - exact (leb_of_scaled _ _ _ _ Ez Hc L).
Qed.

Lemma atLeast_leb r c k :
  atLeast (Prim2SF r) k -> scaled (Prim2SF c) = Some k ->
  (c <=? r)%float = true.
Proof.
  intros [E|(z & Ez & L)] Hc.
  - rewrite leb_spec, E.
    destruct (Prim2SF c) as [s|s| |s m e]; try discriminate;
      try destruct s; reflexivity.
  - exact (leb_of_scaled _ _ _ _ Hc Ez L).
Qed.

Section NumberBounds.

Variables (x y c : float) (a b k : Z).

Hypothesis Hx : scaled (Prim2SF x) = Some a.
Hypothesis Hy : scaled (Prim2SF y) = Some b.
Hypothesis Hc : scaled (Prim2SF c) = Some k.

Lemma add_le_bound : a + b <= k -> (x + y <=? c)%float = true.
Proof.
  intros L. apply (atMost_leb _ _ k); [|exact Hc]. rewrite add_spec.
  apply (SFadd_upper _ _ (Prim2SF c) a b k); auto using Prim2SF_valid.
Qed.

Lemma add_ge_bound : k <= a + b -> (c <=? x + y)%float = true.
Proof.
  intros L. apply (atLeast_leb _ _ k); [|exact Hc]. rewrite add_spec.
  apply (SFadd_lower _ _ (Prim2SF c) a b k); auto using Prim2SF_valid.
Qed.

Lemma sub_le_bound : a - b <= k -> (x - y <=? c)%float = true.
Proof.
  intros L. apply (atMost_leb _ _ k); [|exact Hc]. rewrite sub_spec.
  apply (SFsub_upper _ _ (Prim2SF c) a b k); auto using Prim2SF_valid.
Qed.

Lemma sub_ge_bound : k <= a - b -> (c <=? x - y)%float = true.
Proof.
  intros L. apply (atLeast_leb _ _ k); [|exact Hc]. rewrite sub_spec.
  apply (SFsub_lower _ _ (Prim2SF c) a b k); auto using Prim2SF_valid.
Qed.

End NumberBounds.

(** Two numbers that bound each other, one of them finite and not zero, are
    the same number. *)
Lemma leb_antisym x y :
  (x <=? y)%float = true -> (y <=? x)%float = true ->
  truthy y = true -> x = y.
Proof.
  rewrite !leb_spec. unfold truthy, SFleb. intros L1 L2 Hy.
  apply Prim2SF_inj. rewrite (SFcompare_antisym (Prim2SF x) (Prim2SF y)) in L2.
  destruct (SFcompare (Prim2SF x) (Prim2SF y)) as [[| |]|] eqn:C;
    try discriminate.
  clear L1 L2.
  destruct (Prim2SF x) as [sx|sx| |sx mx ex], (Prim2SF y) as [sy|sy| |sy my ey];
    try discriminate Hy; try destruct sx; try destruct sy;
    try discriminate C; try reflexivity; unfold SFcompare in C.
  - destruct (Z.compare_spec ex ey); try discriminate. subst.
    change (PosDef.Pos.compare_cont Eq mx my) with (Pos.compare mx my) in C.
    destruct (Pos.compare_spec mx my); try discriminate. now subst.
  - destruct (Z.compare_spec ex ey); try discriminate. subst.
    change (PosDef.Pos.compare_cont Eq mx my) with (Pos.compare mx my) in C.
    destruct (Pos.compare_spec mx my); try discriminate. now subst.
Qed.

(** A sum whose exact value is a number is that number. *)
Lemma add_exact x y c a b k :
  scaled (Prim2SF x) = Some a -> scaled (Prim2SF y) = Some b ->
  scaled (Prim2SF c) = Some k -> a + b = k -> truthy c = true ->
  (x + y)%float = c.
Proof.
  intros Hx Hy Hc E Ht. apply leb_antisym; [| |exact Ht].
  - apply (add_le_bound x y c a b k); auto. lia.
  - apply (add_ge_bound x y c a b k); auto. lia.
Qed.

Lemma sub_exact x y c a b k :
  scaled (Prim2SF x) = Some a -> scaled (Prim2SF y) = Some b ->
  scaled (Prim2SF c) = Some k -> a - b = k -> truthy c = true ->
  (x - y)%float = c.
Proof.
  intros Hx Hy Hc E Ht. apply leb_antisym; [| |exact Ht].
  - apply (sub_le_bound x y c a b k); auto. lia.
  - apply (sub_ge_bound x y c a b k); auto. lia.
Qed.

(** * The counter of a loop *)

(** ** Integers held by numbers *)

Lemma scaled_Z2F z :
  - 2 ^ 53 < z <= 2 ^ 53 -> scaled (Prim2SF (Z2F z)) = Some (z * 2 ^ 1074).
Proof.
  intros H. destruct (Z.eq_dec z (2 ^ 53)) as [->|N].
  - vm_compute. reflexivity.
  - apply toZ_scaled, toZ_Z2F. lia.
Qed.

Lemma scaled_truthy x k :
  scaled (Prim2SF x) = Some k -> k <> 0 -> truthy x = true.
Proof.
  unfold truthy. intros H N.
  destruct (Prim2SF x) as [s|s| |s m e]; try discriminate; [|reflexivity].
  apply scaled_zero in H. contradiction.
Qed.

(** Below 2^53 the increment of a counter is exact; at 2^53 it is lost. *)
Lemma counter_step i : 0 <= i < 2 ^ 53 -> (Z2F i + 1)%float = Z2F (i + 1).
Proof.
  intros H. pose proof pow2_1074_pos as P.
  apply (add_exact _ _ _ (i * 2 ^ 1074) (1 * 2 ^ 1074) ((i + 1) * 2 ^ 1074)).
  - apply scaled_Z2F. lia.
  - exact scaled_one.
  - apply scaled_Z2F. lia.
  - ring.
  - apply (scaled_truthy _ ((i + 1) * 2 ^ 1074)); [apply scaled_Z2F; lia|nia].
Qed.

Lemma counter_stuck : (Z2F (2 ^ 53) + 1)%float = Z2F (2 ^ 53).
Proof. vm_compute. reflexivity. Qed.

(** The test [i <= hi] on a counter that holds an integer. *)
Lemma counter_test i hi :
  0 <= i <= 2 ^ 53 ->
  (Z2F i <=? hi)%float
  = match Prim2SF hi with
    | S754_nan => false
    | S754_infinity s => negb s
    | S754_zero _ => i <=? 0
    | S754_finite s m e => i <=? Z.shiftl (cond_Zopp s (Zpos m)) e
    end.
Proof.
  intros Hi. pose proof pow2_1074_pos as P.
  pose proof (scaled_Z2F i ltac:(lia)) as Si.
  pose proof (Prim2SF_valid hi) as V.
  destruct (Prim2SF hi) as [s|s| |s m e] eqn:E.
  - destruct (Z.leb_spec i 0) as [L|L].
    + apply (leb_of_scaled _ _ _ 0 Si); [rewrite E; reflexivity|nia].
    + destruct (Z2F i <=? hi)%float eqn:C; [|reflexivity].
      assert (Sh : scaled (Prim2SF hi) = Some 0) by (rewrite E; reflexivity).
      pose proof (leb_scaled _ _ _ _ C Si Sh). nia.
  - rewrite leb_spec, E.
    assert (N : Prim2SF (Z2F i) <> S754_nan).
    { intros N. rewrite N in Si. discriminate. }
    destruct (Prim2SF (Z2F i)) as [s'|s'| |s' m' e']; try discriminate;
      try contradiction; destruct s; try destruct s'; reflexivity.
  - rewrite leb_spec, E. destruct (Prim2SF (Z2F i)) as [s'|[|]| |s' m' e'];
      reflexivity.
  - pose proof (valid_exponent _ _ _ V) as He.
    rewrite (shiftl_scaled s m e He).
    set (a := cond_Zopp s (Zpos m * 2 ^ (e + 1074))).
    assert (Sh : scaled (Prim2SF hi) = Some a) by (rewrite E; reflexivity).
    pose proof (Z.mul_div_le a (2 ^ 1074) P) as D1.
    pose proof (Z.mul_succ_div_gt a (2 ^ 1074) P) as D2.
    destruct (Z.leb_spec i (a / 2 ^ 1074)) as [L|L].
    + apply (leb_of_scaled _ _ _ a Si Sh). nia.
    + destruct (Z2F i <=? hi)%float eqn:C; [|reflexivity].
      pose proof (leb_scaled _ _ _ _ C Si Sh). nia.
Qed.

(** ** The loop *)

Lemma counterLoop_runs hi n :
  forall i fuel,
    0 <= i -> i + Z.of_nat n <= 2 ^ 53 ->
    (forall j, i <= j < i + Z.of_nat n -> (Z2F j <=? hi)%float = true) ->
    (Z2F (i + Z.of_nat n) <=? hi)%float = false ->
    (n < fuel)%nat ->
    counterLoop fuel (Z2F i) hi = Some (map Z2F (zrange i n)).
Proof.
  induction n as [|n IH]; intros i fuel Hi Hn Hin Hout Hf;
    (destruct fuel as [|fuel]; [lia|]); cbn [counterLoop zrange map].
  - rewrite Z.add_0_r in Hout. now rewrite Hout.
  - rewrite (Hin i) by lia. rewrite counter_step by lia.
    rewrite (IH (i + 1) fuel); try lia; [reflexivity| |].
    + intros j Hj. apply Hin. lia.
    + replace (i + 1 + Z.of_nat n) with (i + Z.of_nat (S n)) by lia.
      exact Hout.
Qed.

Lemma counterLoop_never hi :
  (forall i, 0 <= i <= 2 ^ 53 -> (Z2F i <=? hi)%float = true) ->
  forall fuel i, 0 <= i <= 2 ^ 53 -> counterLoop fuel (Z2F i) hi = None.
Proof.
  intros Hall. induction fuel as [|fuel IH]; intros i Hi; [reflexivity|].
  cbn [counterLoop]. rewrite (Hall i Hi).
  destruct (Z.eq_dec i (2 ^ 53)) as [->|N].
  - rewrite counter_stuck, IH by lia. reflexivity.
  - rewrite counter_step, IH by lia. reflexivity.
Qed.

(** X1. The loop [for (let i = start; i <= hi; i++)], with [i] the double it
    is, is the loop that [forCount] counts: when [forCount] answers [n] the
    body sees the [n] integers from [start] on and the loop ends, given more
    than [n] turns of fuel; when it answers [None] no fuel ends the loop,
    because past 2^53 the increment no longer changes the counter. *)
Theorem counterLoop_forCount start hi :
  0 <= start < 2 ^ 53 ->
  match forCount start hi with
  | Some n =>
      forall fuel, (n < fuel)%nat ->
      counterLoop fuel (Z2F start) hi = Some (map Z2F (zrange start n))
  | None => forall fuel, counterLoop fuel (Z2F start) hi = None
  end.
Proof.
  intros Hs. unfold forCount.
  assert (T : forall i, 0 <= i <= 2 ^ 53 -> _) by exact (fun i => counter_test i hi).
  destruct (Prim2SF hi) as [s|s| |s m e] eqn:E; cbv beta iota zeta.
  - (* a zero *)
    intros fuel Hf. apply counterLoop_runs; try lia; try assumption.
    + intros j Hj. rewrite T by lia. apply Z.leb_le. lia.
    + rewrite T by lia. apply Z.leb_gt. lia.
  - destruct s; cbv beta iota.
    + intros fuel Hf. apply counterLoop_runs; try lia; try assumption.
      rewrite T by (change (Z.of_nat 0) with 0; lia). reflexivity.
    + intros fuel. apply counterLoop_never; [|lia].
      intros i Hi. now rewrite T.
  - intros fuel Hf. apply counterLoop_runs; try lia; try assumption.
    rewrite T by (change (Z.of_nat 0) with 0; lia). reflexivity.
  - set (N := Z.shiftl (cond_Zopp s (Zpos m)) e) in *.
    destruct (Z.leb_spec (2 ^ 53) N) as [Hbig|Hsmall]; cbv beta iota.
    + intros fuel. apply counterLoop_never; [|lia].
      intros i Hi. rewrite T by lia. apply Z.leb_le. lia.
    + intros fuel Hf. apply counterLoop_runs; try lia; try assumption.
      * intros j Hj. rewrite T by lia. apply Z.leb_le. lia.
      * rewrite T by lia. apply Z.leb_gt. lia.
Qed.

Lemma counterLoop_forCount_witness :
  counterLoop 13 (Z2F 1) 12 = Some (map Z2F (zrange 1 12))
  /\ forall fuel, counterLoop fuel (Z2F 1) 0x1p53 = None.
Proof.
  assert (H : 0 <= 1 < 2 ^ 53) by lia.
  split.
  - exact (counterLoop_forCount 1 12 H 13%nat (le_n 13)).
  - exact (counterLoop_forCount 1 0x1p53 H).
Defined.

(** * The balance never goes down *)

(** A number between two finite numbers has a scaled value. *)
Lemma between_scaled x lo hi :
  (lo <=? x)%float = true -> (x <=? hi)%float = true ->
  Number_isFinite lo = true -> Number_isFinite hi = true ->
  exists a, scaled (Prim2SF x) = Some a.
Proof.
  rewrite !leb_spec. unfold Number_isFinite.
  destruct (Prim2SF x) as [s|s| |s m e]; try (eexists; reflexivity).
  - destruct s.
    + destruct (Prim2SF lo) as [s'|s'| |s' m' e']; try discriminate;
        try destruct s'; discriminate.
    + intros _. destruct (Prim2SF hi) as [s'|s'| |s' m' e']; try discriminate;
        try destruct s'; discriminate.
  - intros H. rewrite SFleb_nan_r in H. discriminate.
Qed.

Lemma scaled_two : scaled (Prim2SF 2) = Some (2 * 2 ^ 1074).
Proof. vm_compute. reflexivity. Qed.

(** The factor [1 + r] of a rate between 0 and 1 lies between 1 and 2. *)
Lemma growth_factor r :
  (0 <=? r)%float = true -> (r <=? 1)%float = true ->
  exists g, scaled (Prim2SF (1 + r)) = Some g /\ 2 ^ 1074 <= g <= 2 * 2 ^ 1074.
Proof.
  intros H0 H1. pose proof pow2_1074_pos as P.
  destruct (between_scaled r 0 1 H0 H1 eq_refl eq_refl) as [b Hb].
  assert (Hb0 : scaled (Prim2SF 0) = Some 0) by reflexivity.
  pose proof (leb_scaled _ _ _ _ H0 Hb0 Hb) as L0.
  pose proof (leb_scaled _ _ _ _ H1 Hb scaled_one) as L1.
  pose proof (add_le_bound 1 r 2 _ b _ scaled_one Hb scaled_two ltac:(lia)) as U.
  pose proof (add_ge_bound 1 r 1 _ b _ scaled_one Hb scaled_one ltac:(lia)) as L.
  destruct (between_scaled (1 + r) 1 2 L U eq_refl eq_refl) as [g Hg].
  exists g. split; [exact Hg|].
  pose proof (leb_scaled _ _ _ _ L scaled_one Hg).
  pose proof (leb_scaled _ _ _ _ U Hg scaled_two). lia.
Qed.

(** A non-negative balance times such a factor is non-negative and no
    smaller. *)
Lemma grow_nonneg b f g :
  nonneg (Prim2SF b) = true ->
  scaled (Prim2SF f) = Some g -> 2 ^ 1074 <= g ->
  nonneg (Prim2SF (b * f)) = true /\ (b <=? b * f)%float = true.
Proof.
  intros Hb Hf Hg. pose proof pow2_1074_pos as P.
  pose proof (Prim2SF_valid f) as Vf.
  destruct (scaled_view _ _ Vf Hf) as [(s & E & ->)|(s & m & e & E & Eg & Pg)];
    [lia|].
  assert (s = false) as ->.
  { destruct s; [|reflexivity]. unfold cond_Zopp in Eg. lia. }
  unfold cond_Zopp in Eg.
  assert (N : nonneg (Prim2SF (b * f)) = true).
  { rewrite mul_spec, E. unfold SF64mul, SFmul.
    destruct (Prim2SF b) as [sb|sb| |sb mb eb]; try discriminate Hb.
    - reflexivity.
    - destruct sb; [discriminate Hb|reflexivity].
    - destruct sb; [discriminate Hb|]. cbn [xorb].
      pose proof (binary_round_aux_signed false (Zpos (mb * m)) (eb + e)
                    loc_Exact ltac:(lia)) as S.
      destruct (binary_round_aux _ _ _ _ _ _) as [s'|s'| |s' m' e'];
        simpl in S; try contradiction; subst; reflexivity. }
  split; [exact N|].
  destruct (Prim2SF b) as [sb|sb| |sb mb eb] eqn:Eb; try discriminate Hb.
  - (* a zero *)
    apply (leb_of_scaled _ _ 0 0); [rewrite Eb; reflexivity| |lia].
    rewrite mul_spec, Eb, E. reflexivity.
  - destruct sb; [discriminate Hb|].
    rewrite leb_spec, mul_spec, Eb, E. reflexivity.
  - destruct sb; [discriminate Hb|].
    assert (Sb : scaled (Prim2SF b) = Some (Zpos mb * 2 ^ (eb + 1074)))
      by (rewrite Eb; reflexivity).
    assert (0 <= Zpos mb * 2 ^ (eb + 1074)).
    { apply Z.mul_nonneg_nonneg; [lia|]. apply Z.pow_nonneg. lia. }
    apply (mul_ge_bound b f b _ g _ Sb Hf Sb); try lia.
    apply Z.mul_le_mono_nonneg_l; lia.
Qed.

Section BalanceFacts.

Variable Math_pow : float -> float -> float.
Variable inp : ProjectionInput.
Hypothesis starting_nonneg : (0 <=? startingAmount inp)%float = true.
Hypothesis contribution_nonneg :
  (0 <=? contributionPerPayday inp)%float = true.
Hypothesis rate_nonneg : (0 <=? rPerPeriod Math_pow inp)%float = true.
Hypothesis rate_le_one : (rPerPeriod Math_pow inp <=? 1)%float = true.

Lemma period_balanceInvariant i v :
  balanceInvariant inp v -> balanceInvariant inp (period Math_pow inp i v).
Proof.
  intros (Hn & Hs0 & Hb & Hs).
  set (b1 := if windfallHits inp i
             then (var_balance v + windfallAmount inp)%float
             else var_balance v).
  assert (H1 : nonneg (Prim2SF b1) = true
               /\ (var_balance v <=? b1)%float = true).
  { unfold b1. destruct (windfallHits inp i) eqn:Hw.
    - unfold windfallHits in Hw.
      apply andb_prop in Hw. destruct Hw as [Hw _].
      apply andb_prop in Hw. destruct Hw as [_ Hw].
      apply add_nonneg; [assumption|now apply ltb_zero_nonneg].
    - split; [assumption|]. apply leb_refl. now apply nonneg_not_nan. }
  destruct H1 as [Hn1 Hle1].
  destruct (add_nonneg b1 (contributionPerPayday inp) Hn1
              (leb_zero_nonneg _ contribution_nonneg)) as [Hn2 Hle2].
  destruct (growth_factor _ rate_nonneg rate_le_one) as (g & Hg & Hg1 & _).
  destruct (grow_nonneg (b1 + contributionPerPayday inp)
              (1 + rPerPeriod Math_pow inp) g Hn2 Hg Hg1) as [Hn3 Hle3].
  set (b3 := ((b1 + contributionPerPayday inp)
              * (1 + rPerPeriod Math_pow inp))%float) in *.
  assert (Hle : (var_balance v <=? b3)%float = true).
  { eapply leb_trans; [exact Hle1|]. eapply leb_trans; eassumption. }
  assert (Hb' : Forall (fun p => (balance p <=? b3)%float = true)
                       (var_points v)).
  { eapply Forall_impl; [|exact Hb]. intros p Hp. simpl in Hp.
    eapply leb_trans; eassumption. }
  unfold balanceInvariant, period. fold b1. fold b3. simpl.
  split; [assumption|]. split; [eapply leb_trans; eassumption|].
  destruct (keepsPoint inp i).
  - split.
    + apply Forall_app. split; [assumption|].
      constructor; [|constructor]. simpl. apply leb_refl.
      now apply nonneg_not_nan.
    + apply StronglySorted_snoc; [assumption|]. exact Hb'.
  - split; assumption.
Qed.

Lemma initial_balanceInvariant : balanceInvariant inp (initialVars inp).
Proof.
  pose proof (leb_zero_nonneg _ starting_nonneg) as N.
  pose proof (leb_refl _ (nonneg_not_nan _ N)) as R.
  unfold balanceInvariant, initialVars. simpl. split; [exact N|].
  split; [exact R|]. split.
  - constructor; [exact R|constructor].
  - constructor; constructor.
Qed.

End BalanceFacts.

(** X3. When the starting amount and the contribution are not negative and the
    rate of a period lies between 0 and 1, the balance never goes down: the run
    returns, every point has at most the balance of every later point, and the
    final balance is at least the starting amount and the balance of every
    point. *)
Theorem balance_never_decreases Math_pow inp :
  (0 <=? startingAmount inp)%float = true ->
  (0 <=? contributionPerPayday inp)%float = true ->
  (0 <=? rPerPeriod Math_pow inp)%float = true ->
  (rPerPeriod Math_pow inp <=? 1)%float = true ->
  (0x1p53 <=? totalPeriodsOf inp)%float = false ->
  exists r,
    computeProjection Math_pow inp = Some r
    /\ StronglySorted balanceLe (points r)
    /\ (startingAmount inp <=? finalBalance r)%float = true
    /\ Forall (fun p => (balance p <=? finalBalance r)%float = true) (points r).
Proof.
  intros Hs Hc Hr0 Hr1 Hh.
  destruct (computeProjection_returns Math_pow inp Hh) as (n & _ & Hr).
  eexists. split; [exact Hr|]. simpl.
  assert (I : balanceInvariant inp (periods Math_pow inp n 1 (initialVars inp))).
  { apply (periods_invariant Math_pow inp (balanceInvariant inp)).
    - intros i v. now apply period_balanceInvariant.
    - now apply initial_balanceInvariant. }
  destruct I as (_ & I1 & I2 & I3). auto.
Qed.

Lemma balance_never_decreases_witness :
  exists r,
    computeProjection sample_pow thirtyYearsBiweekly = Some r
    /\ StronglySorted balanceLe (points r)
    /\ (startingAmount thirtyYearsBiweekly <=? finalBalance r)%float = true
    /\ Forall (fun p => (balance p <=? finalBalance r)%float = true) (points r).
Proof.
  apply (balance_never_decreases sample_pow thirtyYearsBiweekly);
    vm_compute; reflexivity.
Defined.

(** ** Quotients *)

Lemma new_location_zero d : new_location d 0 = loc_Exact.
Proof.
  unfold new_location, new_location_even, new_location_odd.
  destruct (Z.even d); reflexivity.
Qed.

Lemma Zdigits2_lower q k : 0 <= k -> 2 ^ k <= q -> k < Zdigits2 q.
Proof.
  intros Hk H. assert (0 < 2 ^ k) by (apply pow2_pos; lia).
  destruct q as [|p|p]; try lia. now apply digits2_pos_lower.
Qed.

(** What [SFdiv_core_binary] hands to the rounding: the quotient of the
    shifted mantissa, with enough digits. *)
Lemma SFdiv_core_shape sx mx ex sy my ey :
  valid_binary (S754_finite sx mx ex) = true ->
  valid_binary (S754_finite sy my ey) = true ->
  exists s e',
    0 <= s /\ s + e' = ex - ey /\ -2148 <= e'
    /\ SFdiv_core_binary prec emax (Zpos mx) ex (Zpos my) ey
       = (Zpos mx * 2 ^ s / Zpos my, e',
          new_location (Zpos my) ((Zpos mx * 2 ^ s) mod Zpos my))
    /\ e' <= fexp prec emax (Zdigits2 (Zpos mx * 2 ^ s / Zpos my) + e').
Proof.
  intros Vx Vy.
  destruct (valid_finite _ _ _ Vx) as (Hex & Hmx & _).
  destruct (valid_finite _ _ _ Vy) as (Hey & Hmy & _).
  unfold SFdiv_core_binary.
  change (Zdigits2 (Zpos mx)) with (Zpos (digits2_pos mx)).
  change (Zdigits2 (Zpos my)) with (Zpos (digits2_pos my)).
  set (D := Zpos (digits2_pos mx) + ex - (Zpos (digits2_pos my) + ey)).
  set (e' := Z.min (fexp prec emax D) (ex - ey)).
  set (s := ex - ey - e').
  assert (Hf : fexp prec emax D = Z.max (D - 53) (-1074)) by apply fexp64.
  assert (Hs : 0 <= s) by (unfold s, e'; lia).
  exists s, e'. split; [exact Hs|]. split; [unfold s; lia|].
  split; [unfold e'; lia|].
  assert (Em : forall t, 0 <= t ->
               match t with
               | 0 => Zpos mx
               | Zpos _ => Z.shiftl (Zpos mx) t
               | Zneg _ => 0
               end = Zpos mx * 2 ^ t).
  { intros [|p|p] Ht; try lia. apply Z.shiftl_mul_pow2. lia. }
  rewrite (Em s Hs). clear Em.
  assert (Ed : Z.div_eucl (Zpos mx * 2 ^ s) (Zpos my)
               = (Zpos mx * 2 ^ s / Zpos my, (Zpos mx * 2 ^ s) mod Zpos my)).
  { unfold Z.div, Z.modulo.
    destruct (Z.div_eucl (Zpos mx * 2 ^ s) (Zpos my)); reflexivity. }
  rewrite Ed. split; [reflexivity|].
  rewrite fexp64.
  destruct (Z_le_gt_dec e' (-1074)) as [Hlow|Hhigh]; [lia|].
  (* the quotient has 53 bits *)
  assert (He' : e' <= D - 53) by (unfold e' in *; lia).
  destruct (digits2_pos_bounds mx) as [Lx _].
  destruct (digits2_pos_bounds my) as [_ Uy].
  assert (Hs' : 52 + Zpos (digits2_pos my) <= Zpos (digits2_pos mx) - 1 + s)
    by (unfold s, D in *; lia).
  assert (P1 : 0 < 2 ^ (Zpos (digits2_pos mx) - 1)) by (apply pow2_pos; lia).
  assert (P2 : 0 < 2 ^ s) by (apply pow2_pos; lia).
  assert (Hbig : 2 ^ 52 * Zpos my <= Zpos mx * 2 ^ s).
  { assert (2 ^ (52 + Zpos (digits2_pos my))
            <= 2 ^ (Zpos (digits2_pos mx) - 1 + s))
      by (apply Z.pow_le_mono_r; lia).
    rewrite !Z.pow_add_r in H by lia.
    assert (0 < 2 ^ 52) by (apply pow2_pos; lia).
    set (A := 2 ^ (Zpos (digits2_pos mx) - 1)) in *. set (B := 2 ^ s) in *.
    set (C := 2 ^ Zpos (digits2_pos my)) in *. set (E := 2 ^ 52) in *.
    clearbody A B C E.
    assert (E * Zpos my <= E * C) by nia.
    assert (A * B <= Zpos mx * B) by nia. lia. }
  assert (Hq : 2 ^ 52 <= Zpos mx * 2 ^ s / Zpos my).
  { apply Z.div_le_lower_bound; lia. }
  pose proof (Zdigits2_lower _ 52 ltac:(lia) Hq). lia.
Qed.

Lemma round_nonneg M e l :
  0 <= M -> e <= fexp prec emax (Zdigits2 M + e) ->
  binary_round_aux prec emax false M e l = S754_infinity false
  \/ exists z, scaled (binary_round_aux prec emax false M e l) = Some z
               /\ 0 <= z.
Proof.
  intros HM Hn.
  destruct (binary_round_aux_value false M e l HM Hn) as (m1 & Hm1 & _ & R).
  assert (Hemin : -1074 <= fexp prec emax (Zdigits2 M + e))
    by (rewrite fexp64; lia).
  assert (0 <= m1).
  { assert (0 <= M / 2 ^ (fexp prec emax (Zdigits2 M + e) - e)).
    { apply Z.div_pos; [lia|]. apply pow2_pos. lia. }
    lia. }
  assert (0 <= 2 ^ (fexp prec emax (Zdigits2 M + e) + 1074))
    by (apply Z.pow_nonneg; lia).
  destruct (roundsTo_scaled _ _ _ _ R Hemin) as [E|[Hinf _]];
    [right|left; exact Hinf].
  eexists. split; [exact E|]. unfold cond_Zopp. nia.
Qed.

Section QuotientBounds.

Variables (x y c : float) (a b k : Z).

Hypothesis Hx : scaled (Prim2SF x) = Some a.
Hypothesis Hy : scaled (Prim2SF y) = Some b.
Hypothesis Hc : scaled (Prim2SF c) = Some k.
Hypothesis Ha : 0 <= a.
Hypothesis Hb : 0 < b.

(** The quotient of a non-negative number by a positive one, as a rounded
    mantissa. *)
Lemma div_view :
  (exists s, Prim2SF (x / y) = S754_zero s /\ a = 0)
  \/ exists mx ex my ey s e',
       a = Zpos mx * 2 ^ (ex + 1074) /\ b = Zpos my * 2 ^ (ey + 1074)
       /\ -1074 <= ex /\ -1074 <= ey
       /\ 0 <= s /\ s + e' = ex - ey /\ -2148 <= e'
       /\ e' <= fexp prec emax (Zdigits2 (Zpos mx * 2 ^ s / Zpos my) + e')
       /\ Prim2SF (x / y)
          = binary_round_aux prec emax false (Zpos mx * 2 ^ s / Zpos my) e'
              (new_location (Zpos my) ((Zpos mx * 2 ^ s) mod Zpos my)).
Proof.
  pose proof (Prim2SF_valid x) as Vx. pose proof (Prim2SF_valid y) as Vy.
  destruct (nonneg_view y b Hy ltac:(lia)) as [(sy & Ey & Eb)|(my & ey & Ey & Eb & _)];
    [lia|].
  destruct (nonneg_view x a Hx Ha) as [(sx & Ex & Ea)|(mx & ex & Ex & Ea & _)].
  - left. exists (xorb sx false). split; [|exact Ea].
    rewrite div_spec, Ex, Ey. reflexivity.
  - right. rewrite Ex in Vx. rewrite Ey in Vy.
    destruct (SFdiv_core_shape _ _ _ _ _ _ Vx Vy)
      as (s & e' & Hs & Hse & He' & Hcore & Hn).
    exists mx, ex, my, ey, s, e'.
    pose proof (valid_exponent _ _ _ Vx). pose proof (valid_exponent _ _ _ Vy).
    repeat (split; [assumption|]).
    rewrite div_spec, Ex, Ey. unfold SF64div, SFdiv. rewrite Hcore.
    reflexivity.
Qed.

Lemma div_le_bound : a * 2 ^ 1074 <= k * b -> (x / y <=? c)%float = true.
Proof.
  intros Hle. pose proof pow2_1074_pos as P.
  assert (Hk : 0 <= k) by nia.
  destruct div_view as [(s0 & E & Ea)|(mx & ex & my & ey & s & e' & Ea & Eb
                                       & Hex & Hey & Hs & Hse & He' & Hn & E)].
  { apply (leb_of_scaled _ _ 0 k); [rewrite E; reflexivity|exact Hc|lia]. }
  pose proof (Prim2SF_valid c) as Vc.
  destruct (nonneg_view c k Hc Hk) as [(sc & Ec & Ek)|(mc & ec & Ec & Ek & Pk)].
  { exfalso. subst k.
    assert (0 < a).
    { rewrite Ea. apply Z.mul_pos_pos; [lia|]. apply pow2_pos. lia. }
    nia. }
  rewrite Ec in Vc. pose proof (valid_exponent _ _ _ Vc) as Hec.
  destruct (round_upper false (Zpos mx * 2 ^ s / Zpos my) e'
              (new_location (Zpos my) ((Zpos mx * 2 ^ s) mod Zpos my))
              (Zpos mx * 2 ^ s) (Zpos my) false mc ec) as (z & Ez & Hz);
    try lia; try assumption; try reflexivity.
  - apply Z.div_pos; [|lia]. apply Z.mul_nonneg_nonneg; [lia|].
    apply Z.pow_nonneg. lia.
  - intros ->. apply new_location_zero.
  - (* the value is at most the bound *)
    assert (T : 0 < 2 ^ (ey + 1074)) by (apply pow2_pos; lia).
    apply (Z.mul_le_mono_pos_r _ _ (2 ^ (ey + 1074)) T).
    replace (Zpos mx * 2 ^ s * 2 ^ (e' + 2148) * 2 ^ (ey + 1074))
      with (a * 2 ^ 1074 * 2 ^ 1074).
    + replace (Zpos mc * 2 ^ (ec + 2148) * Zpos my * 2 ^ (ey + 1074))
        with (k * b * 2 ^ 1074); [nia|].
      rewrite Ek, Eb.
      replace (ec + 2148) with ((ec + 1074) + 1074) by lia.
      rewrite (Z.pow_add_r 2 (ec + 1074) 1074) by lia. ring.
    + rewrite Ea, <- !Z.mul_assoc. f_equal.
      rewrite <- !Z.pow_add_r by lia. f_equal. lia.
  - apply (leb_of_scaled _ _ z k); [rewrite E; exact Ez|exact Hc|].
    unfold cond_Zopp in *. lia.
Qed.

Lemma div_ge_bound : k * b <= a * 2 ^ 1074 -> (c <=? x / y)%float = true.
Proof.
  intros Hle. pose proof pow2_1074_pos as P.
  destruct div_view as [(s0 & E & Ea)|(mx & ex & my & ey & s & e' & Ea & Eb
                                       & Hex & Hey & Hs & Hse & He' & Hn & E)].
  { apply (leb_of_scaled _ _ k 0); [exact Hc|rewrite E; reflexivity|nia]. }
  assert (HM : 0 <= Zpos mx * 2 ^ s / Zpos my).
  { apply Z.div_pos; [|lia]. apply Z.mul_nonneg_nonneg; [lia|].
    apply Z.pow_nonneg. lia. }
  destruct (Z_le_gt_dec k 0) as [Hk0|Hkp].
  { destruct (round_nonneg _ _
                (new_location (Zpos my) ((Zpos mx * 2 ^ s) mod Zpos my))
                HM Hn) as [Hinf|(z & Ez & Hz)].
    - apply leb_infinity; [exact (scaled_not_nan _ _ Hc)|].
      rewrite E. exact Hinf.
    - apply (leb_of_scaled _ _ k z Hc); [rewrite E; exact Ez|lia]. }
  pose proof (Prim2SF_valid c) as Vc.
  destruct (nonneg_view c k Hc ltac:(lia)) as [(sc & Ec & Ek)|(mc & ec & Ec & Ek & Pk)];
    [lia|].
  rewrite Ec in Vc. pose proof (valid_exponent _ _ _ Vc) as Hec.
  destruct (round_lower false (Zpos mx * 2 ^ s / Zpos my) e'
              (new_location (Zpos my) ((Zpos mx * 2 ^ s) mod Zpos my))
              (Zpos mx * 2 ^ s) (Zpos my) false mc ec) as [Hinf|(z & Ez & Hz)];
    try lia; try assumption; try reflexivity.
  - assert (T : 0 < 2 ^ (ey + 1074)) by (apply pow2_pos; lia).
    apply (Z.mul_le_mono_pos_r _ _ (2 ^ (ey + 1074)) T).
    replace (Zpos mx * 2 ^ s * 2 ^ (e' + 2148) * 2 ^ (ey + 1074))
      with (a * 2 ^ 1074 * 2 ^ 1074).
    + replace (Zpos mc * 2 ^ (ec + 2148) * Zpos my * 2 ^ (ey + 1074))
        with (k * b * 2 ^ 1074); [nia|].
      rewrite Ek, Eb.
      replace (ec + 2148) with ((ec + 1074) + 1074) by lia.
      rewrite (Z.pow_add_r 2 (ec + 1074) 1074) by lia. ring.
    + rewrite Ea, <- !Z.mul_assoc. f_equal.
      rewrite <- !Z.pow_add_r by lia. f_equal. lia.
  - apply leb_infinity; [exact (scaled_not_nan _ _ Hc)|].
    rewrite E. exact Hinf.
  - apply (leb_of_scaled _ _ k z Hc); [rewrite E; exact Ez|].
    unfold cond_Zopp in *. lia.
Qed.

End QuotientBounds.

(** A finite positive number divided by itself is 1. *)
Lemma div_self x :
  Number_isFinite x = true -> (0 <? x)%float = true -> (x / x)%float = 1%float.
Proof.
  intros Hf Hp. pose proof pow2_1074_pos as P.
  assert (S : exists a, scaled (Prim2SF x) = Some a).
  { unfold Number_isFinite in Hf.
    destruct (Prim2SF x) as [s|s| |s m e]; try discriminate;
      eexists; reflexivity. }
  destruct S as [a Ha].
  assert (S0 : scaled (Prim2SF 0) = Some 0) by reflexivity.
  pose proof (ltb_scaled _ _ _ _ Hp S0 Ha) as Hpos.
  apply leb_antisym; [| |reflexivity].
  - apply (div_le_bound x x 1 a a _ Ha Ha scaled_one); lia.
  - apply (div_ge_bound x x 1 a a _ Ha Ha scaled_one); lia.
Qed.

(** * A chart of at most 242 points *)

Lemma scaled_finite_number x a :
  scaled (Prim2SF x) = Some a -> Number_isFinite x = true.
Proof. unfold Number_isFinite. destruct (Prim2SF x); simpl; congruence. Qed.

(** A number that holds an integer other than 0 is that integer's number. *)
Lemma toZ_is_Z2F x N :
  toZ x = Some N -> N <> 0 -> - 2 ^ 53 < N < 2 ^ 53 -> x = Z2F N.
Proof.
  intros H N0 B. pose proof pow2_1074_pos as P.
  pose proof (toZ_scaled _ _ H) as Sx.
  pose proof (scaled_Z2F N ltac:(lia)) as Sz.
  apply leb_antisym.
  - apply (leb_of_scaled _ _ _ _ Sx Sz). lia.
  - apply (leb_of_scaled _ _ _ _ Sz Sx). lia.
  - apply (scaled_truthy _ _ Sz). nia.
Qed.

(** The ceiling of a finite number that is not negative is no smaller. *)
Lemma Math_ceil_ge q :
  nonneg (Prim2SF q) = true -> Number_isFinite q = true ->
  (q <=? Math_ceil q)%float = true.
Proof.
  intros Hn Hf. pose proof pow2_1074_pos as P.
  pose proof (Prim2SF_valid q) as V.
  assert (R : isNaN q = false -> (q <=? q)%float = true) by apply leb_refl.
  unfold Math_ceil. unfold isNaN in R.
  destruct (Prim2SF q) as [s|s| |s m e] eqn:E; try (now apply R).
  destruct s; [discriminate Hn|].
  destruct (Z.leb_spec 0 e) as [He|He]; [now apply R|].
  cbn [negb andb]. rewrite andb_false_r.
  pose proof (valid_exponent _ _ _ V) as Hmin.
  destruct (valid_finite _ _ _ V) as (_ & Hm & _).
  rewrite (shiftl_scaled true m e Hmin). unfold cond_Zopp.
  set (a := Zpos m * 2 ^ (e + 1074)).
  assert (Sq : scaled (Prim2SF q) = Some a) by (rewrite E; reflexivity).
  assert (Ha : 0 < a).
  { apply Z.mul_pos_pos; [lia|]. apply pow2_pos. lia. }
  assert (Hlt : a < 2 ^ 52 * 2 ^ 1074).
  { unfold a.
    assert (2 ^ (e + 1074) <= 2 ^ 1073) by (apply Z.pow_le_mono_r; lia).
    assert (0 < 2 ^ (e + 1074)) by (apply pow2_pos; lia).
    replace (2 ^ 1074) with (2 * 2 ^ 1073)
      by (rewrite <- Z.pow_succ_r by lia; reflexivity).
    change (2 ^ 53) with (2 * 2 ^ 52) in Hm.
    set (X := 2 ^ (e + 1074)) in *. set (Y := 2 ^ 1073) in *.
    set (W := 2 ^ 52) in *. clearbody X Y W. nia. }
  pose proof (Z.mul_div_le (- a) (2 ^ 1074) P) as D1.
  pose proof (Z.mul_succ_div_gt (- a) (2 ^ 1074) P) as D2.
  set (z := - (- a / 2 ^ 1074)) in *.
  assert (Hz : 0 < z <= 2 ^ 52) by (unfold z; nia).
  apply (leb_of_scaled _ _ a (z * 2 ^ 1074) Sq).
  - apply scaled_Z2F. change (2 ^ 53) with (2 * 2 ^ 52). lia.
  - unfold z. nia.
Qed.

Lemma scaled_240 : scaled (Prim2SF 240) = Some (240 * 2 ^ 1074).
Proof. vm_compute. reflexivity. Qed.

(** For the horizons below 57600 the stride is checked one by one. *)
Lemma small_strides : forallb strideOK (zrange 0 (Z.to_nat 57600)) = true.
Proof. vm_compute. reflexivity. Qed.

Lemma stride_of_small N : 0 <= N < 57600 -> strideOK N = true.
Proof.
  intros H. pose proof small_strides as S.
  rewrite forallb_forall in S. apply S. apply zrange_In. lia.
Qed.

(** The stride for 240 points, at any horizon. *)
Lemma stride_240 tp N :
  toZ tp = Some N -> 0 <= N < 2 ^ 53 ->
  exists s, toZ (Math_max 1 (Math_ceil (tp / 240))) = Some s
            /\ 1 <= s /\ N / s <= 240.
Proof.
  intros HN B. pose proof pow2_1074_pos as P.
  destruct (Z_lt_le_dec N 57600) as [Hsmall|Hbig].
  - (* checked *)
    assert (C : strideOK N = true) by (apply stride_of_small; lia).
    assert (E : (tp / 240)%float = (Z2F N / 240)%float
                \/ (N = 0 /\ tp = neg_zero)).
    { destruct (Z.eq_dec N 0) as [->|N0].
      - unfold toZ in HN.
        destruct (Prim2SF tp) as [s|s| |s m e] eqn:Et; try discriminate.
        + destruct s.
          * right. split; [reflexivity|]. apply Prim2SF_inj. exact Et.
          * left. f_equal. apply Prim2SF_inj. exact Et.
        + exfalso.
          pose proof (Prim2SF_valid tp) as V. rewrite Et in V.
          pose proof (valid_exponent _ _ _ V) as Hmin.
          assert (T : toZ tp = Some 0) by (unfold toZ; rewrite Et; exact HN).
          apply toZ_scaled in T. rewrite Et in T.
          apply scaled_finite in T.
          assert (0 < Zpos m * 2 ^ (e + 1074)).
          { apply Z.mul_pos_pos; [lia|]. apply pow2_pos. lia. }
          destruct s; unfold cond_Zopp in T; lia.
      - left. f_equal. apply toZ_is_Z2F; [assumption|assumption|lia]. }
    unfold strideOK in C. destruct E as [E|[-> ->]].
    + rewrite E.
      destruct (toZ (Math_max 1 (Math_ceil (Z2F N / 240)))) as [s|];
        [|discriminate].
      apply andb_prop in C. destruct C as [C1 C2].
      apply Z.leb_le in C1, C2. exists s. auto.
    + exists 1. split; [vm_compute; reflexivity|]. split; [lia|].
      rewrite Z.div_0_l; lia.
  - (* by the bounds of the quotient *)
    set (k := N / 240).
    assert (Hk : 240 <= k) by (unfold k; apply Z.div_le_lower_bound; lia).
    assert (Hk1 : 240 * k <= N) by (unfold k; apply Z.mul_div_le; lia).
    assert (Hk2 : N < 240 * (k + 1)).
    { pose proof (Z.mul_succ_div_gt N 240 ltac:(lia)). unfold k. lia. }
    pose proof (toZ_scaled _ _ HN) as St.
    assert (Sk : scaled (Prim2SF (Z2F k)) = Some (k * 2 ^ 1074))
      by (apply scaled_Z2F; lia).
    assert (S0 : scaled (Prim2SF 0) = Some 0) by reflexivity.
    set (q := (tp / 240)%float).
    assert (Q1 : (Z2F k <=? q)%float = true).
    { apply (div_ge_bound tp 240 (Z2F k) _ _ _ St scaled_240 Sk); nia. }
    assert (Q2 : (q <=? tp)%float = true).
    { apply (div_le_bound tp 240 tp _ _ _ St scaled_240 St); nia. }
    assert (Q0 : (0 <=? q)%float = true).
    { apply (div_ge_bound tp 240 0 _ _ _ St scaled_240 S0); nia. }
    destruct (between_scaled q 0 tp Q0 Q2 eq_refl (scaled_finite_number _ _ St))
      as [sq Sq].
    pose proof (scaled_finite_number _ _ Sq) as Fq.
    pose proof (Math_ceil_ge q (leb_zero_nonneg _ Q0) Fq) as G.
    destruct (Math_ceil_integer q Fq) as [c Hc].
    assert (Hkc : k <= c).
    { apply (leb_toZ (Z2F k) (Math_ceil q)); [|apply toZ_Z2F; lia|exact Hc].
      eapply leb_trans; eassumption. }
    assert (Hm : Math_max 1 (Math_ceil q) = Math_ceil q).
    { destruct (Math_max_cases 1 (Math_ceil q) eq_refl (toZ_not_nan _ _ Hc))
        as [[_ L]|[E _]]; [|exact E].
      pose proof (leb_toZ _ _ _ _ L Hc toZ_one). lia. }
    exists c. rewrite Hm. split; [exact Hc|]. split; [lia|].
    assert (N / c < 241); [|lia].
    apply Z.div_lt_upper_bound; [lia|]. nia.
Qed.

(** X4. With [maxPoints = 240], the default and the value the app passes, a run
    over a horizon below 2^53 returns at most 242 points, whatever the horizon. *)
Theorem at_most_242_points Math_pow inp N :
  maxPoints inp = 240%float ->
  toZ (totalPeriodsOf inp) = Some N -> N < 2 ^ 53 ->
  exists r,
    computeProjection Math_pow inp = Some r
    /\ (List.length (points r) <= 242)%nat.
Proof.
  intros HM HN Hsmall.
  destruct (computeProjection_recorded Math_pow inp N HN Hsmall)
    as (r & Hr & Hidx).
  exists r. split; [assumption|].
  assert (Hlen : List.length (points r) = List.length (recorded inp N)).
  { rewrite <- Hidx. symmetry. apply length_map. }
  rewrite Hlen.
  pose proof (horizon_nonneg inp N HN) as H0.
  assert (Hk : keepAll inp = false) by (unfold keepAll; rewrite HM; reflexivity).
  destruct (stride_240 _ N HN ltac:(lia)) as (s & Hs & Hs1 & Hdiv).
  assert (Hstep : toZ (sampleStep inp) = Some s).
  { unfold sampleStep. rewrite Hk, HM. exact Hs. }
  destruct (recorded_stride inp N HN s Hk Hstep Hs1) as [_ L]. lia.
Qed.

Lemma at_most_242_points_witness :
  exists r,
    computeProjection sample_pow thirtyYearsBiweekly = Some r
    /\ (List.length (points r) <= 242)%nat.
Proof.
  apply (at_most_242_points sample_pow thirtyYearsBiweekly 780);
    [reflexivity|vm_compute; reflexivity|lia].
Defined.

(** * The rates that are compared *)

Lemma scaled_15 : scaled (Prim2SF 15) = Some (15 * 2 ^ 1074).
Proof. vm_compute. reflexivity. Qed.

(** X5. The three rates of the comparison are in order and within [1, 15], for
    every rate of the form that is not NaN; the middle one is the rate of the
    single projection. *)
Theorem compare_rates_ordered f :
  isNaN (form_annualRatePct f) = false ->
  exists low base high,
    compareRates f = [low; base; high]
    /\ base = clamp (form_annualRatePct f) 1 15
    /\ (1 <=? low)%float = true /\ (low <=? base)%float = true
    /\ (base <=? high)%float = true /\ (high <=? 15)%float = true.
Proof.
  intros Hn. pose proof pow2_1074_pos as P.
  set (base := clamp (form_annualRatePct f) 1 15).
  destruct (clamp_range 1 15 (form_annualRatePct f) eq_refl Hn) as [B1 B15].
  fold (clamp (form_annualRatePct f) 1 15) in B1, B15. fold base in B1, B15.
  destruct (between_scaled base 1 15 B1 B15 eq_refl eq_refl) as [b Sb].
  pose proof (leb_scaled _ _ _ _ B1 scaled_one Sb) as Lb.
  pose proof (scaled_finite_number _ _ Sb) as Fb.
  pose proof (finite_not_nan _ Fb) as Nb.
  (* the rate below *)
  assert (D : (base - 2 <=? base)%float = true).
  { apply (sub_le_bound base 2 base b _ b Sb scaled_two Sb). lia. }
  assert (ND : isNaN (base - 2) = false)
    by (apply sub_finite_not_nan; [exact Nb|reflexivity]).
  destruct (clamp_range 1 15 (base - 2) eq_refl ND) as [L1 L15].
  assert (Llow : (clamp (base - 2) 1 15 <=? base)%float = true).
  { unfold clamp.
    assert (M : (Math_max 1 (base - 2) <=? base)%float = true).
    { destruct (Math_max_cases 1 (base - 2) eq_refl ND) as [[-> _]|[-> _]];
        assumption. }
    destruct (leb_not_nan _ _ M) as [NM _].
    destruct (Math_min_cases 15 (Math_max 1 (base - 2)) eq_refl NM)
      as [[-> L]|[-> _]]; [|exact M].
    eapply leb_trans; eassumption. }
  (* the rate above *)
  assert (Nn : nonneg (Prim2SF base) = true).
  { apply leb_zero_nonneg. eapply leb_trans; [|exact B1]. reflexivity. }
  destruct (add_nonneg base 2 Nn eq_refl) as [NU U].
  pose proof (nonneg_not_nan _ NU) as NA.
  destruct (clamp_range 1 15 (base + 2) eq_refl NA) as [H1 H15].
  assert (Lhigh : (base <=? clamp (base + 2) 1 15)%float = true).
  { unfold clamp.
    assert (M : (base <=? Math_max 1 (base + 2))%float = true).
    { eapply leb_trans; [exact U|]. now apply Math_max_ge_r. }
    destruct (leb_not_nan _ _ M) as [_ NM].
    destruct (Math_min_cases 15 (Math_max 1 (base + 2)) eq_refl NM)
      as [[-> _]|[-> _]]; assumption. }
  exists (clamp (base - 2) 1 15), base, (clamp (base + 2) 1 15).
  split; [reflexivity|]. split; [reflexivity|]. auto.
Qed.

Lemma compare_rates_ordered_witness :
  exists low base high,
    compareRates bonusInYearThree = [low; base; high]
    /\ base = clamp (form_annualRatePct bonusInYearThree) 1 15
    /\ (1 <=? low)%float = true /\ (low <=? base)%float = true
    /\ (base <=? high)%float = true /\ (high <=? 15)%float = true.
Proof. apply (compare_rates_ordered bonusInYearThree). reflexivity. Defined.

(** * The geometry of the chart *)

Lemma sub_zero_r x : (x - 0)%float = x.
Proof.
  apply Prim2SF_inj. rewrite sub_spec.
  change (Prim2SF 0) with (S754_zero false).
  destruct (Prim2SF x) as [[|]|[|]| |s m e]; reflexivity.
Qed.

Lemma zero_div d :
  Number_isFinite d = true -> (0 <? d)%float = true -> (0 / d)%float = 0%float.
Proof.
  intros Hf Hp. apply Prim2SF_inj. rewrite div_spec.
  rewrite ltb_spec in Hp. unfold Number_isFinite in Hf.
  change (Prim2SF 0) with (S754_zero false) in *.
  destruct (Prim2SF d) as [s|s| |s m e]; try discriminate.
  destruct s; [cbv in Hp; discriminate|reflexivity].
Qed.

Lemma leb_ltb_trans x y z :
  (x <? y)%float = true -> (y <=? z)%float = true -> (x <? z)%float = true.
Proof.
  intros H1 H2.
  destruct (ltb_not_nan _ _ H1) as [Nx _].
  destruct (leb_not_nan _ _ H2) as [_ Nz].
  destruct (x <? z)%float eqn:E; [reflexivity|].
  pose proof (leb_total x z Nx Nz E) as L.
  pose proof (leb_trans _ _ _ H2 L) as C.
  rewrite (ltb_not_leb _ _ H1) in C. discriminate.
Qed.

Lemma eqb_false_of_ltb x y : (x <? y)%float = true -> (y =? x)%float = false.
Proof.
  rewrite ltb_spec, eqb_spec. unfold SFltb, SFeqb.
  rewrite (SFcompare_antisym (Prim2SF x) (Prim2SF y)).
  destruct (SFcompare (Prim2SF x) (Prim2SF y)) as [[| |]|]; simpl;
    congruence.
Qed.

(** ** The extent of the vertical axis *)

Lemma Math_max_fold l :
  forall acc,
    Number_isFinite acc = true -> (1 <=? acc)%float = true ->
    Forall (fun y => Number_isFinite y = true) l ->
    Number_isFinite (fold_left Math_max l acc) = true
    /\ (1 <=? fold_left Math_max l acc)%float = true.
Proof.
  induction l as [|y l IH]; intros acc Hf H1 Hl; [now split|].
  inversion Hl as [|? ? Hy Hl']; subst. cbn [fold_left]. apply IH; auto.
  - destruct (Math_max_cases acc y (finite_not_nan _ Hf) (finite_not_nan _ Hy))
      as [[-> _]|[-> _]]; assumption.
  - destruct (Math_max_cases acc y (finite_not_nan _ Hf) (finite_not_nan _ Hy))
      as [[-> _]|[-> L]]; [assumption|]. eapply leb_trans; eassumption.
Qed.

Lemma safeSeries_finite series :
  Forall (fun y => Number_isFinite y = true) (map point_y (safeSeries series)).
Proof.
  apply Forall_forall. intros y Hy. apply in_map_iff in Hy.
  destruct Hy as (p & <- & Hp). unfold safeSeries in Hp.
  apply filter_In in Hp. destruct Hp as [_ Hp].
  apply andb_prop in Hp. now destruct Hp.
Qed.

(** X8. Whatever the series and the override, the extent [yMaxMoney] of the
    vertical axis is a finite number that is at least 1: points that are not
    finite are filtered out, and an override that is not finite is not used. *)
Theorem yMaxMoney_safe yMaxOverride series contribSeries :
  Number_isFinite (yMaxMoneyOf yMaxOverride series contribSeries) = true
  /\ (1 <=? yMaxMoneyOf yMaxOverride series contribSeries)%float = true.
Proof.
  unfold yMaxMoneyOf. destruct (Number_isFinite yMaxOverride) eqn:Ho.
  - pose proof (finite_not_nan _ Ho) as No.
    split; [|now apply Math_max_ge_l].
    destruct (Math_max_cases 1 yMaxOverride eq_refl No) as [[-> _]|[-> _]];
      [reflexivity|assumption].
  - unfold Math_max_of. cbn [fold_left].
    change (Math_max neg_infinity 1) with 1%float.
    apply Math_max_fold; try reflexivity.
    apply Forall_app. split; apply safeSeries_finite.
Qed.

(** ** Values to pixels *)

Section Pixels.

Variable Math_log10 : float -> float.

Lemma scaled_300 : scaled (Prim2SF 300) = Some (300 * 2 ^ 1074).
Proof. vm_compute. reflexivity. Qed.

Lemma scaled_318 : scaled (Prim2SF 318) = Some (318 * 2 ^ 1074).
Proof. vm_compute. reflexivity. Qed.

Lemma scaled_18 : scaled (Prim2SF 18) = Some (18 * 2 ^ 1074).
Proof. vm_compute. reflexivity. Qed.

Lemma yToPx_linear yMaxMoney y :
  (1 <=? yMaxMoney)%float = true ->
  yToPx Math_log10 false yMaxMoney y = (318 - y / yMaxMoney * 300)%float.
Proof.
  intros H1. unfold yToPx, Chart.yMin.
  assert (Hp : (0 <? yMaxMoney)%float = true)
    by (apply (leb_ltb_trans 0 1); [reflexivity|exact H1]).
  rewrite (eqb_false_of_ltb _ _ Hp), !sub_zero_r. reflexivity.
Qed.

(** X9. In linear mode, with a finite extent [yMaxMoney >= 1] (the extent
    always is): the value 0 is drawn on the baseline, at 318; the value
    [yMaxMoney] on the top line, at 18; and every value between 0 and
    [yMaxMoney] between the two. *)
Theorem yToPx_linear_in_plot yMaxMoney :
  Number_isFinite yMaxMoney = true -> (1 <=? yMaxMoney)%float = true ->
  yToPx Math_log10 false yMaxMoney 0 = 318%float
  /\ yToPx Math_log10 false yMaxMoney yMaxMoney = 18%float
  /\ forall y,
       (0 <=? y)%float = true -> (y <=? yMaxMoney)%float = true ->
       (18 <=? yToPx Math_log10 false yMaxMoney y)%float = true
       /\ (yToPx Math_log10 false yMaxMoney y <=? 318)%float = true.
Proof.
  intros Hf H1. pose proof pow2_1074_pos as P.
  assert (Hp : (0 <? yMaxMoney)%float = true)
    by (apply (leb_ltb_trans 0 1); [reflexivity|exact H1]).
  assert (S0 : scaled (Prim2SF 0) = Some 0) by reflexivity.
  split; [|split].
  - rewrite yToPx_linear, zero_div by assumption. reflexivity.
  - rewrite yToPx_linear, div_self by assumption. reflexivity.
  - intros y Hy0 Hy1. rewrite yToPx_linear by assumption.
    destruct (between_scaled y 0 yMaxMoney Hy0 Hy1 eq_refl Hf) as [a Sa].
    destruct (between_scaled yMaxMoney 1 yMaxMoney H1
                (leb_refl _ (finite_not_nan _ Hf)) eq_refl Hf) as [b Sb].
    pose proof (leb_scaled _ _ _ _ Hy0 S0 Sa) as La.
    pose proof (leb_scaled _ _ _ _ Hy1 Sa Sb) as Lab.
    pose proof (ltb_scaled _ _ _ _ Hp S0 Sb) as Lb.
    (* the ratio lies between 0 and 1 *)
    assert (T0 : (0 <=? y / yMaxMoney)%float = true).
    { apply (div_ge_bound y yMaxMoney 0 a b 0 Sa Sb S0); lia. }
    assert (T1 : (y / yMaxMoney <=? 1)%float = true).
    { apply (div_le_bound y yMaxMoney 1 a b _ Sa Sb scaled_one); nia. }
    destruct (between_scaled _ 0 1 T0 T1 eq_refl eq_refl) as [t St].
    pose proof (leb_scaled _ _ _ _ T0 S0 St) as Lt0.
    pose proof (leb_scaled _ _ _ _ T1 St scaled_one) as Lt1.
    (* and its share of the height between 0 and 300 *)
    assert (W0 : (0 <=? y / yMaxMoney * 300)%float = true).
    { apply (mul_ge_bound _ 300 0 t _ 0 St scaled_300 S0); nia. }
    assert (W1 : (y / yMaxMoney * 300 <=? 300)%float = true).
    { apply (mul_le_bound _ 300 300 t _ _ St scaled_300 scaled_300); nia. }
    destruct (between_scaled _ 0 300 W0 W1 eq_refl eq_refl) as [w Sw].
    pose proof (leb_scaled _ _ _ _ W0 S0 Sw) as Lw0.
    pose proof (leb_scaled _ _ _ _ W1 Sw scaled_300) as Lw1.
    split.
    + apply (sub_ge_bound 318 _ 18 _ w _ scaled_318 Sw scaled_18). lia.
    + apply (sub_le_bound 318 _ 318 _ w _ scaled_318 Sw scaled_318). lia.
Qed.

(** X10. In logarithmic mode the divisor [logT(yMaxMoney) || 1] is never 0, so
    the test [denom === 0] never holds; and on a host with [log10(1) = 0] every
    value that is NaN, zero or negative is drawn on the baseline, at 318, as
    long as the divisor is finite. *)
Theorem yToPx_log_baseline yMaxMoney y :
  yToPx Math_log10 true yMaxMoney y
  = (318 - logT Math_log10 y / orElse (logT Math_log10 yMaxMoney) 1 * 300)%float
  /\ (Math_log10 1 = 0%float ->
      Number_isFinite (orElse (logT Math_log10 yMaxMoney) 1) = true ->
      isNaN y = true \/ (y <=? 0)%float = true ->
      yToPx Math_log10 true yMaxMoney y = 318%float).
Proof.
  set (denom := orElse (logT Math_log10 yMaxMoney) 1).
  assert (Ht : truthy denom = true).
  { unfold denom, orElse.
    destruct (truthy (logT Math_log10 yMaxMoney)) eqn:E; [exact E|reflexivity]. }
  assert (Hz : (denom =? 0)%float = false).
  { rewrite eqb_spec. change (Prim2SF 0) with (S754_zero false).
    unfold truthy in Ht.
    destruct (Prim2SF denom) as [s|s| |s m e]; try discriminate;
      destruct s; reflexivity. }
  assert (E : yToPx Math_log10 true yMaxMoney y
              = (318 - logT Math_log10 y / denom * 300)%float).
  { unfold yToPx. fold denom. rewrite Hz. reflexivity. }
  split; [exact E|]. intros Hlog Hf Hy. rewrite E.
  assert (L : logT Math_log10 y = 0%float).
  { unfold logT.
    assert (V : Math_max 0 (orElse y 0) = 0%float).
    { unfold orElse. destruct (truthy y) eqn:Ty; [|reflexivity].
      destruct Hy as [Hy|Hy].
      - rewrite (truthy_not_nan _ Ty) in Hy. discriminate.
      - destruct (Math_max_cases 0 y eq_refl (truthy_not_nan _ Ty))
          as [[-> _]|[Em L]]; [reflexivity|].
        (* [y] is a zero, which [truthy] excludes *)
        exfalso. rewrite leb_spec in Hy, L. unfold truthy in Ty.
        change (Prim2SF 0) with (S754_zero false) in *.
        destruct (Prim2SF y) as [s|s| |s m e]; try discriminate;
          destruct s; discriminate. }
    rewrite V. change (0 + 1)%float with 1%float. exact Hlog. }
  rewrite L. apply Prim2SF_inj. rewrite sub_spec, mul_spec, div_spec.
  unfold truthy in Ht. unfold Number_isFinite in Hf.
  change (Prim2SF 0) with (S754_zero false).
  destruct (Prim2SF denom) as [s|s| |s m e]; try discriminate;
    destruct s; reflexivity.
Qed.

End Pixels.

Lemma yToPx_linear_in_plot_witness :
  yToPx sample_log10 false 1000 0 = 318%float
  /\ yToPx sample_log10 false 1000 1000 = 18%float
  /\ forall y,
       (0 <=? y)%float = true -> (y <=? 1000)%float = true ->
       (18 <=? yToPx sample_log10 false 1000 y)%float = true
       /\ (yToPx sample_log10 false 1000 y <=? 318)%float = true.
Proof. apply (yToPx_linear_in_plot sample_log10 1000); reflexivity. Defined.

Lemma yToPx_log_baseline_witness :
  yToPx sample_log10 true 999999 (-5) = 318%float.
Proof.
  destruct (yToPx_log_baseline sample_log10 999999 (-5)) as [_ H].
  apply H; [reflexivity|reflexivity|right; reflexivity].
Defined.

(** X11. The horizontal mapping: with all points at the same [x] everything is
    drawn at the left edge, 56; otherwise, for finite bounds [xMin < xMax]
    whose difference is finite, [xMin] is drawn at the left edge and [xMax] at
    the right edge, 900. *)
Theorem xToPx_edges xMin xMax :
  (forall x, (xMax =? xMin)%float = true -> xToPx xMin xMax x = 56%float)
  /\ (Number_isFinite xMin = true -> Number_isFinite xMax = true ->
      (xMin <? xMax)%float = true ->
      Number_isFinite (xMax - xMin) = true ->
      xToPx xMin xMax xMin = 56%float /\ xToPx xMin xMax xMax = 900%float).
Proof.
  split.
  - intros x E. unfold xToPx. rewrite E. reflexivity.
  - intros Fmin Fmax Hlt Fd. unfold xToPx.
    rewrite (eqb_false_of_ltb _ _ Hlt).
    (* the difference is positive: scaled values are integers *)
    assert (Hd : (0 <? xMax - xMin)%float = true).
    { assert (Sa : exists a, scaled (Prim2SF xMax) = Some a).
      { unfold Number_isFinite in Fmax.
        destruct (Prim2SF xMax); try discriminate; eexists; reflexivity. }
      assert (Sb : exists b, scaled (Prim2SF xMin) = Some b).
      { unfold Number_isFinite in Fmin.
        destruct (Prim2SF xMin); try discriminate; eexists; reflexivity. }
      destruct Sa as [a Sa], Sb as [b Sb].
      pose proof (ltb_scaled _ _ _ _ Hlt Sb Sa) as L.
      assert (S1 : scaled (Prim2SF 0x1p-1074) = Some 1)
        by (vm_compute; reflexivity).
      apply (leb_ltb_trans 0 0x1p-1074); [reflexivity|].
      apply (sub_ge_bound xMax xMin _ a b 1 Sa Sb S1). lia. }
    split.
    + rewrite (sub_diag _ Fmin), zero_div by assumption. reflexivity.
    + rewrite div_self by assumption. reflexivity.
Qed.

Lemma xToPx_edges_witness :
  xToPx 0 30 0 = 56%float /\ xToPx 0 30 30 = 900%float.
Proof.
  destruct (xToPx_edges 0 30) as [_ H]. apply H; reflexivity.
Defined.

(** * The point under the pointer *)

Lemma scaled_of_finite x : Number_isFinite x = true -> exists a, scaled (Prim2SF x) = Some a.
Proof.
  unfold Number_isFinite.
  destruct (Prim2SF x); try discriminate; eexists; reflexivity.
Qed.

Lemma Z2F_pred len : 1 <= len < 2 ^ 53 -> (Z2F len - 1)%float = Z2F (len - 1).
Proof.
  intros H. pose proof pow2_1074_pos as P.
  destruct (Z.eq_dec len 1) as [->|N]; [reflexivity|].
  apply (sub_exact _ _ _ (len * 2 ^ 1074) (1 * 2 ^ 1074)
           ((len - 1) * 2 ^ 1074)).
  - apply scaled_Z2F. lia.
  - exact scaled_one.
  - apply scaled_Z2F. lia.
  - lia.
  - apply (scaled_truthy _ ((len - 1) * 2 ^ 1074)); [apply scaled_Z2F; lia|nia].
Qed.

(** A number clamped by [Math.max(0, Math.min(hi, v))] between 0 and an
    integer [hi], for an integer [v]. *)
Lemma clamp_index hi v b z :
  toZ hi = Some b -> 0 <= b -> toZ v = Some z ->
  exists k, toZ (Math_max 0 (Math_min hi v)) = Some k /\ 0 <= k <= b.
Proof.
  intros Hb Lb Hz.
  pose proof (toZ_not_nan _ _ Hb) as Nb. pose proof (toZ_not_nan _ _ Hz) as Nz.
  assert (T0 : toZ 0 = Some 0) by reflexivity.
  assert (M : exists m, toZ (Math_min hi v) = Some m /\ m <= b).
  { destruct (Math_min_cases hi v Nb Nz) as [[-> _]|[-> L]].
    - exists b. split; [assumption|lia].
    - exists z. split; [assumption|]. exact (leb_toZ _ _ _ _ L Hz Hb). }
  destruct M as (m & Hm & Lm). pose proof (toZ_not_nan _ _ Hm) as Nm.
  destruct (Math_max_cases 0 (Math_min hi v) eq_refl Nm) as [[-> _]|[-> L]].
  - exists 0. split; [reflexivity|lia].
  - exists m. split; [assumption|].
    pose proof (leb_toZ _ _ _ _ L T0 Hm). lia.
Qed.

Lemma scaled_56 : scaled (Prim2SF 56) = Some (56 * 2 ^ 1074).
Proof. vm_compute. reflexivity. Qed.

Lemma scaled_900 : scaled (Prim2SF 900) = Some (900 * 2 ^ 1074).
Proof. vm_compute. reflexivity. Qed.

Lemma scaled_844 : scaled (Prim2SF 844) = Some (844 * 2 ^ 1074).
Proof. vm_compute. reflexivity. Qed.

(** The pointer's position brought into the plot: between 56 and 900. *)
Lemma innerX_range v :
  isNaN v = false ->
  (56 <=? Math_max 56 (Math_min 900 v))%float = true
  /\ (Math_max 56 (Math_min 900 v) <=? 900)%float = true.
Proof.
  intros Nv.
  assert (Nm : isNaN (Math_min 900 v) = false).
  { destruct (Math_min_cases 900 v eq_refl Nv) as [[-> _]|[-> _]];
      [reflexivity|assumption]. }
  split; [now apply Math_max_ge_l|].
  destruct (Math_max_cases 56 (Math_min 900 v) eq_refl Nm) as [[-> _]|[-> _]];
    [reflexivity|].
  destruct (Math_min_cases 900 v eq_refl Nv) as [[-> _]|[-> L]];
    [reflexivity|assumption].
Qed.

(** X12. The handler of [onMouseMove] reads [safeSeries[idxClamped]]. For a
    series of [len >= 1] points (fewer than 2^53), and a pointer whose position
    [x / width * 920] is a number, [idxClamped] is an integer between 0 and
    [len - 1], an index of the series, wherever the pointer is, outside the
    plot or at an infinite position included. When the position is NaN, so is
    [idxClamped]. *)
Theorem hover_index_in_series x width len :
  1 <= len < 2 ^ 53 ->
  (isNaN (x / width * 920) = false ->
   exists k, toZ (hoverIndex x width len) = Some k /\ 0 <= k <= len - 1)
  /\ (isNaN (x / width * 920) = true -> isNaN (hoverIndex x width len) = true).
Proof.
  intros Hlen. pose proof pow2_1074_pos as P. unfold hoverIndex.
  change (920 - 20)%float with 900%float.
  change (920 - 56 - 20)%float with 844%float.
  rewrite (Z2F_pred len Hlen).
  assert (S0 : scaled (Prim2SF 0) = Some 0) by reflexivity.
  assert (HL : toZ (Z2F (len - 1)) = Some (len - 1)) by (apply toZ_Z2F; lia).
  pose proof (toZ_scaled _ _ HL) as SL.
  split.
  - intros Nv. set (v := (x / width * 920)%float) in *.
    destruct (innerX_range v Nv) as [I1 I2].
    set (innerX := Math_max 56 (Math_min 900 v)) in *.
    destruct (between_scaled innerX 56 900 I1 I2 eq_refl eq_refl) as [a Sa].
    pose proof (leb_scaled _ _ _ _ I1 scaled_56 Sa) as La1.
    pose proof (leb_scaled _ _ _ _ I2 Sa scaled_900) as La2.
    (* the offset in the plot, between 0 and 844 *)
    assert (D1 : (0 <=? innerX - 56)%float = true)
      by (apply (sub_ge_bound _ _ _ _ _ _ Sa scaled_56 S0); lia).
    assert (D2 : (innerX - 56 <=? 844)%float = true)
      by (apply (sub_le_bound _ _ _ _ _ _ Sa scaled_56 scaled_844); lia).
    destruct (between_scaled _ 0 844 D1 D2 eq_refl eq_refl) as [d Sd].
    pose proof (leb_scaled _ _ _ _ D1 S0 Sd) as Ld1.
    pose proof (leb_scaled _ _ _ _ D2 Sd scaled_844) as Ld2.
    (* its share of the width, between 0 and 1 *)
    assert (T1 : (0 <=? (innerX - 56) / 844)%float = true)
      by (apply (div_ge_bound _ _ _ _ _ _ Sd scaled_844 S0); lia).
    assert (T2 : ((innerX - 56) / 844 <=? 1)%float = true)
      by (apply (div_le_bound _ _ _ _ _ _ Sd scaled_844 scaled_one); nia).
    destruct (between_scaled _ 0 1 T1 T2 eq_refl eq_refl) as [t St].
    pose proof (leb_scaled _ _ _ _ T1 S0 St) as Lt1.
    pose proof (leb_scaled _ _ _ _ T2 St scaled_one) as Lt2.
    (* the position along the series, between 0 and len - 1 *)
    assert (U1 : (0 <=? (innerX - 56) / 844 * Z2F (len - 1))%float = true)
      by (apply (mul_ge_bound _ _ _ _ _ _ St SL S0); nia).
    assert (U2 : ((innerX - 56) / 844 * Z2F (len - 1) <=? Z2F (len - 1))%float
                 = true)
      by (apply (mul_le_bound _ _ _ _ _ _ St SL SL); nia).
    assert (FL : Number_isFinite (Z2F (len - 1)) = true)
      by exact (toZ_finite _ _ HL).
    destruct (between_scaled _ 0 _ U1 U2 eq_refl FL) as [u Su].
    destruct (Math_round_integer _ (scaled_finite_number _ _ Su)) as [z Hz].
    apply (clamp_index _ _ (len - 1) z); [assumption|lia|assumption].
  - intros Nv. apply isNaN_nan in Nv. rewrite Nv.
    change ((Math_max 56 (Math_min 900 nan) - 56) / 844)%float with nan.
    assert (E : (nan * Z2F (len - 1))%float = nan).
    { apply Prim2SF_inj. rewrite mul_spec. reflexivity. }
    rewrite E. change (Math_round nan) with nan.
    assert (M : Math_min (Z2F (len - 1)) nan = nan).
    { unfold Math_min. change (isNaN nan) with true.
      now rewrite orb_true_r. }
    rewrite M. reflexivity.
Qed.

Lemma hover_index_in_series_witness :
  exists k, toZ (hoverIndex 2000 400 36) = Some k /\ 0 <= k <= 36 - 1.
Proof.
  destruct (hover_index_in_series 2000 400 36) as [H _];
    [lia|apply H; reflexivity].
Defined.

(** * The bars of the breakdown *)

Lemma barWidth_range pct :
  isNaN pct = false ->
  (0 <=? barWidth pct)%float = true /\ (barWidth pct <=? 100)%float = true.
Proof.
  intros Np. unfold barWidth.
  destruct (Math_min_cases 100 pct eq_refl Np) as [[-> _]|[-> L]];
    [split; reflexivity|].
  destruct (Math_max_cases 0 pct eq_refl Np) as [[-> _]|[-> L0]];
    [split; reflexivity|now split].
Qed.

Lemma breakdownPct_not_nan part total :
  Number_isFinite part = true -> isNaN (breakdownPct part total) = false.
Proof.
  intros Hf. unfold breakdownPct.
  destruct (truthy total) eqn:Ht; [|reflexivity].
  eapply mul_finite_not_nan; [|reflexivity].
  apply isNaN_false. rewrite div_spec.
  unfold truthy in Ht. unfold Number_isFinite in Hf.
  destruct (Prim2SF total) as [s|s| |s m e]; try discriminate.
  - destruct (Prim2SF part); try discriminate; simpl; discriminate.
  - apply SFdiv_not_nan. destruct (Prim2SF part); try discriminate; exact I.
Qed.

(** X13. The widths given to the two bars of [Breakdown] are numbers between 0
    and 100 for all finite [finalContrib] and [finalInterest], of either sign
    and however their sum rounds or overflows; and both are 0 when the total is
    0. *)
Theorem breakdown_bars_in_track finalContrib finalInterest :
  Number_isFinite finalContrib = true ->
  Number_isFinite finalInterest = true ->
  ((0 <=? contribBarWidth finalContrib finalInterest)%float = true
   /\ (contribBarWidth finalContrib finalInterest <=? 100)%float = true)
  /\ ((0 <=? growthBarWidth finalContrib finalInterest)%float = true
      /\ (growthBarWidth finalContrib finalInterest <=? 100)%float = true)
  /\ (truthy (breakdownTotal finalContrib finalInterest) = false ->
      contribBarWidth finalContrib finalInterest = 0%float
      /\ growthBarWidth finalContrib finalInterest = 0%float).
Proof.
  intros Hc Hi. unfold contribBarWidth, growthBarWidth. repeat split.
  1-2: apply barWidth_range, breakdownPct_not_nan; assumption.
  1-2: apply barWidth_range, breakdownPct_not_nan; assumption.
  all: unfold breakdownPct; rewrite H; reflexivity.
Qed.

Lemma breakdown_bars_in_track_witness :
  ((0 <=? contribBarWidth 78000 (-90000))%float = true
   /\ (contribBarWidth 78000 (-90000) <=? 100)%float = true)
  /\ ((0 <=? growthBarWidth 78000 (-90000))%float = true
      /\ (growthBarWidth 78000 (-90000) <=? 100)%float = true)
  /\ (truthy (breakdownTotal 78000 (-90000)) = false ->
      contribBarWidth 78000 (-90000) = 0%float
      /\ growthBarWidth 78000 (-90000) = 0%float).
Proof. apply breakdown_bars_in_track; reflexivity. Defined.
